(** * bet99 super-node: demand-driven polling and coalescing core

    A shallow embedding of the cache, coalescer, worker pool and scheduler
    classes of [super-node/src/infrastructure], and the properties of the
    specification that concern them.

    Conventions.
    - Wall-clock time ([Date.now()]) is an explicit argument [now : Z], in
      milliseconds; TTLs are integers in seconds, as every call site passes.
    - Cached payloads are JSON-like values ([Json]); JavaScript [null] is
      [JNull].
    - A JavaScript [Map<string, _>] is a [gmap string _].  Enumeration order
      of a [Map] is insertion order; the properties below speak of membership
      only, so enumeration uses the canonical order of [map_to_list].
    - A promise is a natural number; the runtime table of a class records the
      continuation that the source attaches to it ([then]/[finally]) and the
      settlement, once it has happened.
    - The event loop runs one callback at a time: a method is a function
      of the state up to its first [await] on the outside world (provider,
      Redis), and a second function from the answer on.  An [await] on the
      in-memory cache does not leave the turn.
    - The schedulers are modelled on [InMemoryCacheService]; the container
      hands them [RedisCacheService] when Redis is enabled.  Where the turn
      in which the cache answers decides what a method does (the odds
      ticks), the method is given a second time, split at its [await] on
      the cache.
    - Strings are sequences of one-byte characters. *)

From Stdlib Require Import ZArith Lia Ascii String DecimalString.
From stdpp Require Import gmap strings list fin_maps.

Local Open Scope Z_scope.

(* ===================================================================== *)
(** * Part I. The embedding                                               *)
(* ===================================================================== *)

(** ** JavaScript values and string helpers *)

Module Js.

#[warnings="-register-all"]
Inductive Json : Type :=
| JNull
| JBool (b : bool)
| JNum (n : Z)
| JStr (s : string)
| JArr (items : list Json)
| JObj (fields : list (string * Json)).

(** [if (v)] / [v && ...] *)
Definition truthy (v : Json) : bool :=
  match v with
  | JNull => false
  | JBool b => b
  | JNum n => negb (n =? 0)
  | JStr s => negb (String.eqb s EmptyString)
  | JArr _ => true
  | JObj _ => true
  end.

(** [typeof v === "object"] *)
Definition typeof_object (v : Json) : bool :=
  match v with
  | JNull | JArr _ | JObj _ => true
  | _ => false
  end.

Fixpoint assoc (k : string) (fields : list (string * Json)) : option Json :=
  match fields with
  | [] => None
  | (k', v) :: rest => if String.eqb k k' then Some v else assoc k rest
  end.

(** [k in v], for a non-index property name [k]. *)
Definition has_property (k : string) (v : Json) : bool :=
  match v with
  | JObj fields => bool_decide (is_Some (assoc k fields))
  | _ => false
  end.

(** [v.k]; [undefined] is rendered as [JNull]. *)
Definition property (k : string) (v : Json) : Json :=
  match v with
  | JObj fields => default JNull (assoc k fields)
  | _ => JNull
  end.

(** [data.length] of an array. *)
Definition array_length (v : Json) : option nat :=
  match v with
  | JArr items => Some (length items)
  | _ => None
  end.

Fixpoint drop_chars (n : nat) (s : string) : string :=
  match n, s with
  | O, _ => s
  | S n', String _ s' => drop_chars n' s'
  | S _, EmptyString => EmptyString
  end.

(** [s.startsWith(pat)] *)
Fixpoint starts_with (pat s : string) : bool :=
  match pat, s with
  | EmptyString, _ => true
  | String a pat', String b s' => Ascii.eqb a b && starts_with pat' s'
  | String _ _, EmptyString => false
  end.

(** [s.replace(pat, rep)] with a string pattern: the first occurrence. *)
Fixpoint replace_first (pat rep s : string) : string :=
  if starts_with pat s then rep +:+ drop_chars (String.length pat) s
  else match s with
       | EmptyString => EmptyString
       | String c s' => String c (replace_first pat rep s')
       end.

(** [s.replace(/c/g, rep)] for a one-character pattern. *)
Fixpoint replace_all_char (c : ascii) (rep s : string) : string :=
  match s with
  | EmptyString => EmptyString
  | String d s' =>
      if Ascii.eqb c d then rep +:+ replace_all_char c rep s'
      else String d (replace_all_char c rep s')
  end.

(** *** The regular expressions that [keys] builds

    [keys(pattern)] rewrites [*] to [.*] and [?] to [.] and anchors the
    result.  The fragment modelled is the one such a rewrite produces from
    a pattern without other regular-expression operators: a sequence of
    atoms (a literal character or [.]), each optionally starred.  A source
    text outside the fragment does not compile ([None]). *)

Inductive Atom : Type :=
| AnyChar
| Lit (c : ascii).

Definition is_operator (c : ascii) : bool :=
  match c with
  | "\"%char | "^"%char | "$"%char | "+"%char | "("%char | ")"%char
  | "["%char | "]"%char | "{"%char | "}"%char | "|"%char | "?"%char => true
  | _ => false
  end.

Fixpoint compile (src : string) : option (list (Atom * bool)) :=
  match src with
  | EmptyString => Some []
  | String c rest =>
      if Ascii.eqb c "*" then None
      else if is_operator c then None
      else
        let a := if Ascii.eqb c "." then AnyChar else Lit c in
        match rest with
        | String "*" rest' => (fun r => (a, true) :: r) <$> compile rest'
        | _ => (fun r => (a, false) :: r) <$> compile rest
        end
  end.

(** [.] matches any character but a line terminator. *)
Definition atom_matches (a : Atom) (c : ascii) : bool :=
  match a with
  | AnyChar => negb (Ascii.eqb c "010" || Ascii.eqb c "013")
  | Lit d => Ascii.eqb c d
  end.

Fixpoint matches (r : list (Atom * bool)) (s : string) : bool :=
  match r with
  | [] => match s with EmptyString => true | _ => false end
  | (a, false) :: r' =>
      match s with
      | String c s' => atom_matches a c && matches r' s'
      | EmptyString => false
      end
  | (a, true) :: r' =>
      (fix star (s : string) : bool :=
         matches r' s ||
         match s with
         | String c s' => atom_matches a c && star s'
         | EmptyString => false
         end) s
  end.

(** No line terminator occurs in [s]. *)
Fixpoint single_line (s : string) : bool :=
  match s with
  | EmptyString => true
  | String c s' => negb (Ascii.eqb c "010" || Ascii.eqb c "013") && single_line s'
  end.

(** How a promise settles, and what a call into the provider yields. *)
Inductive Settlement : Type :=
| Fulfilled (v : Json)
| Rejected (reason : string).

Inductive Reply (A : Type) : Type :=
| Returned (a : A)
| Threw (reason : string).
Arguments Returned {A} a.
Arguments Threw {A} reason.

(** [`${n}`] for an integer. *)
Definition string_of_Z (n : Z) : string :=
  DecimalString.NilZero.string_of_int (Z.to_int n).

End Js.
Export Js.

(** ** [InMemoryCacheService] (in-memory-cache.service.ts) *)

Module InMemory.

(** [CACHE_TTL.DEFAULT], the default of the [ttlSeconds] parameters. *)
Definition CACHE_TTL_DEFAULT : Z := 60.

Definition STALE_MULTIPLIER : Z := 2.

Record CacheEntry : Type := mkEntry {
  value : Json;
  freshUntil : Z;
  staleUntil : Z
}.

(** What [coalesce] chains onto a factory promise: [then] stores the value
    under [p_key] with [p_ttl], [finally] deletes the slot of [p_key]. *)
Record Pending : Type := mkPending {
  p_key : string;
  p_ttl : Z
}.

Record InMemoryCacheService : Type := mkCache {
  store : gmap string CacheEntry;
  inflight : gmap string nat;
  (* promise runtime *)
  pending : gmap nat Pending;
  settled : gmap nat Settlement;
  nextPromise : nat;
  (* one entry, key and factory label, per invocation of a factory *)
  factoryCalls : list (string * nat)
}.

Definition empty : InMemoryCacheService :=
  mkCache ∅ ∅ ∅ ∅ 0%nat [].

Definition with_store (st : gmap string CacheEntry) (c : InMemoryCacheService)
  : InMemoryCacheService :=
  mkCache st (inflight c) (pending c) (settled c) (nextPromise c) (factoryCalls c).

Definition get (key : string) (now : Z) (c : InMemoryCacheService)
  : Json * InMemoryCacheService :=
  match store c !! key with
  | None => (JNull, c)
  | Some entry =>
      if staleUntil entry <? now
      then (JNull, with_store (delete key (store c)) c)
      else (value entry, c)
  end.

Definition set (key : string) (v : Json) (ttlSeconds : option Z) (now : Z)
  (c : InMemoryCacheService) : InMemoryCacheService :=
  let ttlMs := default CACHE_TTL_DEFAULT ttlSeconds * 1000 in
  with_store
    (<[key := mkEntry v (now + ttlMs) (now + ttlMs * STALE_MULTIPLIER)]> (store c)) c.

Definition del (key : string) (c : InMemoryCacheService) : InMemoryCacheService :=
  mkCache (delete key (store c)) (delete key (inflight c))
          (pending c) (settled c) (nextPromise c) (factoryCalls c).

(** [(await this.get(key)) !== null] *)
Definition exists_ (key : string) (now : Z) (c : InMemoryCacheService)
  : bool * InMemoryCacheService :=
  let '(v, c') := get key now c in
  (match v with JNull => false | _ => true end, c').

Definition flush (c : InMemoryCacheService) : InMemoryCacheService :=
  mkCache ∅ ∅ (pending c) (settled c) (nextPromise c) (factoryCalls c).

(** The text between [^] and [$] of the expression built by [keys]. *)
Definition glob_source (pattern : string) : string :=
  replace_all_char "?" "." (replace_all_char "*" ".*" pattern).

Definition store_keys (c : InMemoryCacheService) : list string :=
  (map_to_list (store c)).*1.

(** [None]: the pattern leaves the modelled fragment of expressions. *)
Definition keys (pattern : string) (c : InMemoryCacheService)
  : option (list string) :=
  regex ← compile (glob_source pattern);
  Some (List.filter (matches regex) (store_keys c)).

(** What the promise returned by [getOrSet] is: already resolved with a
    value, or following the in-flight promise [p]. *)
Inductive Answer : Type :=
| Now (v : Json)
| Later (p : nat).

Definition coalesce (key : string) (factory : nat) (ttlSeconds : Z)
  (c : InMemoryCacheService) : nat * InMemoryCacheService :=
  match inflight c !! key with
  | Some existing => (existing, c)
  | None =>
      let p := nextPromise c in
      (p, mkCache (store c)
                  (<[key := p]> (inflight c))
                  (<[p := mkPending key ttlSeconds]> (pending c))
                  (settled c)
                  (S p)
                  (factoryCalls c ++ [(key, factory)]))
  end.

Definition refreshInBackground (key : string) (factory : nat) (ttlSeconds : Z)
  (c : InMemoryCacheService) : InMemoryCacheService :=
  (coalesce key factory ttlSeconds c).2.

Definition getOrSet (key : string) (factory : nat) (ttlSeconds : option Z)
  (now : Z) (c : InMemoryCacheService) : Answer * InMemoryCacheService :=
  let ttl := default CACHE_TTL_DEFAULT ttlSeconds in
  let miss := let '(p, c') := coalesce key factory ttl c in (Later p, c') in
  match store c !! key with
  | Some entry =>
      if now <=? freshUntil entry then (Now (value entry), c)
      else if now <=? staleUntil entry
      then (Now (value entry), refreshInBackground key factory ttl c)
      else miss
  | None => miss
  end.

(** The factory promise chained into [p] settles at [now]: the [then]
    callback of [coalesce] stores a fulfilled value, the [finally] callback
    frees the slot, and [p] takes the settlement. *)
Definition settle (p : nat) (r : Settlement) (now : Z)
  (c : InMemoryCacheService) : InMemoryCacheService :=
  match pending c !! p with
  | None => c
  | Some k =>
      let c1 := match r with
                | Fulfilled v => set (p_key k) v (Some (p_ttl k)) now c
                | Rejected _ => c
                end in
      mkCache (store c1)
              (delete (p_key k) (inflight c1))
              (delete p (pending c1))
              (<[p := r]> (settled c1))
              (nextPromise c1)
              (factoryCalls c1)
  end.

(** What the holders of a cache do to it, each at its instant, and the
    cache after a sequence of such operations. *)
Inductive Op : Type :=
| OpGet (key : string)
| OpSet (key : string) (v : Json) (ttlSeconds : option Z)
| OpDel (key : string)
| OpExists (key : string)
| OpFlush
| OpGetOrSet (key : string) (factory : nat) (ttlSeconds : option Z)
| OpSettle (p : nat) (r : Settlement).

Definition apply (c : InMemoryCacheService) (top : Z * Op) : InMemoryCacheService :=
  let now := top.1 in
  match top.2 with
  | OpGet key => (get key now c).2
  | OpSet key v ttl => set key v ttl now c
  | OpDel key => del key c
  | OpExists key => (exists_ key now c).2
  | OpFlush => flush c
  | OpGetOrSet key factory ttl => (getOrSet key factory ttl now c).2
  | OpSettle p r => settle p r now c
  end.

Definition run (ops : list (Z * Op)) : InMemoryCacheService := foldl apply empty ops.

(** An operation that neither sets nor deletes the entry of [key]. *)
Definition spares (key : string) (c : InMemoryCacheService) (op : Op) : Prop :=
  match op with
  | OpSet k _ _ | OpDel k => k ≠ key
  | OpFlush => False
  | OpSettle p (Fulfilled _) =>
      match pending c !! p with
      | Some k => p_key k ≠ key
      | None => True
      end
  | _ => True
  end.

(** A slot holds a promise that is still pending and was started for the
    key of the slot, and promise numbers are never reused. *)
Definition consistent (c : InMemoryCacheService) : Prop :=
  (∀ key p, inflight c !! key = Some p →
            ∃ ttl, pending c !! p = Some (mkPending key ttl)) ∧
  (∀ p, is_Some (pending c !! p) ∨ is_Some (settled c !! p) → (p < nextPromise c)%nat).

(** [getOrSet(key, ...)] at [now] finds neither a fresh nor a stale entry. *)
Definition missing (key : string) (now : Z) (c : InMemoryCacheService) : Prop :=
  match store c !! key with
  | None => True
  | Some e => freshUntil e < now ∧ staleUntil e < now
  end.

(** [c'] is [c] after a call for [key] went through [coalesce], and [p] is
    the promise the call got: the one that was in flight, with nothing
    else done, or a new one behind which [factory] has been called once. *)
Definition through_coalesce (key : string) (factory : nat) (ttl : Z)
  (c c' : InMemoryCacheService) (p : nat) : Prop :=
  store c' = store c ∧
  inflight c' !! key = Some p ∧
  match inflight c !! key with
  | Some existing => p = existing ∧ c' = c
  | None =>
      factoryCalls c' = factoryCalls c ++ [(key, factory)] ∧
      pending c' !! p = Some (mkPending key ttl)
  end.

(** How the promise [p], in flight for [key] in [c], settles: a value is
    stored under [key] with the ttl that [p] was started with, fresh for
    that long and stale for as long again, and becomes the settlement of
    [p]; a rejection becomes the settlement of [p] and leaves the store as
    it is; both free the slot. *)
Definition settles_for (key : string) (p : nat) (c : InMemoryCacheService) : Prop :=
  ∃ ttl, pending c !! p = Some (mkPending key ttl) ∧
    (∀ v t,
       store (settle p (Fulfilled v) t c) !! key
         = Some (mkEntry v (t + ttl * 1000) (t + ttl * 1000 * STALE_MULTIPLIER)) ∧
       settled (settle p (Fulfilled v) t c) !! p = Some (Fulfilled v) ∧
       inflight (settle p (Fulfilled v) t c) !! key = None) ∧
    (∀ reason t,
       store (settle p (Rejected reason) t c) = store c ∧
       settled (settle p (Rejected reason) t c) !! p = Some (Rejected reason) ∧
       inflight (settle p (Rejected reason) t c) !! key = None).

(** The operations [ops], applied from [c] on, happen no later than [t] and
    spare the entry of [key]. *)
Fixpoint untouched (key : string) (t : Z) (c : InMemoryCacheService)
  (ops : list (Z * Op)) : Prop :=
  match ops with
  | [] => True
  | top :: rest =>
      top.1 ≤ t ∧ spares key c top.2 ∧ untouched key t (apply c top) rest
  end.

End InMemory.

(** ** [RedisCacheService] (redis-cache.service.ts)

    The Redis server is outside the repository.  Its keyspace is modelled as
    a map from key to the stored value and the instant at which [SETEX] lets
    it expire; [ok] says whether the command of a call succeeds (every method
    catches a failing command).  [JSON.stringify] followed by [JSON.parse] is
    the identity on [Json]. *)

Module Redis.

Record RedisCacheService : Type := mkRedis {
  prefix : string;
  db : gmap string (Json * Z);
  (* [getOrSet] calls suspended on their own factory: key and ttl *)
  awaiting : gmap nat (string * Z);
  nextCall : nat;
  factoryCalls : list (string * nat)
}.

Definition connect (pfx : string) : RedisCacheService :=
  mkRedis pfx ∅ ∅ 0%nat [].

Definition key (c : RedisCacheService) (k : string) : string := prefix c +:+ k.

Definition get (k : string) (ok : bool) (now : Z) (c : RedisCacheService) : Json :=
  if ok then
    match db c !! key c k with
    | Some (data, expiresAt) => if now <? expiresAt then data else JNull
    | None => JNull
    end
  else JNull.

(** [SETEX] rejects a non-positive expiry; the method logs and returns. *)
Definition set (k : string) (v : Json) (ttlSeconds : option Z) (ok : bool)
  (now : Z) (c : RedisCacheService) : RedisCacheService :=
  let ttl := default InMemory.CACHE_TTL_DEFAULT ttlSeconds in
  if ok && (0 <? ttl)
  then mkRedis (prefix c) (<[key c k := (v, now + ttl * 1000)]> (db c))
               (awaiting c) (nextCall c) (factoryCalls c)
  else c.

Inductive Answer : Type :=
| Now (v : Json)
| Suspended (call : nat).

(** [getOrSet] up to the call of [factory()]. *)
Definition getOrSet_enter (k : string) (factory : nat) (ttlSeconds : option Z)
  (ok : bool) (now : Z) (c : RedisCacheService) : Answer * RedisCacheService :=
  match get k ok now c with
  | JNull =>
      let id := nextCall c in
      (Suspended id,
       mkRedis (prefix c) (db c)
               (<[id := (k, default InMemory.CACHE_TTL_DEFAULT ttlSeconds)]> (awaiting c))
               (S id)
               (factoryCalls c ++ [(k, factory)]))
  | cached => (Now cached, c)
  end.

(** [getOrSet] from the settlement of its factory: a value is stored and
    returned, a rejection propagates to this caller. *)
Definition getOrSet_resume (id : nat) (r : Settlement) (ok : bool) (now : Z)
  (c : RedisCacheService) : option Settlement * RedisCacheService :=
  match awaiting c !! id with
  | None => (None, c)
  | Some (k, ttl) =>
      let c1 := mkRedis (prefix c) (db c) (delete id (awaiting c))
                        (nextCall c) (factoryCalls c) in
      match r with
      | Fulfilled v => (Some r, set k v (Some ttl) ok now c1)
      | Rejected _ => (Some r, c1)
      end
  end.

(** [DEL]; the method ignores the count that the command returns. *)
Definition del (k : string) (ok : bool) (c : RedisCacheService) : RedisCacheService :=
  if ok
  then mkRedis (prefix c) (delete (key c k) (db c))
               (awaiting c) (nextCall c) (factoryCalls c)
  else c.

(** [(await this.redis.exists(this.key(key))) === 1] *)
Definition exists_ (k : string) (ok : bool) (now : Z) (c : RedisCacheService) : bool :=
  if ok then
    match db c !! key c k with
    | Some (_, expiresAt) => now <? expiresAt
    | None => false
    end
  else false.

(** [keys] from the server's answer to [KEYS <prefix><pattern>] on. *)
Definition keys_result (answer : Reply (list string)) (c : RedisCacheService)
  : list string :=
  match answer with
  | Returned found => List.map (replace_first (prefix c) EmptyString) found
  | Threw _ => []
  end.

End Redis.

(** ** [RequestCoalescer] (exchange-polling.scheduler.ts)

    [F] is the type of the fetcher closures handed to [coalesce]. *)

Module Coalescer.

Section WithFetcher.
Context {F : Type}.

Record RequestCoalescer : Type := mkCoalescer {
  inFlight : gmap string nat;
  (* promise runtime: the fetchers still executing, with the key that the
     [finally] callback of their promise deletes *)
  running : gmap nat (string * F);
  settled : gmap nat Settlement;
  nextPromise : nat;
  (* one entry per invocation of a fetcher *)
  fetcherCalls : list (string * F)
}.

Definition empty : RequestCoalescer := mkCoalescer ∅ ∅ ∅ 0%nat [].

Definition coalesce (key : string) (fetcher : F) (c : RequestCoalescer)
  : nat * RequestCoalescer :=
  match inFlight c !! key with
  | Some existing => (existing, c)
  | None =>
      let p := nextPromise c in
      (p, mkCoalescer (<[key := p]> (inFlight c))
                      (<[p := (key, fetcher)]> (running c))
                      (settled c)
                      (S p)
                      (fetcherCalls c ++ [(key, fetcher)]))
  end.

(** The fetcher behind promise [p] settles: [finally] deletes the slot. *)
Definition settle (p : nat) (r : Settlement) (c : RequestCoalescer)
  : RequestCoalescer :=
  match running c !! p with
  | None => c
  | Some (key, _) =>
      mkCoalescer (delete key (inFlight c))
                  (delete p (running c))
                  (<[p := r]> (settled c))
                  (nextPromise c)
                  (fetcherCalls c)
  end.

Definition activeCount (c : RequestCoalescer) : nat := size (inFlight c).

(** The two things that happen to a coalescer. *)
Inductive Op : Type :=
| Coalesce (key : string) (fetcher : F)
| Settle (p : nat) (r : Settlement).

Definition apply (c : RequestCoalescer) (o : Op) : RequestCoalescer :=
  match o with
  | Coalesce key fetcher => (coalesce key fetcher c).2
  | Settle p r => settle p r c
  end.

Definition run (ops : list Op) : RequestCoalescer := foldl apply empty ops.

(** The slots are exactly the fetchers that are executing, and promise
    numbers are never reused. *)
Definition consistent (c : RequestCoalescer) : Prop :=
  (∀ key p, inFlight c !! key = Some p ↔ ∃ f, running c !! p = Some (key, f)) ∧
  (∀ p, is_Some (running c !! p) ∨ is_Some (settled c !! p) → (p < nextPromise c)%nat) ∧
  (∀ p, is_Some (settled c !! p) → running c !! p = None).

End WithFetcher.
Arguments RequestCoalescer F : clear implicits.
Arguments Op F : clear implicits.

End Coalescer.

(** ** [OddsFetchWorker] (both schedulers)

    The two classes of that name differ in the entry type and in
    [fetchOdds].  [launch] is [fetchOdds] up to its first [await]: it acts on
    the resource [R] the fetch goes through and yields the promise that the
    call then awaits. *)

Module Worker.

Definition MAX_CONCURRENCY : Z := 5.

Inductive Emitted (E : Type) : Type :=
| FETCH_COMPLETE (entry : E) (success : bool)
| TICK_COMPLETE.
Arguments FETCH_COMPLETE {E} entry success.
Arguments TICK_COMPLETE {E}.

Section WithFetch.
Context {E R : Type}.
Variable launch : E → R → nat * R.

Record OddsFetchWorker : Type := mkWorker {
  activeCount : Z;
  queue : list E;
  processing : bool;
  (* the listeners registered on the emitter are still attached *)
  listening : bool;
  (* the [fetchOdds] calls started and not yet completed, with the promise
     each one awaits *)
  fetching : list (E * nat)
}.

Definition idle : OddsFetchWorker := mkWorker 0 [] false true [].

(** The [while] loop of [drain]. *)
Fixpoint drain_loop (q : list E) (active : Z) (started : list (E * nat)) (r : R)
  : list E * Z * list (E * nat) * R :=
  match q with
  | [] => ([], active, started, r)
  | entry :: q' =>
      if active <? MAX_CONCURRENCY
      then let '(p, r') := launch entry r in
           drain_loop q' (active + 1) (started ++ [(entry, p)]) r'
      else (q, active, started, r)
  end.

Definition is_empty (q : list E) : bool :=
  match q with [] => true | _ => false end.

Definition drain (w : OddsFetchWorker) (r : R)
  : OddsFetchWorker * R * list (Emitted E) :=
  if processing w && is_empty (queue w) && (activeCount w =? 0)
  then (mkWorker (activeCount w) (queue w) false (listening w) (fetching w),
        r, [TICK_COMPLETE])
  else
    let '(q, active, started, r') :=
      drain_loop (queue w) (activeCount w) (fetching w) r in
    if is_empty q && (active =? 0)
    then (mkWorker active q false (listening w) started, r', [TICK_COMPLETE])
    else (mkWorker active q true (listening w) started, r', []).

Definition enqueue (entries : list E) (w : OddsFetchWorker) (r : R)
  : OddsFetchWorker * R * list (Emitted E) :=
  drain (mkWorker (activeCount w) (queue w ++ entries) (processing w)
                  (listening w) (fetching w)) r.

(** [emit(FETCH_ODDS, entries)]: the constructor's listener enqueues. *)
Definition emit_FETCH_ODDS (entries : list E) (w : OddsFetchWorker) (r : R)
  : OddsFetchWorker * R * list (Emitted E) :=
  if listening w then enqueue entries w r else (w, r, []).

Definition removeAllListeners (w : OddsFetchWorker) : OddsFetchWorker :=
  mkWorker (activeCount w) (queue w) (processing w) false (fetching w).

(** The [i]-th running [fetchOdds] returns [success] (or throws, which
    [catch] reports as [false]): [then]/[catch] emit, [finally] decrements
    and drains. *)
Definition finish (i : nat) (success : bool) (w : OddsFetchWorker) (r : R)
  : OddsFetchWorker * R * list (Emitted E) :=
  match fetching w !! i with
  | None => (w, r, [])
  | Some (entry, _) =>
      let '(w', r', out) :=
        drain (mkWorker (activeCount w - 1) (queue w) (processing w)
                        (listening w) (delete i (fetching w))) r in
      (w', r', FETCH_COMPLETE entry success :: out)
  end.

Definition getStats (w : OddsFetchWorker) : Z * nat * bool :=
  (activeCount w, length (queue w), processing w).

(** What happens to a worker, and a worker with the resource it fetches
    through after a sequence of such actions. *)
Inductive Action : Type :=
| Emit_FETCH_ODDS (entries : list E)
| Finish (i : nat) (success : bool)
| RemoveAllListeners.

Definition act (wr : OddsFetchWorker * R) (a : Action) : OddsFetchWorker * R :=
  match a with
  | Emit_FETCH_ODDS entries => (emit_FETCH_ODDS entries wr.1 wr.2).1
  | Finish i success => (finish i success wr.1 wr.2).1
  | RemoveAllListeners => (removeAllListeners wr.1, wr.2)
  end.

Definition run (r0 : R) (actions : list Action) : OddsFetchWorker * R :=
  foldl act (idle, r0) actions.

(** The running fetches complete in the order in which the provider
    answers: a completion is the position, among the running fetches, of
    the one that returns, and its result.  [completions_running] says that
    each completion of the list finds its fetch running when it arrives. *)
Definition complete (wr : OddsFetchWorker * R) (c : nat * bool) : OddsFetchWorker * R :=
  act wr (Finish c.1 c.2).

Fixpoint completions_running (wr : OddsFetchWorker * R) (l : list (nat * bool)) : bool :=
  match l with
  | [] => true
  | c :: rest =>
      bool_decide (c.1 < length (fetching wr.1))%nat &&
      completions_running (complete wr c) rest
  end.

(** The counter counts the running fetches, within the bound. *)
Definition counted (w : OddsFetchWorker) : Prop :=
  activeCount w = Z.of_nat (length (fetching w)) ∧
  0 ≤ activeCount w ≤ MAX_CONCURRENCY.

(** Entries of a tick are still queued or being fetched. *)
Definition busy (w : OddsFetchWorker) : Prop :=
  queue w ≠ [] ∨ fetching w ≠ [].

End WithFetch.
Arguments OddsFetchWorker E : clear implicits.
Arguments Action E : clear implicits.

End Worker.

(** ** [ExchangePollingScheduler] (exchange-polling.scheduler.ts) *)

Module Exchange.

Record ExchangePollConfig : Type := mkConfig {
  matchList : Z;
  topEvents : Z;
  banners : Z;
  sidebar : Z;
  odds : Z;
  oddsHotTtl : Z
}.

Definition DEFAULT_POLL_CONFIG : ExchangePollConfig :=
  mkConfig 60000 3600000 3600000 86400000 1000 30.

Definition HOT_GMID_PREFIX : string := "xhot:gmid:".

Definition POLL_SPORT_IDS : list Z := [4; 1; 2].

Record HotGmidEntry : Type := mkHot {
  gmid : string;
  sid : Json
}.

Module EXCHANGE_CACHE_KEYS.
Definition allSports : string := "exchange:sports".
Definition matchDetails (gmid : string) : string := "exchange:details:" +:+ gmid.
Definition liveTvScore (gmid : string) : string := "exchange:tv:" +:+ gmid.
Definition virtualTv (gmid : string) : string := "exchange:vtv:" +:+ gmid.
Definition matchList (sid : Z) : string := "exchange:matches:" +:+ string_of_Z sid.
Definition matchOdds (gmid : string) : string := "exchange:odds:" +:+ gmid.
Definition topEvents : string := "exchange:top-events".
Definition banners : string := "exchange:banners".
Definition results (sid : Z) (gmid : string) : string :=
  "exchange:results:" +:+ string_of_Z sid +:+ ":" +:+ gmid.
Definition sidebar : string := "exchange:sidebar".
Definition hotGmid (gmid : string) : string := HOT_GMID_PREFIX +:+ gmid.
Definition hotGmidPattern : string := HOT_GMID_PREFIX +:+ "*".
End EXCHANGE_CACHE_KEYS.

Module EXCHANGE_CACHE_TTL.
Definition SPORTS : Z := 86400.
Definition MATCH_LIST : Z := 120.
Definition MATCH_ODDS : Z := 2.
Definition ON_DEMAND : Z := 86400.
Definition TOP_EVENTS : Z := 7200.
Definition BANNERS : Z := 7200.
Definition RESULTS : Z := 3600.
Definition SIDEBAR : Z := 172800.
End EXCHANGE_CACHE_TTL.

(** The two closures handed to the coalescer, both under the key
    [odds:<gmid>]: the worker's plain provider call, and the closure of
    [getCoalescedOdds], which also stores a non-empty answer. *)
Inductive Fetcher : Type :=
| PlainOdds (gmid : string) (sid : Json)
| CachingOdds (gmid : string) (sid : Json).

Inductive ProviderCall : Type :=
| GetAllSports
| GetMatchList (sid : Z)
| GetTopEvents
| GetBanners
| GetSidebarTree.

(** The callbacks that [start] hands to [setInterval], one per tier. *)
Inductive Callback : Type :=
| PollHotGmidOdds
| PollMatchLists
| PollTopEvents
| PollBanners
| PollSidebar.

#[global] Instance Callback_eq_dec : EqDecision Callback.
Proof. solve_decision. Defined.

(** What the provider answers during one [bootstrapOnce]. *)
Record BootstrapReplies : Type := mkReplies {
  r_sports : Reply (list Json);
  r_matchList : Z → Reply Json;
  r_topEvents : Reply (list Json);
  r_banners : Reply Json;
  r_sidebar : Reply Json
}.

(** [fetchOdds] of the worker up to its [await]. *)
Definition launch (e : HotGmidEntry) (co : Coalescer.RequestCoalescer Fetcher)
  : nat * Coalescer.RequestCoalescer Fetcher :=
  Coalescer.coalesce ("odds:" +:+ gmid e) (PlainOdds (gmid e) (sid e)) co.

Record ExchangePollingScheduler : Type := mkScheduler {
  config : ExchangePollConfig;
  worker : Worker.OddsFetchWorker HotGmidEntry;
  coalescer : Coalescer.RequestCoalescer Fetcher;
  cache : InMemory.InMemoryCacheService;
  started : bool;
  oddsPollingActive : bool;
  oddsTimer : option nat;
  matchListTimer : option nat;
  topEventsTimer : option nat;
  bannersTimer : option nat;
  sidebarTimer : option nat;
  (* runtime: the intervals that are armed, each with the callback it
     runs, and the next handle *)
  timers : gmap nat Callback;
  nextTimer : nat;
  (* one entry per call into the provider made outside the coalescer *)
  providerCalls : list ProviderCall
}.

Definition with_worker (x : Worker.OddsFetchWorker HotGmidEntry) (s : ExchangePollingScheduler)
  : ExchangePollingScheduler :=
  mkScheduler (config s) x (coalescer s) (cache s) (started s) (oddsPollingActive s) (oddsTimer s) (matchListTimer s) (topEventsTimer s) (bannersTimer s) (sidebarTimer s) (timers s) (nextTimer s) (providerCalls s).

Definition with_coalescer (x : Coalescer.RequestCoalescer Fetcher) (s : ExchangePollingScheduler)
  : ExchangePollingScheduler :=
  mkScheduler (config s) (worker s) x (cache s) (started s) (oddsPollingActive s) (oddsTimer s) (matchListTimer s) (topEventsTimer s) (bannersTimer s) (sidebarTimer s) (timers s) (nextTimer s) (providerCalls s).

Definition with_cache (x : InMemory.InMemoryCacheService) (s : ExchangePollingScheduler)
  : ExchangePollingScheduler :=
  mkScheduler (config s) (worker s) (coalescer s) x (started s) (oddsPollingActive s) (oddsTimer s) (matchListTimer s) (topEventsTimer s) (bannersTimer s) (sidebarTimer s) (timers s) (nextTimer s) (providerCalls s).

Definition with_started (x : bool) (s : ExchangePollingScheduler)
  : ExchangePollingScheduler :=
  mkScheduler (config s) (worker s) (coalescer s) (cache s) x (oddsPollingActive s) (oddsTimer s) (matchListTimer s) (topEventsTimer s) (bannersTimer s) (sidebarTimer s) (timers s) (nextTimer s) (providerCalls s).

Definition with_oddsPollingActive (x : bool) (s : ExchangePollingScheduler)
  : ExchangePollingScheduler :=
  mkScheduler (config s) (worker s) (coalescer s) (cache s) (started s) x (oddsTimer s) (matchListTimer s) (topEventsTimer s) (bannersTimer s) (sidebarTimer s) (timers s) (nextTimer s) (providerCalls s).

Definition with_oddsTimer (x : option nat) (s : ExchangePollingScheduler)
  : ExchangePollingScheduler :=
  mkScheduler (config s) (worker s) (coalescer s) (cache s) (started s) (oddsPollingActive s) x (matchListTimer s) (topEventsTimer s) (bannersTimer s) (sidebarTimer s) (timers s) (nextTimer s) (providerCalls s).

Definition with_matchListTimer (x : option nat) (s : ExchangePollingScheduler)
  : ExchangePollingScheduler :=
  mkScheduler (config s) (worker s) (coalescer s) (cache s) (started s) (oddsPollingActive s) (oddsTimer s) x (topEventsTimer s) (bannersTimer s) (sidebarTimer s) (timers s) (nextTimer s) (providerCalls s).

Definition with_topEventsTimer (x : option nat) (s : ExchangePollingScheduler)
  : ExchangePollingScheduler :=
  mkScheduler (config s) (worker s) (coalescer s) (cache s) (started s) (oddsPollingActive s) (oddsTimer s) (matchListTimer s) x (bannersTimer s) (sidebarTimer s) (timers s) (nextTimer s) (providerCalls s).

Definition with_bannersTimer (x : option nat) (s : ExchangePollingScheduler)
  : ExchangePollingScheduler :=
  mkScheduler (config s) (worker s) (coalescer s) (cache s) (started s) (oddsPollingActive s) (oddsTimer s) (matchListTimer s) (topEventsTimer s) x (sidebarTimer s) (timers s) (nextTimer s) (providerCalls s).

Definition with_sidebarTimer (x : option nat) (s : ExchangePollingScheduler)
  : ExchangePollingScheduler :=
  mkScheduler (config s) (worker s) (coalescer s) (cache s) (started s) (oddsPollingActive s) (oddsTimer s) (matchListTimer s) (topEventsTimer s) (bannersTimer s) x (timers s) (nextTimer s) (providerCalls s).

Definition with_timers (x : gmap nat Callback) (s : ExchangePollingScheduler)
  : ExchangePollingScheduler :=
  mkScheduler (config s) (worker s) (coalescer s) (cache s) (started s) (oddsPollingActive s) (oddsTimer s) (matchListTimer s) (topEventsTimer s) (bannersTimer s) (sidebarTimer s) x (nextTimer s) (providerCalls s).

Definition with_providerCalls (x : list ProviderCall) (s : ExchangePollingScheduler)
  : ExchangePollingScheduler :=
  mkScheduler (config s) (worker s) (coalescer s) (cache s) (started s) (oddsPollingActive s) (oddsTimer s) (matchListTimer s) (topEventsTimer s) (bannersTimer s) (sidebarTimer s) (timers s) (nextTimer s) x.

(** A scheduler as its constructor leaves it, on a given cache. *)
Definition create (cfg : ExchangePollConfig) (c : InMemory.InMemoryCacheService)
  : ExchangePollingScheduler :=
  mkScheduler cfg Worker.idle Coalescer.empty c false false
              None None None None None ∅ 0%nat [].

(** [data && data.length > 0], for [data] an array or [null]. *)
Definition non_empty (data : Json) : bool :=
  truthy data &&
  match array_length data with
  | Some n => bool_decide (0 < n)%nat
  | None => false
  end.

Definition json_of_list (data : option (list Json)) : Json :=
  match data with
  | Some items => JArr items
  | None => JNull
  end.

(** *** Hot GMID tracking *)

Definition markGmidHot (g : string) (sport : Z) (now : Z)
  (s : ExchangePollingScheduler) : ExchangePollingScheduler :=
  with_cache
    (InMemory.set (EXCHANGE_CACHE_KEYS.hotGmid g)
       (JObj [("gmid", JStr g); ("sid", JNum sport); ("ts", JNum now)])
       (Some (oddsHotTtl (config s))) now (cache s)) s.

Definition hot_entry (key : string) (raw : Json) : HotGmidEntry :=
  let g := replace_first HOT_GMID_PREFIX EmptyString key in
  if truthy raw && typeof_object raw && has_property "sid" raw
  then mkHot g (property "sid" raw)
  else mkHot g (JNum 4).

(** The [for] loop of [getHotGmids]. *)
Fixpoint collect_hot (ks : list string) (now : Z) (c : InMemory.InMemoryCacheService)
  (entries : list HotGmidEntry) : list HotGmidEntry * InMemory.InMemoryCacheService :=
  match ks with
  | [] => (entries, c)
  | key :: rest =>
      let '(raw, c') := InMemory.get key now c in
      collect_hot rest now c' (entries ++ [hot_entry key raw])
  end.

(** The pattern is a constant inside the modelled fragment, so [keys]
    answers and the [default] is never taken. *)
Definition getHotGmids (now : Z) (c : InMemory.InMemoryCacheService)
  : list HotGmidEntry * InMemory.InMemoryCacheService :=
  collect_hot (default [] (InMemory.keys EXCHANGE_CACHE_KEYS.hotGmidPattern c))
              now c [].

(** *** Coalesced odds *)

Definition getCoalescedOdds (g : string) (sport : Z)
  (s : ExchangePollingScheduler) : nat * ExchangePollingScheduler :=
  let '(p, co) :=
    Coalescer.coalesce ("odds:" +:+ g) (CachingOdds g (JNum sport)) (coalescer s) in
  (p, with_coalescer co s).

(** A fetcher closure from the provider's answer on: what its promise
    settles to, and what it does to the cache. *)
Definition fetcher_result (f : Fetcher) (reply : Reply (option (list Json)))
  (now : Z) (c : InMemory.InMemoryCacheService) : Settlement * InMemory.InMemoryCacheService :=
  match reply with
  | Threw reason => (Rejected reason, c)
  | Returned data =>
      match f with
      | PlainOdds _ _ => (Fulfilled (json_of_list data), c)
      | CachingOdds g _ =>
          (Fulfilled (json_of_list data),
           if non_empty (json_of_list data)
           then InMemory.set (EXCHANGE_CACHE_KEYS.matchOdds g) (json_of_list data)
                             (Some EXCHANGE_CACHE_TTL.MATCH_ODDS) now c
           else c)
      end
  end.

(** [fetchOdds] of the worker from its [await] on. *)
Definition fetchOdds_resume (outcome : Settlement) (g : string) (now : Z)
  (c : InMemory.InMemoryCacheService) : bool * InMemory.InMemoryCacheService :=
  match outcome with
  | Fulfilled data =>
      if non_empty data
      then (true, InMemory.set (EXCHANGE_CACHE_KEYS.matchOdds g) data
                               (Some EXCHANGE_CACHE_TTL.MATCH_ODDS) now c)
      else (false, c)
  | Rejected _ => (false, c)
  end.

(** The listeners that the scheduler's constructor puts on the worker:
    [TICK_COMPLETE] clears the flag, [FETCH_COMPLETE] only logs. *)
Definition on_emitted (s : ExchangePollingScheduler)
  (ev : Worker.Emitted HotGmidEntry) : ExchangePollingScheduler :=
  if Worker.listening (worker s) then
    match ev with
    | Worker.TICK_COMPLETE => with_oddsPollingActive false s
    | Worker.FETCH_COMPLETE _ _ => s
    end
  else s.

Definition deliver (out : list (Worker.Emitted HotGmidEntry))
  (s : ExchangePollingScheduler) : ExchangePollingScheduler :=
  foldl on_emitted s out.

Fixpoint first_waiter (p : nat) (l : list (HotGmidEntry * nat)) : option nat :=
  match l with
  | [] => None
  | (_, q) :: rest => if Nat.eqb p q then Some 0%nat else S <$> first_waiter p rest
  end.

(** One [fetchOdds] call of the worker, the [i]-th running one, resumes
    with the settlement of the promise it awaits.  The result carries what
    the worker emitted. *)
Definition resume_fetch (i : nat) (outcome : Settlement) (now : Z)
  (s : ExchangePollingScheduler)
  : ExchangePollingScheduler * list (Worker.Emitted HotGmidEntry) :=
  match Worker.fetching (worker s) !! i with
  | None => (s, [])
  | Some (e, _) =>
      let '(success, c') := fetchOdds_resume outcome (gmid e) now (cache s) in
      let '(w', co', out) :=
        Worker.finish launch i success (worker s) (coalescer s) in
      (deliver out (with_worker w' (with_coalescer co' (with_cache c' s))), out)
  end.

(** The [fetchOdds] calls awaiting promise [p] resume, oldest first. *)
Fixpoint resume_waiters (fuel : nat) (p : nat) (outcome : Settlement) (now : Z)
  (s : ExchangePollingScheduler)
  : ExchangePollingScheduler * list (Worker.Emitted HotGmidEntry) :=
  match fuel with
  | O => (s, [])
  | S fuel' =>
      match first_waiter p (Worker.fetching (worker s)) with
      | None => (s, [])
      | Some i =>
          let '(s1, out1) := resume_fetch i outcome now s in
          let '(s2, out2) := resume_waiters fuel' p outcome now s1 in
          (s2, out1 ++ out2)
      end
  end.

(** The provider answers the call behind promise [p]. *)
Definition oddsReply (p : nat) (reply : Reply (option (list Json))) (now : Z)
  (s : ExchangePollingScheduler)
  : ExchangePollingScheduler * list (Worker.Emitted HotGmidEntry) :=
  match Coalescer.running (coalescer s) !! p with
  | None => (s, [])
  | Some (_, f) =>
      let '(outcome, c') := fetcher_result f reply now (cache s) in
      let s1 := with_cache c'
                  (with_coalescer (Coalescer.settle p outcome (coalescer s)) s) in
      resume_waiters (length (Worker.fetching (worker s1))) p outcome now s1
  end.

(** *** Timer tiers *)

Definition poll_one_match_list (reply : Z → Reply Json) (now : Z)
  (s : ExchangePollingScheduler) (sport : Z) : ExchangePollingScheduler :=
  let s1 := with_providerCalls (providerCalls s ++ [GetMatchList sport]) s in
  match reply sport with
  | Returned data =>
      if truthy data
      then with_cache
             (InMemory.set (EXCHANGE_CACHE_KEYS.matchList sport) data
                           (Some EXCHANGE_CACHE_TTL.MATCH_LIST) now (cache s1)) s1
      else s1
  | Threw _ => s1
  end.

Definition pollMatchLists (reply : Z → Reply Json) (now : Z)
  (s : ExchangePollingScheduler) : ExchangePollingScheduler :=
  foldl (poll_one_match_list reply now) s POLL_SPORT_IDS.

Definition pollTopEvents (reply : Reply (list Json)) (now : Z)
  (s : ExchangePollingScheduler) : ExchangePollingScheduler :=
  let s1 := with_providerCalls (providerCalls s ++ [GetTopEvents]) s in
  match reply with
  | Returned events =>
      if bool_decide (0 < length events)%nat
      then with_cache
             (InMemory.set EXCHANGE_CACHE_KEYS.topEvents (JArr events)
                           (Some EXCHANGE_CACHE_TTL.TOP_EVENTS) now (cache s1)) s1
      else s1
  | Threw _ => s1
  end.

Definition pollBanners (reply : Reply Json) (now : Z)
  (s : ExchangePollingScheduler) : ExchangePollingScheduler :=
  let s1 := with_providerCalls (providerCalls s ++ [GetBanners]) s in
  match reply with
  | Returned data =>
      if truthy data
      then with_cache
             (InMemory.set EXCHANGE_CACHE_KEYS.banners data
                           (Some EXCHANGE_CACHE_TTL.BANNERS) now (cache s1)) s1
      else s1
  | Threw _ => s1
  end.

Definition pollSidebar (reply : Reply Json) (now : Z)
  (s : ExchangePollingScheduler) : ExchangePollingScheduler :=
  let s1 := with_providerCalls (providerCalls s ++ [GetSidebarTree]) s in
  match reply with
  | Returned tree =>
      if truthy tree
      then with_cache
             (InMemory.set EXCHANGE_CACHE_KEYS.sidebar tree
                           (Some EXCHANGE_CACHE_TTL.SIDEBAR) now (cache s1)) s1
      else s1
  | Threw _ => s1
  end.

Definition bootstrapOnce (r : BootstrapReplies) (now : Z)
  (s : ExchangePollingScheduler) : ExchangePollingScheduler :=
  let s0 := with_providerCalls (providerCalls s ++ [GetAllSports]) s in
  let s1 :=
    match r_sports r with
    | Returned sports =>
        if bool_decide (0 < length sports)%nat
        then with_cache
               (InMemory.set EXCHANGE_CACHE_KEYS.allSports (JArr sports)
                             (Some EXCHANGE_CACHE_TTL.SPORTS) now (cache s0)) s0
        else s0
    | Threw _ => s0
    end in
  let s2 := pollMatchLists (r_matchList r) now s1 in
  pollSidebar (r_sidebar r) now
    (pollBanners (r_banners r) now (pollTopEvents (r_topEvents r) now s2)).

(** The odds tier on the in-memory cache.  The promises that
    [getHotGmids] awaits on [InMemoryCacheService] are settled when they are
    made, so the tick resumes within its own turn of the event loop, before
    any other timer or I/O callback: there a tick is one transition.  On a
    cache service that answers in a later turn ([RedisCacheService]) the
    tick is suspended between the guard and the flag:
    [pollHotGmidOdds_enter] and [pollHotGmidOdds_resume] below.  Neither
    service lets [keys] or [get] throw and [emit] does not throw, so the
    [catch] clause of the source is not entered. *)
Definition pollHotGmidOdds (now : Z) (s : ExchangePollingScheduler)
  : ExchangePollingScheduler * list (Worker.Emitted HotGmidEntry) :=
  if oddsPollingActive s then (s, [])
  else
    let '(hotEntries, c') := getHotGmids now (cache s) in
    let s1 := with_cache c' s in
    if bool_decide (length hotEntries = 0%nat) then (s1, [])
    else
      let s2 := with_oddsPollingActive true s1 in
      let '(w', co', out) :=
        Worker.emit_FETCH_ODDS launch hotEntries (worker s2) (coalescer s2) in
      (deliver out (with_worker w' (with_coalescer co' s2)), out).

(** *** Lifecycle *)

Definition setInterval (callback : Callback) (s : ExchangePollingScheduler)
  : nat * ExchangePollingScheduler :=
  let h := nextTimer s in
  (h, mkScheduler (config s) (worker s) (coalescer s) (cache s) (started s)
                  (oddsPollingActive s) (oddsTimer s) (matchListTimer s)
                  (topEventsTimer s) (bannersTimer s) (sidebarTimer s)
                  (<[h := callback]> (timers s)) (S h) (providerCalls s)).

(** [if (handle) clearInterval(handle)] *)
Definition clearInterval (handle : option nat) (s : ExchangePollingScheduler)
  : ExchangePollingScheduler :=
  match handle with
  | Some h => with_timers (delete h (timers s)) s
  | None => s
  end.

Definition start (r : BootstrapReplies) (now : Z) (s : ExchangePollingScheduler)
  : ExchangePollingScheduler :=
  if started s then s
  else
    let s := with_started true s in
    let s := bootstrapOnce r now s in
    let '(h, s) := setInterval PollHotGmidOdds s in
    let s := with_oddsTimer (Some h) s in
    let '(h, s) := setInterval PollMatchLists s in
    let s := with_matchListTimer (Some h) s in
    let '(h, s) := setInterval PollTopEvents s in
    let s := with_topEventsTimer (Some h) s in
    let '(h, s) := setInterval PollBanners s in
    let s := with_bannersTimer (Some h) s in
    let '(h, s) := setInterval PollSidebar s in
    with_sidebarTimer (Some h) s.

Definition stop (s : ExchangePollingScheduler) : ExchangePollingScheduler :=
  if negb (started s) then s
  else
    let s := clearInterval (oddsTimer s) s in
    let s := clearInterval (matchListTimer s) s in
    let s := clearInterval (topEventsTimer s) s in
    let s := clearInterval (bannersTimer s) s in
    let s := clearInterval (sidebarTimer s) s in
    let s := with_worker (Worker.removeAllListeners (worker s)) s in
    with_started false s.

Definition getStats (s : ExchangePollingScheduler)
  : bool * bool * nat * (Z * nat * bool) :=
  (started s, oddsPollingActive s, Coalescer.activeCount (coalescer s),
   Worker.getStats (worker s)).

(** *** The scheduler in its process

    What can happen to a scheduler: its public methods are called, a timer
    it armed fires, the provider answers, and the other holders of the cache
    (routes, use cases) use it. *)
Inductive Event : Type :=
| Start (r : BootstrapReplies)
| Stop
| OddsTick
| MatchListTick (reply : Z → Reply Json)
| TopEventsTick (reply : Reply (list Json))
| BannersTick (reply : Reply Json)
| SidebarTick (reply : Reply Json)
| MarkGmidHot (g : string) (sport : Z)
| GetCoalescedOdds (g : string) (sport : Z)
| OddsReply (p : nat) (reply : Reply (option (list Json)))
| CacheGet (key : string)
| CacheSet (key : string) (v : Json) (ttl : option Z)
| CacheDel (key : string)
| CacheFlush.

(** The interval behind a recorded handle is armed. *)
Definition armed (handle : option nat) (s : ExchangePollingScheduler) : bool :=
  match handle with
  | Some h => bool_decide (is_Some (timers s !! h))
  | None => false
  end.

(** Some armed interval runs [callback]: the runtime fires an interval
    until [clearInterval] is called on its handle, whether or not a field of
    the scheduler still records that handle. *)
Definition fires (callback : Callback) (s : ExchangePollingScheduler) : bool :=
  bool_decide (callback ∈ (map_to_list (timers s)).*2).

(** The handles that the five fields record, and the callback that the
    interval behind a recorded handle runs. *)
Definition recorded (s : ExchangePollingScheduler) : list (option nat) :=
  [oddsTimer s; matchListTimer s; topEventsTimer s; bannersTimer s; sidebarTimer s].

Definition runs (handle : option nat) (s : ExchangePollingScheduler)
  : option Callback :=
  handle ≫= λ h, timers s !! h.

(** What [start] and [stop] work on. *)
Definition lifecycle (s : ExchangePollingScheduler)
  : bool * list (option nat) * gmap nat Callback * nat :=
  (started s, recorded s, timers s, nextTimer s).

(** Every armed interval is recorded in a field, and none is armed while
    the scheduler is stopped. *)
Definition intervals_recorded (s : ExchangePollingScheduler) : Prop :=
  (∀ h, is_Some (timers s !! h) → Some h ∈ recorded s) ∧
  (started s = false → timers s = ∅).

(** One event at time [te.1]: the next state, and what the worker emitted
    on the way. *)
Definition step_out (s : ExchangePollingScheduler) (te : Z * Event)
  : ExchangePollingScheduler * list (Worker.Emitted HotGmidEntry) :=
  let now := te.1 in
  match te.2 with
  | Start r => (start r now s, [])
  | Stop => (stop s, [])
  | OddsTick => if fires PollHotGmidOdds s then pollHotGmidOdds now s else (s, [])
  | MatchListTick reply =>
      (if fires PollMatchLists s then pollMatchLists reply now s else s, [])
  | TopEventsTick reply =>
      (if fires PollTopEvents s then pollTopEvents reply now s else s, [])
  | BannersTick reply =>
      (if fires PollBanners s then pollBanners reply now s else s, [])
  | SidebarTick reply =>
      (if fires PollSidebar s then pollSidebar reply now s else s, [])
  | MarkGmidHot g sport => (markGmidHot g sport now s, [])
  | GetCoalescedOdds g sport => ((getCoalescedOdds g sport s).2, [])
  | OddsReply p reply => oddsReply p reply now s
  | CacheGet key => (with_cache (InMemory.get key now (cache s)).2 s, [])
  | CacheSet key v ttl => (with_cache (InMemory.set key v ttl now (cache s)) s, [])
  | CacheDel key => (with_cache (InMemory.del key (cache s)) s, [])
  | CacheFlush => (with_cache (InMemory.flush (cache s)) s, [])
  end.

Definition step (s : ExchangePollingScheduler) (te : Z * Event)
  : ExchangePollingScheduler :=
  (step_out s te).1.

Definition run (s : ExchangePollingScheduler) (trace : list (Z * Event))
  : ExchangePollingScheduler :=
  foldl step s trace.

(** The number of running [fetchOdds] calls that await promise [p]. *)
Definition waiters (p : nat) (l : list (HotGmidEntry * nat)) : nat :=
  length (List.filter (fun x => Nat.eqb p x.2) l).

(** Promise [p] has been issued and its fetcher is not executing. *)
Definition retired (p : nat) (co : Coalescer.RequestCoalescer Fetcher) : Prop :=
  Coalescer.running co !! p = None ∧ (p < Coalescer.nextPromise co)%nat.

Definition is_plain (f : Fetcher) : bool :=
  match f with
  | PlainOdds _ _ => true
  | CachingOdds _ _ => false
  end.

(** The promises behind which a provider call made by the worker, the
    closure of [fetchOdds], is executing. *)
Definition pool_calls (co : Coalescer.RequestCoalescer Fetcher) : list nat :=
  (map_to_list (filter (fun x => is_plain x.2.2 = true) (Coalescer.running co))).*1.

(** Every provider call of the worker is awaited by a running
    [fetchOdds]. *)
Definition pool_calls_awaited (co : Coalescer.RequestCoalescer Fetcher)
  (l : list (HotGmidEntry * nat)) : Prop :=
  ∀ p, p ∈ pool_calls co → p ∈ l.*2.

(** [s'] is [s] but for the cache and the log of provider calls. *)
Definition polled (s s' : ExchangePollingScheduler) : Prop :=
  s' = with_providerCalls (providerCalls s') (with_cache (cache s') s).

(** [s'] has the worker, the coalescer and the tick flag of [s]. *)
Definition same_pool (s s' : ExchangePollingScheduler) : Prop :=
  worker s' = worker s ∧ coalescer s' = coalescer s ∧
  oddsPollingActive s' = oddsPollingActive s.

(** While entries of a tick are queued or being fetched, the flag is up. *)
Definition tick_guarded (s : ExchangePollingScheduler) : Prop :=
  Worker.counted (worker s) ∧
  (Worker.busy (worker s) → oddsPollingActive s = true).

(** *** [start] across its [await]

    [start] raises [started], awaits [bootstrapOnce] and only then arms the
    timers; other callbacks of the process run while it waits.
    [start_enter] says whether the call goes on to the bootstrap. *)
Definition start_enter (s : ExchangePollingScheduler)
  : bool * ExchangePollingScheduler :=
  if started s then (false, s) else (true, with_started true s).

Definition start_resume (r : BootstrapReplies) (now : Z)
  (s : ExchangePollingScheduler) : ExchangePollingScheduler :=
  let s := bootstrapOnce r now s in
  let '(h, s) := setInterval PollHotGmidOdds s in
  let s := with_oddsTimer (Some h) s in
  let '(h, s) := setInterval PollMatchLists s in
  let s := with_matchListTimer (Some h) s in
  let '(h, s) := setInterval PollTopEvents s in
  let s := with_topEventsTimer (Some h) s in
  let '(h, s) := setInterval PollBanners s in
  let s := with_bannersTimer (Some h) s in
  let '(h, s) := setInterval PollSidebar s in
  with_sidebarTimer (Some h) s.

(** *** The odds tick across its [await]

    [pollHotGmidOdds] reads [oddsPollingActive], awaits [getHotGmids] and
    raises the flag only once the hot entries are there.
    [pollHotGmidOdds_enter] says whether the tick goes on to ask the cache;
    [pollHotGmidOdds_resume] is the tick from the answer of [getHotGmids]
    on. *)
Definition pollHotGmidOdds_enter (s : ExchangePollingScheduler) : bool :=
  negb (oddsPollingActive s).

Definition pollHotGmidOdds_resume (hotEntries : list HotGmidEntry)
  (s : ExchangePollingScheduler)
  : ExchangePollingScheduler * list (Worker.Emitted HotGmidEntry) :=
  if bool_decide (length hotEntries = 0%nat) then (s, [])
  else
    let s2 := with_oddsPollingActive true s in
    let '(w', co', out) :=
      Worker.emit_FETCH_ODDS launch hotEntries (worker s2) (coalescer s2) in
    (deliver out (with_worker w' (with_coalescer co' s2)), out).

(** The scheduler on a cache service that answers in a later turn of the
    event loop.  Beside what [Event] lists, a turn is an odds tick up to
    its [await], or the resumption of the oldest suspended tick with what
    [getHotGmids] answered.  The state carries the number of suspended
    ticks. *)
Inductive Turn : Type :=
| Sync (e : Event)
| OddsTickEnter
| OddsTickResume (hotEntries : list HotGmidEntry).

Definition turn_out (st : ExchangePollingScheduler * nat) (te : Z * Turn)
  : (ExchangePollingScheduler * nat) * list (Worker.Emitted HotGmidEntry) :=
  match te.2 with
  | Sync e => let '(s', out) := step_out st.1 (te.1, e) in ((s', st.2), out)
  | OddsTickEnter =>
      if fires PollHotGmidOdds st.1 && pollHotGmidOdds_enter st.1
      then ((st.1, S st.2), [])
      else (st, [])
  | OddsTickResume hotEntries =>
      match st.2 with
      | O => (st, [])
      | S n =>
          let '(s', out) := pollHotGmidOdds_resume hotEntries st.1 in
          ((s', n), out)
      end
  end.

Definition turn (st : ExchangePollingScheduler * nat) (te : Z * Turn)
  : ExchangePollingScheduler * nat :=
  (turn_out st te).1.

Definition turns (st : ExchangePollingScheduler * nat) (trace : list (Z * Turn))
  : ExchangePollingScheduler * nat :=
  foldl turn st trace.

(** The entries that the worker holds, running ones first. *)
Definition held (w : Worker.OddsFetchWorker HotGmidEntry) : list HotGmidEntry :=
  (Worker.fetching w).*1 ++ Worker.queue w.

(** The running [fetchOdds] calls of the worker each await a provider
    call that is still executing. *)
Definition slots_live (s : ExchangePollingScheduler) : Prop :=
  ∀ i e p, Worker.fetching (worker s) !! i = Some (e, p) →
           is_Some (Coalescer.running (coalescer s) !! p).

End Exchange.

(** ** [DataPrefetchScheduler] (data-prefetch.scheduler.ts) *)

Module Prefetch.

Definition HOT_MATCH_TTL : Z := 30.

Definition HOT_KEY_PREFIX : string := "hot:match:".

Definition PREFETCH_SPORTS : list string := ["cricket"; "soccer"; "tennis"].

(** [CACHE_TTL.LIVE_ODDS] and [POLL_INTERVAL] of shared/constants. *)
Definition CACHE_TTL_LIVE_ODDS : Z := 1.
Definition POLL_INTERVAL_LIVE_ODDS : Z := 1000.
Definition POLL_INTERVAL_MATCH_LIST : Z := 50000.

Module PREFETCH_KEYS.
Definition matchList (sport : string) : string := "prefetch:matches:" +:+ sport.
Definition matchOdds (gmid : string) : string := "prefetch:odds:" +:+ gmid.
Definition hotMatch (matchId : string) : string := HOT_KEY_PREFIX +:+ matchId.
Definition hotMatchPattern : string := HOT_KEY_PREFIX +:+ "*".
Definition liveMatches (sport : string) : string := "live_matches:" +:+ sport.
End PREFETCH_KEYS.

(** [fetchOdds] up to its first [await]: a call of its own, numbered. *)
Definition launch (matchId : string) (n : nat) : nat * nat := (n, S n).

Record DataPrefetchScheduler : Type := mkScheduler {
  (* the names of the registered providers, in the order of the [Map] *)
  providers : list string;
  worker : Worker.OddsFetchWorker string;
  (* runtime: the number of [fetchOdds] calls started so far *)
  fetches : nat;
  cache : InMemory.InMemoryCacheService;
  started : bool;
  oddsTimer : option nat;
  oddsPollingActive : bool;
  (* runtime: the interval timers that are armed, and the next handle *)
  timers : gset nat;
  nextTimer : nat
}.

Definition with_worker (x : Worker.OddsFetchWorker string) (s : DataPrefetchScheduler)
  : DataPrefetchScheduler :=
  mkScheduler (providers s) x (fetches s) (cache s) (started s) (oddsTimer s) (oddsPollingActive s) (timers s) (nextTimer s).

Definition with_cache (x : InMemory.InMemoryCacheService) (s : DataPrefetchScheduler)
  : DataPrefetchScheduler :=
  mkScheduler (providers s) (worker s) (fetches s) x (started s) (oddsTimer s) (oddsPollingActive s) (timers s) (nextTimer s).

Definition with_started (x : bool) (s : DataPrefetchScheduler)
  : DataPrefetchScheduler :=
  mkScheduler (providers s) (worker s) (fetches s) (cache s) x (oddsTimer s) (oddsPollingActive s) (timers s) (nextTimer s).

Definition with_oddsTimer (x : option nat) (s : DataPrefetchScheduler)
  : DataPrefetchScheduler :=
  mkScheduler (providers s) (worker s) (fetches s) (cache s) (started s) x (oddsPollingActive s) (timers s) (nextTimer s).

Definition with_oddsPollingActive (x : bool) (s : DataPrefetchScheduler)
  : DataPrefetchScheduler :=
  mkScheduler (providers s) (worker s) (fetches s) (cache s) (started s) (oddsTimer s) x (timers s) (nextTimer s).

Definition with_timers (x : gset nat) (s : DataPrefetchScheduler)
  : DataPrefetchScheduler :=
  mkScheduler (providers s) (worker s) (fetches s) (cache s) (started s) (oddsTimer s) (oddsPollingActive s) x (nextTimer s).

Definition create (names : list string) (c : InMemory.InMemoryCacheService)
  : DataPrefetchScheduler :=
  mkScheduler names Worker.idle 0%nat c false None false ∅ 0%nat.

(** [fetchOdds] from the providers' answers: the first provider with a
    non-empty list of markets wins, a throwing one is skipped. *)
Fixpoint fetchOdds_result (names : list string) (reply : string → Reply (list Json))
  (matchId : string) (now : Z) (c : InMemory.InMemoryCacheService)
  : bool * InMemory.InMemoryCacheService :=
  match names with
  | [] => (false, c)
  | name :: rest =>
      match reply name with
      | Returned markets =>
          if bool_decide (0 < length markets)%nat
          then (true, InMemory.set (PREFETCH_KEYS.matchOdds matchId) (JArr markets)
                                   (Some (CACHE_TTL_LIVE_ODDS * 3)) now c)
          else fetchOdds_result rest reply matchId now c
      | Threw _ => fetchOdds_result rest reply matchId now c
      end
  end.

(** *** Hot match tracking *)

Definition markMatchHot (matchId : string) (now : Z) (s : DataPrefetchScheduler)
  : DataPrefetchScheduler :=
  with_cache (InMemory.set (PREFETCH_KEYS.hotMatch matchId) (JNum now)
                           (Some HOT_MATCH_TTL) now (cache s)) s.

(** As in [Exchange.getHotGmids], the [default] is never taken. *)
Definition getHotMatchIds (c : InMemory.InMemoryCacheService) : list string :=
  List.map (replace_first HOT_KEY_PREFIX EmptyString)
           (default [] (InMemory.keys PREFETCH_KEYS.hotMatchPattern c)).

(** *** Match list prefetch *)

Fixpoint collect_matches (names : list string) (reply : string → Reply (list Json))
  (allMatches : list Json) : list Json :=
  match names with
  | [] => allMatches
  | name :: rest =>
      match reply name with
      | Returned matches => collect_matches rest reply (allMatches ++ matches)
      | Threw _ => collect_matches rest reply allMatches
      end
  end.

(** [Math.ceil((POLL_INTERVAL.MATCH_LIST / 1000) * 2)] *)
Definition matchListTtl : Z := (POLL_INTERVAL_MATCH_LIST * 2 + 999) / 1000.

Definition prefetchMatchList (reply : string → string → Reply (list Json))
  (now : Z) (s : DataPrefetchScheduler) (sport : string) : DataPrefetchScheduler :=
  let allMatches := collect_matches (providers s) (fun name => reply name sport) [] in
  with_cache (InMemory.set (PREFETCH_KEYS.liveMatches sport) (JArr allMatches)
                           (Some matchListTtl) now (cache s)) s.

Definition prefetchAllMatchLists (reply : string → string → Reply (list Json))
  (now : Z) (s : DataPrefetchScheduler) : DataPrefetchScheduler :=
  foldl (prefetchMatchList reply now) s PREFETCH_SPORTS.

(** *** Lifecycle *)

Definition start (reply : string → string → Reply (list Json)) (now : Z)
  (s : DataPrefetchScheduler) : DataPrefetchScheduler :=
  if started s then s
  else
    let s := with_started true s in
    let s := prefetchAllMatchLists reply now s in
    let h := nextTimer s in
    mkScheduler (providers s) (worker s) (fetches s) (cache s) (started s)
                (Some h) (oddsPollingActive s) ({[h]} ∪ timers s) (S h).

Definition stop (s : DataPrefetchScheduler) : DataPrefetchScheduler :=
  if negb (started s) then s
  else
    let s := match oddsTimer s with
             | Some h => with_timers (timers s ∖ {[h]}) s
             | None => s
             end in
    let s := with_worker (Worker.removeAllListeners (worker s)) s in
    with_started false s.

Definition getStats (s : DataPrefetchScheduler) : bool * nat * (Z * nat * bool) :=
  (started s, 0%nat, Worker.getStats (worker s)).

(** *** Odds polling through the worker *)

Definition on_emitted (s : DataPrefetchScheduler) (ev : Worker.Emitted string)
  : DataPrefetchScheduler :=
  if Worker.listening (worker s) then
    match ev with
    | Worker.TICK_COMPLETE => with_oddsPollingActive false s
    | Worker.FETCH_COMPLETE _ _ => s
    end
  else s.

Definition with_pool (wr : Worker.OddsFetchWorker string * nat)
  (s : DataPrefetchScheduler) : DataPrefetchScheduler :=
  mkScheduler (providers s) wr.1 wr.2 (cache s) (started s) (oddsTimer s)
              (oddsPollingActive s) (timers s) (nextTimer s).

(** The odds tier on the in-memory cache, where [getHotMatchIds] resumes
    within the tick's own turn of the event loop: a tick is one
    transition.  [keys] does not throw on either cache service, so the
    [catch] clause is not entered. *)
Definition pollHotMatchOdds (s : DataPrefetchScheduler)
  : DataPrefetchScheduler * list (Worker.Emitted string) :=
  if oddsPollingActive s then (s, [])
  else
    let hotIds := getHotMatchIds (cache s) in
    if bool_decide (length hotIds = 0%nat) then (s, [])
    else
      let s1 := with_oddsPollingActive true s in
      let '(w', n', out) :=
        Worker.emit_FETCH_ODDS launch hotIds (worker s1) (fetches s1) in
      (foldl on_emitted (with_pool (w', n') s1) out, out).

(** The [i]-th running [fetchOdds] has heard from the providers. *)
Definition fetchDone (i : nat) (reply : string → Reply (list Json)) (now : Z)
  (s : DataPrefetchScheduler)
  : DataPrefetchScheduler * list (Worker.Emitted string) :=
  match Worker.fetching (worker s) !! i with
  | None => (s, [])
  | Some (matchId, _) =>
      let '(success, c') :=
        fetchOdds_result (providers s) reply matchId now (cache s) in
      let '(w', n', out) :=
        Worker.finish launch i success (worker s) (fetches s) in
      (foldl on_emitted (with_pool (w', n') (with_cache c' s)) out, out)
  end.

(** *** The scheduler in its process *)

Inductive Event : Type :=
| Start (reply : string → string → Reply (list Json))
| Stop
| OddsTick
| FetchDone (i : nat) (reply : string → Reply (list Json))
| MarkMatchHot (matchId : string).

(** Some interval is armed.  Every interval of this scheduler runs
    [pollHotMatchOdds], and the runtime fires it until [clearInterval] is
    called on its handle, whether or not [oddsTimer] still records it. *)
Definition armed (s : DataPrefetchScheduler) : bool :=
  bool_decide (timers s ≠ ∅).

Definition step_out (s : DataPrefetchScheduler) (te : Z * Event)
  : DataPrefetchScheduler * list (Worker.Emitted string) :=
  let now := te.1 in
  match te.2 with
  | Start reply => (start reply now s, [])
  | Stop => (stop s, [])
  | OddsTick => if armed s then pollHotMatchOdds s else (s, [])
  | FetchDone i reply => fetchDone i reply now s
  | MarkMatchHot matchId => (markMatchHot matchId now s, [])
  end.

Definition step (s : DataPrefetchScheduler) (te : Z * Event) : DataPrefetchScheduler :=
  (step_out s te).1.

Definition run (s : DataPrefetchScheduler) (trace : list (Z * Event))
  : DataPrefetchScheduler :=
  foldl step s trace.

(** *** The odds tick across its [await]

    [pollHotMatchOdds] reads [oddsPollingActive], awaits [getHotMatchIds]
    and raises the flag only once the ids are there.  With the in-memory
    cache the tick resumes within its own turn ([pollHotMatchOdds] above);
    on a cache service that answers in a later turn other callbacks run in
    between.  [pollHotMatchOdds_enter] says whether the tick goes on to ask
    the cache; [pollHotMatchOdds_resume] is the tick from the answer on. *)
Definition pollHotMatchOdds_enter (s : DataPrefetchScheduler) : bool :=
  negb (oddsPollingActive s).

Definition pollHotMatchOdds_resume (hotIds : list string) (s : DataPrefetchScheduler)
  : DataPrefetchScheduler * list (Worker.Emitted string) :=
  if bool_decide (length hotIds = 0%nat) then (s, [])
  else
    let s1 := with_oddsPollingActive true s in
    let '(w', n', out) :=
      Worker.emit_FETCH_ODDS launch hotIds (worker s1) (fetches s1) in
    (foldl on_emitted (with_pool (w', n') s1) out, out).

End Prefetch.

(** ** [ExchangeDataProvider] (exchange.provider.ts)

    A method awaits one call of the HTTP client and maps the parsed body;
    it is modelled from the client's answer on.  Every method catches what
    the client throws.  Reading a property of a body that is [null] throws
    inside the [try]; the [catch] then returns what the guard returns, which
    is also what [property] makes of such a body. *)

Module ExchangeProvider.

Definition getMatchList (response : Reply Json) : Json :=
  match response with
  | Returned body =>
      if negb (truthy (property "success" body)) || negb (truthy (property "data" body))
      then JNull
      else property "data" body
  | Threw _ => JNull
  end.

(** [Array.isArray(response.data) ? response.data : []] behind the guard. *)
Definition getMatchOdds (response : Reply Json) : option (list Json) :=
  match response with
  | Returned body =>
      if negb (truthy (property "success" body)) || negb (truthy (property "data" body))
      then None
      else match property "data" body with
           | JArr markets => Some markets
           | _ => Some []
           end
  | Threw _ => None
  end.

Definition getMatchDetails (response : Reply Json) : Json :=
  match response with
  | Returned body =>
      if negb (truthy (property "success" body)) || negb (truthy (property "data" body))
      then JNull
      else property "data" body
  | Threw _ => JNull
  end.

Definition getLiveTvScore (response : Reply Json) : Json :=
  match response with
  | Returned body =>
      if truthy (property "status" body) && truthy (property "data" body)
      then property "data" body
      else JNull
  | Threw _ => JNull
  end.

Definition getSidebarTree (response : Reply Json) : Json :=
  match response with
  | Returned body =>
      if negb (truthy (property "success" body)) || negb (truthy (property "data" body))
      then JNull
      else property "data" body
  | Threw _ => JNull
  end.

Definition getBanners (response : Reply Json) : Json :=
  match response with
  | Returned body =>
      if negb (truthy (property "status" body)) || negb (truthy (property "data" body))
      then JNull
      else property "data" body
  | Threw _ => JNull
  end.

(** [response.data.tv_url || null] behind the guard. *)
Definition getVirtualTv (response : Reply Json) : Json :=
  match response with
  | Returned body =>
      if truthy (property "status" body) && truthy (property "data" body)
      then let tv_url := property "tv_url" (property "data" body) in
           if truthy tv_url then tv_url else JNull
      else JNull
  | Threw _ => JNull
  end.

End ExchangeProvider.

(** ** The exchange routes (exchange.routes.ts)

    A handler is modelled from the parsed request on: [sid] is the integer
    that [Number(query.sid || 4)] yields.  It answers within the turn, or
    waits for the provider and answers in a second step.  The routes share
    the cache of the scheduler. *)

Module ExchangeRoutes.
Import Exchange.

(** [{ success: true, data }], or [{ success: false, error }] under status
    400 or 500. *)
Inductive Response : Type :=
| Success (data : Json)
| BadRequest (error : string)
| ServerError (error : string).

Inductive Progress (A : Type) : Type :=
| Answered (r : Response)
| Waiting (a : A).
Arguments Answered {A} r.
Arguments Waiting {A} a.

(** [const cached = await cache.get(key);
     if (cached) return { success: true, data: cached };] *)
Definition serve_cached (key : string) (now : Z) (c : InMemory.InMemoryCacheService)
  : Progress unit * InMemory.InMemoryCacheService :=
  let '(cached, c') := InMemory.get key now c in
  if truthy cached then (Answered (Success cached), c') else (Waiting tt, c').

(** [data ?? fallback] *)
Definition nullish_or (fallback data : Json) : Json :=
  match data with
  | JNull => fallback
  | _ => data
  end.

(** [if (data) await cache.set(key, data, ttl);
     return { success: true, data: data ?? fallback };], and the [catch]. *)
Definition store_truthy (key : string) (ttl : Z) (fallback : Json) (error : string)
  (reply : Reply Json) (now : Z) (c : InMemory.InMemoryCacheService)
  : Response * InMemory.InMemoryCacheService :=
  match reply with
  | Returned data =>
      (Success (nullish_or fallback data),
       if truthy data then InMemory.set key data (Some ttl) now c else c)
  | Threw _ => (ServerError error, c)
  end.

(** [if (data.length > 0) await cache.set(key, data, ttl);
     return { success: true, data };], and the [catch]. *)
Definition store_non_empty (key : string) (ttl : Z) (error : string)
  (reply : Reply (list Json)) (now : Z) (c : InMemory.InMemoryCacheService)
  : Response * InMemory.InMemoryCacheService :=
  match reply with
  | Returned data =>
      (Success (JArr data),
       if bool_decide (0 < length data)%nat
       then InMemory.set key (JArr data) (Some ttl) now c
       else c)
  | Threw _ => (ServerError error, c)
  end.

(** [GET /sports] *)
Definition sports (now : Z) (c : InMemory.InMemoryCacheService) :=
  serve_cached EXCHANGE_CACHE_KEYS.allSports now c.

Definition sports_reply (reply : Reply (list Json)) (now : Z)
  (c : InMemory.InMemoryCacheService) :=
  store_non_empty EXCHANGE_CACHE_KEYS.allSports EXCHANGE_CACHE_TTL.SPORTS
                  "Failed to fetch sports" reply now c.

(** [GET /matches?sid=]; [!sid] rejects 0. *)
Definition matches (sid : Z) (now : Z) (c : InMemory.InMemoryCacheService) :=
  if sid =? 0
  then (Answered (BadRequest "Missing or invalid sid parameter"), c)
  else serve_cached (EXCHANGE_CACHE_KEYS.matchList sid) now c.

Definition matches_reply (sid : Z) (reply : Reply Json) (now : Z)
  (c : InMemory.InMemoryCacheService) :=
  store_truthy (EXCHANGE_CACHE_KEYS.matchList sid) EXCHANGE_CACHE_TTL.MATCH_LIST
               (JObj [("t1", JArr []); ("t2", JArr [])])
               "Failed to fetch matches" reply now c.

(** [GET /odds/:gmid?sid=], up to the promise of [getCoalescedOdds]. *)
Definition odds (g : string) (sport : Z) (now : Z) (s : ExchangePollingScheduler)
  : Progress nat * ExchangePollingScheduler :=
  let '(cached, c') := InMemory.get (EXCHANGE_CACHE_KEYS.matchOdds g) now (cache s) in
  let s1 := with_cache c' s in
  if truthy cached
  then (Answered (Success cached), markGmidHot g sport now s1)
  else let '(p, s2) := getCoalescedOdds g sport s1 in (Waiting p, s2).

(** ... and from the settlement of that promise on. *)
Definition odds_settled (g : string) (sport : Z) (outcome : Settlement) (now : Z)
  (s : ExchangePollingScheduler) : Response * ExchangePollingScheduler :=
  match outcome with
  | Fulfilled data =>
      (Success (nullish_or (JArr []) data), markGmidHot g sport now s)
  | Rejected _ => (ServerError "Failed to fetch odds", s)
  end.

(** [GET /match/details?gmid=]; [!gmid] rejects the empty string. *)
Definition match_details (g : string) (now : Z) (c : InMemory.InMemoryCacheService) :=
  if String.eqb g EmptyString
  then (Answered (BadRequest "Missing gmid"), c)
  else serve_cached (EXCHANGE_CACHE_KEYS.matchDetails g) now c.

Definition match_details_reply (g : string) (reply : Reply Json) (now : Z)
  (c : InMemory.InMemoryCacheService) :=
  store_truthy (EXCHANGE_CACHE_KEYS.matchDetails g) EXCHANGE_CACHE_TTL.ON_DEMAND
               (JArr []) "Failed to fetch match details" reply now c.

(** [GET /match/tv?gmid=] *)
Definition match_tv (g : string) (now : Z) (c : InMemory.InMemoryCacheService) :=
  if String.eqb g EmptyString
  then (Answered (BadRequest "Missing gmid"), c)
  else serve_cached (EXCHANGE_CACHE_KEYS.liveTvScore g) now c.

Definition match_tv_reply (g : string) (reply : Reply Json) (now : Z)
  (c : InMemory.InMemoryCacheService) :=
  store_truthy (EXCHANGE_CACHE_KEYS.liveTvScore g) EXCHANGE_CACHE_TTL.ON_DEMAND
               JNull "Failed to fetch TV score" reply now c.

(** [GET /sidebar] *)
Definition sidebar (now : Z) (c : InMemory.InMemoryCacheService) :=
  serve_cached EXCHANGE_CACHE_KEYS.sidebar now c.

Definition sidebar_reply (reply : Reply Json) (now : Z)
  (c : InMemory.InMemoryCacheService) :=
  store_truthy EXCHANGE_CACHE_KEYS.sidebar EXCHANGE_CACHE_TTL.SIDEBAR
               JNull "Failed to fetch sidebar" reply now c.

(** [GET /top-events] *)
Definition top_events (now : Z) (c : InMemory.InMemoryCacheService) :=
  serve_cached EXCHANGE_CACHE_KEYS.topEvents now c.

Definition top_events_reply (reply : Reply (list Json)) (now : Z)
  (c : InMemory.InMemoryCacheService) :=
  store_non_empty EXCHANGE_CACHE_KEYS.topEvents EXCHANGE_CACHE_TTL.TOP_EVENTS
                  "Failed to fetch top events" reply now c.

(** [GET /banner] *)
Definition banner (now : Z) (c : InMemory.InMemoryCacheService) :=
  serve_cached EXCHANGE_CACHE_KEYS.banners now c.

Definition banner_reply (reply : Reply Json) (now : Z)
  (c : InMemory.InMemoryCacheService) :=
  store_truthy EXCHANGE_CACHE_KEYS.banners EXCHANGE_CACHE_TTL.BANNERS
               JNull "Failed to fetch banners" reply now c.

(** [GET /virtual/tv?gmid=]: what is stored and answered is [{ tv_url }]. *)
Definition virtual_tv (g : string) (now : Z) (c : InMemory.InMemoryCacheService) :=
  if String.eqb g EmptyString
  then (Answered (BadRequest "Missing gmid"), c)
  else serve_cached (EXCHANGE_CACHE_KEYS.virtualTv g) now c.

Definition virtual_tv_reply (g : string) (reply : Reply Json) (now : Z)
  (c : InMemory.InMemoryCacheService) : Response * InMemory.InMemoryCacheService :=
  match reply with
  | Returned tvUrl =>
      if truthy tvUrl
      then (Success (JObj [("tv_url", tvUrl)]),
            InMemory.set (EXCHANGE_CACHE_KEYS.virtualTv g) (JObj [("tv_url", tvUrl)])
                         (Some EXCHANGE_CACHE_TTL.ON_DEMAND) now c)
      else (Success JNull, c)
  | Threw _ => (ServerError "Failed to fetch virtual TV", c)
  end.

(** [GET /stats]: the scheduler's figures, the hot entries and their
    number. *)
Definition stats (now : Z) (s : ExchangePollingScheduler)
  : (bool * bool * nat * (Z * nat * bool)) * list HotGmidEntry * nat
    * ExchangePollingScheduler :=
  let figures := getStats s in
  let '(hotGmids, c') := getHotGmids now (cache s) in
  (figures, hotGmids, length hotGmids, with_cache c' s).

End ExchangeRoutes.

(** ** The use cases (application/use-cases/match)

    The repositories, the entities and the mapper are outside the model:
    a use case is given what the repositories answer, and the mapper as a
    function.  [hotMarker] is the prefetch scheduler, whose cache the use
    cases share. *)

Module UseCases.
Import Prefetch.

(** [CACHE_TTL] of shared/constants. *)
Definition CACHE_TTL_LIVE_ODDS : Z := 1.
Definition CACHE_TTL_MARKET_DATA : Z := 5.
Definition CACHE_TTL_EVENT_DETAIL : Z := 30.

(** [Result<T>] of shared/types/result. *)
Inductive Result (A : Type) : Type :=
| Ok (value : A)
| Err (error : string).
Arguments Ok {A} value.
Arguments Err {A} error.

(** What [execute] resolves to: [success(dto)], or [failure] with the
    repository's error, [notFound] or [internal]. *)
Inductive Outcome : Type :=
| Found (dto : Json)
| Failed (error : string)
| NotFound (matchId : string)
| Internal (reason : string).

Definition detailKey (matchId : string) : string := "match_detail:" +:+ matchId.

(** [`live_matches:${sport ?? "all"}`] *)
Definition liveKey (sport : option string) : string :=
  "live_matches:" +:+ default "all" sport.

Section GetMatchDetail.
Context {Match Market : Type}.
Variable isLive : Match → bool.
Variable toDetailResponseDTO : Match → list Market → Json.

(** [GetMatchDetailUseCase.execute] up to the call of the repository:
    [Some cached] on a hit, which renews the hot mark. *)
Definition detail_enter (matchId : string) (now : Z) (s : DataPrefetchScheduler)
  : option Json * DataPrefetchScheduler :=
  let '(cached, c') := InMemory.get (detailKey matchId) now (cache s) in
  let s1 := with_cache c' s in
  if truthy cached then (Some cached, markMatchHot matchId now s1) else (None, s1).

(** ... and from the answers of the two repositories on; the second is
    asked only when the first has found the match. *)
Definition detail_resume (matchId : string)
  (matchResult : Reply (Result (option Match)))
  (marketsResult : Reply (Result (list Market)))
  (now : Z) (s : DataPrefetchScheduler) : Outcome * DataPrefetchScheduler :=
  match matchResult with
  | Threw reason => (Internal reason, s)
  | Returned (Err error) => (Failed error, s)
  | Returned (Ok None) => (NotFound matchId, s)
  | Returned (Ok (Some found)) =>
      match marketsResult with
      | Threw reason => (Internal reason, s)
      | Returned (Err _) => (Found (toDetailResponseDTO found []), s)
      | Returned (Ok markets) =>
          let dto := toDetailResponseDTO found markets in
          let ttl := if isLive found then CACHE_TTL_MARKET_DATA
                     else CACHE_TTL_EVENT_DETAIL in
          let s1 := with_cache (InMemory.set (detailKey matchId) dto (Some ttl) now
                                             (cache s)) s in
          (Found dto, markMatchHot matchId now s1)
      end
  end.

End GetMatchDetail.

(** [GetLiveMatchesUseCase.execute] up to the promise of [getOrSet]; the
    factory is the closure that asks the repository and maps the result. *)
Definition live_enter (sport : option string) (factory : nat) (now : Z)
  (c : InMemory.InMemoryCacheService)
  : InMemory.Answer * InMemory.InMemoryCacheService :=
  InMemory.getOrSet (liveKey sport) factory (Some CACHE_TTL_LIVE_ODDS) now c.

(** ... and from the settlement of that promise on. *)
Definition live_settled (outcome : Settlement) : Outcome :=
  match outcome with
  | Fulfilled dto => Found dto
  | Rejected reason => Internal reason
  end.

End UseCases.

(* ===================================================================== *)
(** * Part II. Properties                                                 *)
(* ===================================================================== *)

(** ** The in-memory cache *)

#[global] Arguments InMemory.get : simpl never.
#[global] Arguments InMemory.set : simpl never.
#[global] Arguments InMemory.del : simpl never.
#[global] Arguments InMemory.flush : simpl never.
#[global] Arguments InMemory.getOrSet : simpl never.
#[global] Arguments InMemory.coalesce : simpl never.
#[global] Arguments InMemory.settle : simpl never.
#[global] Arguments InMemory.keys : simpl never.

Section InMemoryFacts.
Import InMemory.

Lemma store_with_store st c : store (with_store st c) = st.
Proof. reflexivity. Qed.

Lemma get_result key now c :
  (get key now c).1 =
  match store c !! key with
  | Some e => if staleUntil e <? now then JNull else value e
  | None => JNull
  end.
Proof.
  unfold get. destruct (store c !! key) as [e|]; [|done].
  by destruct (staleUntil e <? now).
Qed.

Lemma get_store key now c k :
  store (get key now c).2 !! k =
  match store c !! key with
  | Some e => if (staleUntil e <? now) && bool_decide (k = key) then None
              else store c !! k
  | None => store c !! k
  end.
Proof.
  unfold get. destruct (store c !! key) as [e|] eqn:He; [|done].
  destruct (staleUntil e <? now); simpl; [|done].
  case_bool_decide as Hk.
  - subst. apply lookup_delete_eq.
  - by apply lookup_delete_ne.
Qed.

Lemma set_lookup key v ttl now c k :
  store (set key v ttl now c) !! k =
  if bool_decide (k = key)
  then Some (mkEntry v (now + default CACHE_TTL_DEFAULT ttl * 1000)
                       (now + default CACHE_TTL_DEFAULT ttl * 1000 * STALE_MULTIPLIER))
  else store c !! k.
Proof.
  unfold set. rewrite store_with_store. case_bool_decide as Hk.
  - subst. apply lookup_insert_eq.
  - by apply lookup_insert_ne.
Qed.

Lemma coalesce_store key factory ttl c : store (coalesce key factory ttl c).2 = store c.
Proof. unfold coalesce. by destruct (inflight c !! key). Qed.

Lemma getOrSet_store key factory ttl now c :
  store (getOrSet key factory ttl now c).2 = store c.
Proof.
  unfold getOrSet, refreshInBackground.
  pose proof (coalesce_store key factory (default CACHE_TTL_DEFAULT ttl) c) as Hc.
  destruct (coalesce key factory (default CACHE_TTL_DEFAULT ttl) c) as [p c'].
  simpl in Hc.
  destruct (store c !! key) as [e|]; [|done].
  destruct (now <=? freshUntil e); [done|].
  by destruct (now <=? staleUntil e).
Qed.

(** The entry written by [set] stays as written while operations that
    happen within its stale window spare it. *)
Lemma untouched_keeps key e t ops : ∀ c,
  store c !! key = Some e →
  t ≤ staleUntil e →
  untouched key t c ops →
  store (foldl apply c ops) !! key = Some e.
Proof.
  induction ops as [|[now op] ops IH]; intros c He Ht Hu; [done|].
  cbn [untouched fst snd] in Hu. destruct Hu as (Hnow & Hsp & Hu).
  cbn [foldl]. apply IH; [|done|done].
  unfold apply; cbn [fst snd].
  destruct op as [k|k v ttl|k|k| |k f ttl|p r]; cbn [spares] in Hsp.
  - rewrite get_store. destruct (store c !! k) as [e'|] eqn:He'; [|done].
    case_bool_decide as Hk; [|by rewrite andb_false_r].
    subst k. rewrite He in He'. injection He' as <-.
    assert ((staleUntil e <? now) = false) as -> by lia. done.
  - rewrite set_lookup. by rewrite bool_decide_eq_false_2.
  - unfold del; simpl. by rewrite lookup_delete_ne.
  - unfold exists_. pose proof (get_store k now c key) as Hg.
    destruct (get k now c) as [v c']. cbn [fst snd] in *. rewrite Hg.
    destruct (store c !! k) as [e'|] eqn:He'; [|done].
    case_bool_decide as Hk; [|by rewrite andb_false_r].
    subst k. rewrite He in He'. injection He' as <-.
    assert ((staleUntil e <? now) = false) as -> by lia. done.
  - done.
  - by rewrite getOrSet_store.
  - unfold settle. destruct (pending c !! p) as [k|]; [|done]. cbn [store].
    destruct r as [v|reason]; [|done].
    rewrite set_lookup. by rewrite bool_decide_eq_false_2.
Qed.

(** Whatever spares an entry leaves it in place or purges it. *)
Lemma untouched_keeps_or_purges key e t ops : ∀ c,
  (store c !! key = Some e ∨ store c !! key = None) →
  untouched key t c ops →
  store (foldl apply c ops) !! key = Some e ∨
  store (foldl apply c ops) !! key = None.
Proof.
  induction ops as [|[now op] ops IH]; intros c He Hu; [done|].
  cbn [untouched fst snd] in Hu. destruct Hu as (Hnow & Hsp & Hu).
  cbn [foldl]. apply IH; [|done].
  unfold apply; cbn [fst snd].
  destruct op as [k|k v ttl|k|k| |k f ttl|p r]; cbn [spares] in Hsp.
  - rewrite get_store. destruct (store c !! k) as [e'|]; [|done].
    destruct (_ && _); [by right|done].
  - rewrite set_lookup. by rewrite bool_decide_eq_false_2.
  - unfold del; simpl. by rewrite lookup_delete_ne.
  - unfold exists_. pose proof (get_store k now c key) as Hg.
    destruct (get k now c) as [v c']. cbn [fst snd] in *. rewrite Hg.
    destruct (store c !! k) as [e'|]; [|done].
    destruct (_ && _); [by right|done].
  - done.
  - by rewrite getOrSet_store.
  - unfold settle. destruct (pending c !! p) as [k|]; [|done]. cbn [store].
    destruct r as [v|reason]; [|done].
    rewrite set_lookup. by rewrite bool_decide_eq_false_2.
Qed.

End InMemoryFacts.

(** C6.  After [set(K, v, ttl)] at [t0], a [get(K)] at any [t] with
    [t0 ≤ t ≤ t0 + ttl × STALE_MULTIPLIER] (the ttl taken in milliseconds, as
    [set] does) returns [v], whatever happened to the cache in between
    that was neither a [set], a [del] nor a [flush] touching [K]; and
    [get(K)] returns [null] once [t] is past that instant. *)
Theorem cache_round_trip_within_stale_window
  (c : InMemory.InMemoryCacheService) (K : string) (v : Json) (ttl t0 t : Z)
  (between : list (Z * InMemory.Op)) :
  let written := InMemory.set K v (Some ttl) t0 c in
  let limit := t0 + ttl * 1000 * InMemory.STALE_MULTIPLIER in
  InMemory.untouched K t written between →
  (t0 ≤ t ≤ limit →
   (InMemory.get K t (foldl InMemory.apply written between)).1 = v) ∧
  (limit < t →
   (InMemory.get K t (foldl InMemory.apply written between)).1 = JNull).
Proof.
  intros written limit Hu.
  set (e := InMemory.mkEntry v (t0 + ttl * 1000) limit).
  assert ((InMemory.store written) !! K = Some e) as He.
  { unfold written. rewrite set_lookup. by rewrite bool_decide_eq_true_2. }
  split.
  - intros [_ Ht].
    rewrite get_result.
    rewrite (untouched_keeps K e t between written He Ht Hu). simpl.
    by assert ((limit <? t) = false) as -> by lia.
  - intros Ht. rewrite get_result.
    destruct (untouched_keeps_or_purges K e t between written (or_introl He) Hu)
      as [-> | ->]; [|done].
    simpl. by assert ((limit <? t) = true) as -> by lia.
Qed.

Lemma cache_round_trip_witness :
  (InMemory.get "exchange:odds:7" 3500
     (foldl InMemory.apply
        (InMemory.set "exchange:odds:7" (JArr [JNum 1]) (Some 2) 0 InMemory.empty)
        [(100, InMemory.OpGet "exchange:odds:7");
         (200, InMemory.OpSet "exchange:sports" (JArr []) None)])).1
  = JArr [JNum 1].
Proof.
  apply (cache_round_trip_within_stale_window InMemory.empty "exchange:odds:7"
           (JArr [JNum 1]) 2 0 3500).
  - simpl. repeat split; try lia; discriminate.
  - unfold InMemory.STALE_MULTIPLIER. lia.
Defined.

(** ** Enumeration of keys and hot sets *)

Section KeysFacts.
Import InMemory.

Lemma matches_lit c r s : matches ((Lit c, false) :: r) (String c s) = matches r s.
Proof. cbn [matches atom_matches]. by rewrite Ascii.eqb_refl. Qed.

Lemma matches_any_star s : matches [(AnyChar, true)] s = single_line s.
Proof.
  induction s as [|c s IH]; [done|].
  change (matches [(AnyChar, true)] (String c s))
    with (matches [] (String c s) ||
          (atom_matches AnyChar c && matches [(AnyChar, true)] s)).
  rewrite IH. reflexivity.
Qed.

Lemma hot_gmid_pattern_compiles :
  ∃ regex, compile (glob_source Exchange.EXCHANGE_CACHE_KEYS.hotGmidPattern) = Some regex ∧
           ∀ g, matches regex (Exchange.EXCHANGE_CACHE_KEYS.hotGmid g) = single_line g.
Proof.
  eexists. split; [vm_compute; reflexivity|].
  intros g. unfold Exchange.EXCHANGE_CACHE_KEYS.hotGmid, Exchange.HOT_GMID_PREFIX.
  cbv [String.append]. rewrite !matches_lit. apply matches_any_star.
Qed.

Lemma hot_match_pattern_compiles :
  ∃ regex, compile (glob_source Prefetch.PREFETCH_KEYS.hotMatchPattern) = Some regex ∧
           ∀ g, matches regex (Prefetch.PREFETCH_KEYS.hotMatch g) = single_line g.
Proof.
  eexists. split; [vm_compute; reflexivity|].
  intros g. unfold Prefetch.PREFETCH_KEYS.hotMatch, Prefetch.HOT_KEY_PREFIX.
  cbv [String.append]. rewrite !matches_lit. apply matches_any_star.
Qed.

Lemma strip_hot_gmid_prefix g :
  replace_first Exchange.HOT_GMID_PREFIX EmptyString (Exchange.EXCHANGE_CACHE_KEYS.hotGmid g) = g.
Proof. reflexivity. Qed.

Lemma strip_hot_match_prefix g :
  replace_first Prefetch.HOT_KEY_PREFIX EmptyString (Prefetch.PREFETCH_KEYS.hotMatch g) = g.
Proof. reflexivity. Qed.

Lemma elem_of_store_keys c k : k ∈ store_keys c ↔ is_Some (store c !! k).
Proof.
  unfold store_keys. rewrite list_elem_of_fmap. split.
  - intros [[k' e] [-> Hin]]. apply elem_of_map_to_list in Hin. by exists e.
  - intros [e He]. exists (k, e). split; [done|]. by apply elem_of_map_to_list.
Qed.

Lemma elem_of_keys pattern c ks regex k :
  compile (glob_source pattern) = Some regex →
  keys pattern c = Some ks →
  k ∈ ks ↔ is_Some (store c !! k) ∧ matches regex k = true.
Proof.
  intros Hre. unfold keys. rewrite Hre. cbn. intros [= <-].
  rewrite list_elem_of_In, filter_In, <- list_elem_of_In, elem_of_store_keys.
  tauto.
Qed.

End KeysFacts.

Section HotSetFacts.
Import InMemory.

Lemma collect_hot_extends ks now : ∀ c entries x,
  x ∈ entries → x ∈ (Exchange.collect_hot ks now c entries).1.
Proof.
  induction ks as [|k ks IH]; intros c entries x Hx; [done|].
  cbn [Exchange.collect_hot]. destruct (get k now c) as [raw c'].
  apply IH. apply elem_of_app. by left.
Qed.

(** The loop of [getHotGmids] lists every enumerated key, with the entry
    that the value found under it at that moment yields. *)
Lemma collect_hot_lists key e ks now : ∀ c entries,
  key ∈ ks →
  store c !! key = Some e →
  Exchange.hot_entry key (if staleUntil e <? now then JNull else value e)
    ∈ (Exchange.collect_hot ks now c entries).1.
Proof.
  induction ks as [|k ks IH]; intros c entries Hin He.
  { by apply elem_of_nil in Hin. }
  cbn [Exchange.collect_hot].
  destruct (decide (k = key)) as [->|Hne].
  - pose proof (get_result key now c) as Hr. rewrite He in Hr.
    destruct (get key now c) as [raw c']. cbn [fst] in Hr. subst raw.
    apply collect_hot_extends. apply elem_of_app. right.
    by apply list_elem_of_singleton.
  - pose proof (get_store k now c key) as Hs.
    destruct (get k now c) as [raw c']. cbn [snd] in Hs.
    apply IH.
    + apply elem_of_cons in Hin as [?|?]; [congruence|done].
    + rewrite Hs. destruct (store c !! k) as [e'|]; [|done].
      rewrite bool_decide_eq_false_2 by done. by rewrite andb_false_r.
Qed.

Lemma getHotGmids_lists g e now c :
  single_line g = true →
  store c !! Exchange.EXCHANGE_CACHE_KEYS.hotGmid g = Some e →
  Exchange.hot_entry (Exchange.EXCHANGE_CACHE_KEYS.hotGmid g)
                     (if staleUntil e <? now then JNull else value e)
    ∈ (Exchange.getHotGmids now c).1.
Proof.
  intros Hg He. unfold Exchange.getHotGmids.
  destruct hot_gmid_pattern_compiles as (regex & Hre & Hm).
  destruct (keys Exchange.EXCHANGE_CACHE_KEYS.hotGmidPattern c) as [ks|] eqn:Hks;
    [|unfold keys in Hks; by rewrite Hre in Hks].
  cbn [default]. apply collect_hot_lists; [|done].
  apply (elem_of_keys _ _ _ _ _ Hre Hks). split; [by eexists|].
  by rewrite Hm.
Qed.

Lemma markGmidHot_record g sport t0 s :
  store (Exchange.cache (Exchange.markGmidHot g sport t0 s))
    !! Exchange.EXCHANGE_CACHE_KEYS.hotGmid g =
  Some (mkEntry (JObj [("gmid", JStr g); ("sid", JNum sport); ("ts", JNum t0)])
                (t0 + Exchange.oddsHotTtl (Exchange.config s) * 1000)
                (t0 + Exchange.oddsHotTtl (Exchange.config s) * 1000 * STALE_MULTIPLIER)).
Proof.
  unfold Exchange.markGmidHot. cbn [Exchange.cache Exchange.with_cache].
  rewrite set_lookup. by rewrite bool_decide_eq_true_2.
Qed.

(** A marked id is listed, with its sport id, by every [getHotGmids] up to
    the end of the stale window of its record. *)
Lemma hot_through_stale_window g sport t0 now s :
  single_line g = true →
  now ≤ t0 + Exchange.oddsHotTtl (Exchange.config s) * 1000 * STALE_MULTIPLIER →
  Exchange.mkHot g (JNum sport)
    ∈ (Exchange.getHotGmids now (Exchange.cache (Exchange.markGmidHot g sport t0 s))).1.
Proof.
  intros Hg Hnow.
  pose proof (getHotGmids_lists g _ now _ Hg (markGmidHot_record g sport t0 s)) as H.
  cbn [staleUntil value] in H.
  replace (_ <? now) with false in H by lia.
  unfold Exchange.hot_entry in H. by rewrite strip_hot_gmid_prefix in H.
Qed.

(** Past the stale window, the [getHotGmids] that purges the record still
    lists the id, through the fallback branch. *)
Lemma hot_once_more_after_expiry g sport t0 now s :
  single_line g = true →
  t0 + Exchange.oddsHotTtl (Exchange.config s) * 1000 * STALE_MULTIPLIER < now →
  Exchange.mkHot g (JNum 4)
    ∈ (Exchange.getHotGmids now (Exchange.cache (Exchange.markGmidHot g sport t0 s))).1.
Proof.
  intros Hg Hnow.
  pose proof (getHotGmids_lists g _ now _ Hg (markGmidHot_record g sport t0 s)) as H.
  cbn [staleUntil value] in H.
  replace (_ <? now) with true in H by lia.
  unfold Exchange.hot_entry in H. by rewrite strip_hot_gmid_prefix in H.
Qed.

Lemma hot_match_listed matchId t0 s :
  single_line matchId = true →
  matchId ∈ Prefetch.getHotMatchIds (Prefetch.cache (Prefetch.markMatchHot matchId t0 s)).
Proof.
  intros Hg. unfold Prefetch.getHotMatchIds.
  destruct hot_match_pattern_compiles as (regex & Hre & Hm).
  destruct (keys Prefetch.PREFETCH_KEYS.hotMatchPattern
              (Prefetch.cache (Prefetch.markMatchHot matchId t0 s))) as [ks|] eqn:Hks;
    [|unfold keys in Hks; by rewrite Hre in Hks].
  cbn [default].
  rewrite <- (strip_hot_match_prefix matchId) at 1.
  apply list_elem_of_In, in_map, list_elem_of_In.
  apply (elem_of_keys _ _ _ _ _ Hre Hks). split; [|by rewrite Hm].
  unfold Prefetch.markMatchHot. cbn [Prefetch.cache Prefetch.with_cache].
  rewrite set_lookup. rewrite bool_decide_eq_true_2 by done. by eexists.
Qed.

End HotSetFacts.

(** C10.  [keys(pattern)] of the in-memory cache matches the glob against
    every key present in the store map and never looks at expiry, so it
    returns keys whose entries are past [staleUntil]; such an entry leaves
    the map lazily, when [get] is called on its key, while [getOrSet] and a
    [get] of another key leave it in place.  Hence the hot sets built on
    [keys] contain expired identifiers: [getHotMatchIds] lists a marked id
    whatever the clock says, and the [getHotGmids] that finds the record of
    an id expired still lists the id. *)
Theorem keys_ignores_expiry_purge_is_lazy :
  (∀ pattern c ks regex k,
     compile (InMemory.glob_source pattern) = Some regex →
     InMemory.keys pattern c = Some ks →
     k ∈ ks ↔ is_Some (InMemory.store c !! k) ∧ matches regex k = true) ∧
  (∀ pattern c ks regex k e now,
     compile (InMemory.glob_source pattern) = Some regex →
     InMemory.keys pattern c = Some ks →
     InMemory.store c !! k = Some e →
     InMemory.staleUntil e < now →
     matches regex k = true →
     k ∈ ks) ∧
  (∀ c k e now,
     InMemory.store c !! k = Some e →
     InMemory.staleUntil e < now →
     InMemory.get k now c = (JNull, InMemory.with_store (delete k (InMemory.store c)) c)) ∧
  (∀ c k k' now, k' ≠ k →
     InMemory.store (InMemory.get k' now c).2 !! k = InMemory.store c !! k) ∧
  (∀ c k factory ttl now,
     InMemory.store (InMemory.getOrSet k factory ttl now c).2 = InMemory.store c) ∧
  (∀ s matchId t0,
     single_line matchId = true →
     matchId ∈ Prefetch.getHotMatchIds
                 (Prefetch.cache (Prefetch.markMatchHot matchId t0 s))) ∧
  (∀ s g sport t0 now,
     single_line g = true →
     t0 + Exchange.oddsHotTtl (Exchange.config s) * 1000 * InMemory.STALE_MULTIPLIER < now →
     Exchange.mkHot g (JNum 4)
       ∈ (Exchange.getHotGmids now
            (Exchange.cache (Exchange.markGmidHot g sport t0 s))).1).
Proof.
  split; [|split; [|split; [|split; [|split; [|split]]]]].
  - intros pattern c ks regex k Hre Hks. by apply elem_of_keys with pattern.
  - intros pattern c ks regex k e now Hre Hks He _ Hm.
    apply (elem_of_keys _ _ _ _ _ Hre Hks). split; [by eexists|done].
  - intros c k e now He Hlt. unfold InMemory.get. rewrite He.
    by replace (_ <? now) with true by lia.
  - intros c k k' now Hne. rewrite get_store.
    destruct (InMemory.store c !! k') as [e'|]; [|done].
    rewrite (bool_decide_eq_false_2 (k = k')) by congruence.
    by rewrite andb_false_r.
  - intros. apply getOrSet_store.
  - intros. by apply hot_match_listed.
  - intros. by apply hot_once_more_after_expiry.
Qed.

Lemma keys_ignores_expiry_witness :
  "stale" ∈ ["stale"] ∧
  "M1" ∈ Prefetch.getHotMatchIds
           (Prefetch.cache (Prefetch.markMatchHot "M1" 0
                              (Prefetch.create ["exchange"] InMemory.empty))) ∧
  Exchange.mkHot "G1" (JNum 4)
    ∈ (Exchange.getHotGmids 60001
         (Exchange.cache
            (Exchange.markGmidHot "G1" 1 0
               (Exchange.create Exchange.DEFAULT_POLL_CONFIG InMemory.empty)))).1.
Proof.
  destruct keys_ignores_expiry_purge_is_lazy as (_ & Hexp & _ & _ & _ & Hm & Hg).
  split; [|split].
  - apply (Hexp "s*"
             (InMemory.set "stale" JNull (Some 1) 0 InMemory.empty)
             ["stale"] [(Lit "s", false); (AnyChar, true)] "stale"
             (InMemory.mkEntry JNull 1000 2000) 5000).
    + reflexivity.
    + vm_compute. reflexivity.
    + vm_compute. reflexivity.
    + simpl. lia.
    + reflexivity.
  - apply Hm. reflexivity.
  - apply Hg; [reflexivity|]. vm_compute. reflexivity.
Defined.

(** C4 (what the code does).  With the in-memory cache behind
    [markGmidHot], an id marked once at [t = 0] with the default
    [oddsHotTtl] of 30 s is still listed by [getHotGmids] 31 s and 60 s
    later; the call at 60.001 s, which finds the record expired and purges
    it, lists the id once more with the fallback sport id; only the call
    after that one returns the empty list. *)
Theorem hot_gmid_outlives_hot_ttl :
  let s := Exchange.markGmidHot "G1" 1 0
             (Exchange.create Exchange.DEFAULT_POLL_CONFIG InMemory.empty) in
  (Exchange.getHotGmids 31000 (Exchange.cache s)).1 = [Exchange.mkHot "G1" (JNum 1)] ∧
  (Exchange.getHotGmids 60000 (Exchange.cache s)).1 = [Exchange.mkHot "G1" (JNum 1)] ∧
  (Exchange.getHotGmids 60001 (Exchange.cache s)).1 = [Exchange.mkHot "G1" (JNum 4)] ∧
  (Exchange.getHotGmids 60002
     (Exchange.getHotGmids 60001 (Exchange.cache s)).2).1 = [].
Proof. vm_compute. repeat split; reflexivity. Qed.

(** ** The request coalescer *)

Section CoalescerFacts.
Context {F : Type}.
Implicit Types c : Coalescer.RequestCoalescer F.
Import Coalescer.

Lemma consistent_empty : consistent (@Coalescer.empty F).
Proof.
  split; [|split].
  - intros key p. cbn. rewrite lookup_empty. split; [done|].
    intros [f Hf]. by rewrite lookup_empty in Hf.
  - intros p [[x Hx]|[x Hx]]; cbn in Hx; by rewrite lookup_empty in Hx.
  - intros p _. apply lookup_empty.
Qed.

Lemma consistent_coalesce key fetcher c :
  consistent c → consistent (coalesce key fetcher c).2.
Proof.
  intros (H1 & H2 & H3). unfold coalesce.
  destruct (inFlight c !! key) as [existing|] eqn:Hk; [done|].
  cbn [snd]. split; [|split]; cbn [inFlight running settled nextPromise].
  - intros key' p'.
    destruct (decide (key' = key)) as [->|Hkey];
      destruct (decide (p' = nextPromise c)) as [->|Hp].
    + rewrite !lookup_insert_eq. split; [by eexists|done].
    + rewrite lookup_insert_eq, lookup_insert_ne by done. split.
      * intros [= <-]. done.
      * intros [f Hf]. assert (inFlight c !! key = Some p') as Hc
          by (apply H1; by eexists). congruence.
    + rewrite lookup_insert_ne, lookup_insert_eq by done. split.
      * intros Hc. apply H1 in Hc as [f Hf].
        assert (nextPromise c < nextPromise c)%nat by (apply H2; left; by eexists).
        lia.
      * intros [f [= <- _]]. done.
    + rewrite !lookup_insert_ne by done. apply H1.
  - intros p [Hr|Hs].
    + destruct (decide (p = nextPromise c)) as [->|Hp]; [lia|].
      rewrite lookup_insert_ne in Hr by done.
      assert (p < nextPromise c)%nat by (apply H2; by left). lia.
    + assert (p < nextPromise c)%nat by (apply H2; by right). lia.
  - intros p Hs.
    assert (p < nextPromise c)%nat by (apply H2; by right).
    rewrite lookup_insert_ne by lia. by apply H3.
Qed.

Lemma consistent_settle p r c : consistent c → consistent (settle p r c).
Proof.
  intros (H1 & H2 & H3). unfold settle.
  destruct (running c !! p) as [[key f]|] eqn:Hp; [|done].
  split; [|split]; cbn [inFlight running settled nextPromise].
  - intros key' p'. destruct (decide (key' = key)) as [->|Hkey].
    + rewrite lookup_delete_eq. split; [done|]. intros [f' Hf'].
      destruct (decide (p' = p)) as [->|Hne].
      * by rewrite lookup_delete_eq in Hf'.
      * rewrite lookup_delete_ne in Hf' by done.
        assert (inFlight c !! key = Some p') by (apply H1; by eexists).
        assert (inFlight c !! key = Some p) by (apply H1; by eexists).
        congruence.
    + rewrite lookup_delete_ne by done.
      destruct (decide (p' = p)) as [->|Hne].
      * rewrite lookup_delete_eq. split; [|by intros [? ?]].
        intros Hc. apply H1 in Hc as [f' Hf']. congruence.
      * rewrite lookup_delete_ne by done. apply H1.
  - intros q [Hr|Hs].
    + destruct (decide (q = p)) as [->|Hne]; [by rewrite lookup_delete_eq in Hr; destruct Hr|].
      rewrite lookup_delete_ne in Hr by done. apply H2. by left.
    + destruct (decide (q = p)) as [->|Hne].
      * apply H2. left. by eexists.
      * rewrite lookup_insert_ne in Hs by done. apply H2. by right.
  - intros q Hs. destruct (decide (q = p)) as [->|Hne].
    + apply lookup_delete_eq.
    + rewrite lookup_delete_ne by done. rewrite lookup_insert_ne in Hs by done.
      by apply H3.
Qed.

Lemma consistent_apply c o : consistent c → consistent (Coalescer.apply c o).
Proof.
  destruct o; [apply consistent_coalesce|apply consistent_settle].
Qed.

Lemma consistent_foldl ops : ∀ c, consistent c → consistent (foldl Coalescer.apply c ops).
Proof.
  induction ops as [|o ops IH]; intros c Hc; [done|].
  cbn [foldl]. apply IH. by apply consistent_apply.
Qed.

Lemma consistent_run ops : consistent (@Coalescer.run F ops).
Proof. apply consistent_foldl, consistent_empty. Qed.

Lemma settled_stable c o p r :
  consistent c → settled c !! p = Some r → settled (Coalescer.apply c o) !! p = Some r.
Proof.
  intros (H1 & H2 & H3) Hs. destruct o as [key fetcher|q r']; cbn [Coalescer.apply].
  - unfold coalesce. by destruct (inFlight c !! key).
  - unfold settle. destruct (running c !! q) as [[key f]|] eqn:Hq; [|done].
    cbn [settled]. rewrite lookup_insert_ne; [done|].
    intros ->. rewrite H3 in Hq by (by eexists). done.
Qed.

End CoalescerFacts.

(** C1.  In every state a [RequestCoalescer] can reach: (a) at most one
    fetcher is executing per key; (b) a [coalesce] on a key whose slot is
    free calls its fetcher, once, and stores the new promise in the slot;
    (c) a [coalesce] that finds the slot of its key taken returns the promise
    stored there, the originator's, whose fetcher is still executing, and
    calls nothing; (d) the settlement recorded for a promise, a value or a
    rejection, is what every holder of the promise reads from then on;
    (e) when the fetcher behind the slot of a key settles, the slot is
    deleted and its promise takes the settlement, so that by (b) the next
    [coalesce] on the key starts a fresh fetch. *)
Theorem single_flight_coalescing {F : Type} (ops : list (Coalescer.Op F)) :
  let c := Coalescer.run ops in
  (∀ p q key f g,
     Coalescer.running c !! p = Some (key, f) →
     Coalescer.running c !! q = Some (key, g) → p = q) ∧
  (∀ key fetcher,
     Coalescer.inFlight c !! key = None →
     let p := (Coalescer.coalesce key fetcher c).1 in
     let c' := (Coalescer.coalesce key fetcher c).2 in
     Coalescer.running c !! p = None ∧ Coalescer.settled c !! p = None ∧
     Coalescer.inFlight c' !! key = Some p ∧
     Coalescer.running c' !! p = Some (key, fetcher) ∧
     Coalescer.fetcherCalls c' = Coalescer.fetcherCalls c ++ [(key, fetcher)]) ∧
  (∀ key p fetcher,
     Coalescer.inFlight c !! key = Some p →
     Coalescer.coalesce key fetcher c = (p, c) ∧
     ∃ f, Coalescer.running c !! p = Some (key, f)) ∧
  (∀ p r o,
     Coalescer.settled c !! p = Some r →
     Coalescer.settled (Coalescer.apply c o) !! p = Some r) ∧
  (∀ p key f r,
     Coalescer.running c !! p = Some (key, f) →
     let c' := Coalescer.settle p r c in
     Coalescer.inFlight c' !! key = None ∧
     Coalescer.settled c' !! p = Some r ∧
     Coalescer.running c' !! p = None ∧
     Coalescer.fetcherCalls c' = Coalescer.fetcherCalls c).
Proof.
  intros c. pose proof (consistent_run ops) as Hc. fold c in Hc.
  destruct Hc as (H1 & H2 & H3).
  split; [|split; [|split; [|split]]].
  - intros p q key f g Hp Hq.
    assert (Coalescer.inFlight c !! key = Some p) by (apply H1; by eexists).
    assert (Coalescer.inFlight c !! key = Some q) by (apply H1; by eexists).
    congruence.
  - intros key fetcher Hk. unfold Coalescer.coalesce. rewrite Hk.
    cbn [fst snd Coalescer.inFlight Coalescer.running Coalescer.fetcherCalls].
    rewrite !lookup_insert_eq.
    split; [|split; [|done]].
    + destruct (Coalescer.running c !! Coalescer.nextPromise c) eqn:E; [|done].
      assert (Coalescer.nextPromise c < Coalescer.nextPromise c)%nat
        by (apply H2; left; by eexists). lia.
    + destruct (Coalescer.settled c !! Coalescer.nextPromise c) eqn:E; [|done].
      assert (Coalescer.nextPromise c < Coalescer.nextPromise c)%nat
        by (apply H2; right; by eexists). lia.
  - intros key p fetcher Hk. split.
    + unfold Coalescer.coalesce. by rewrite Hk.
    + by apply H1.
  - intros p r o Hs. apply settled_stable; [|done]. by split.
  - intros p key f r Hp c'.
    unfold c', Coalescer.settle. rewrite Hp.
    cbn [Coalescer.inFlight Coalescer.settled Coalescer.running Coalescer.fetcherCalls].
    by rewrite !lookup_delete_eq, lookup_insert_eq.
Qed.

Lemma single_flight_coalescing_witness :
  let c := Coalescer.run [Coalescer.Coalesce "odds:7" 1%nat] in
  Coalescer.coalesce "odds:7" 2%nat c = (0%nat, c) ∧
  Coalescer.inFlight (Coalescer.settle 0%nat (Rejected "timeout") c) !! "odds:7" = None ∧
  Coalescer.fetcherCalls
    (Coalescer.coalesce "odds:7" 3%nat
       (Coalescer.run [Coalescer.Coalesce "odds:7" 1%nat;
                       Coalescer.Settle 0%nat (Rejected "timeout")])).2
  = [("odds:7", 1%nat); ("odds:7", 3%nat)].
Proof.
  intros c.
  destruct (single_flight_coalescing [Coalescer.Coalesce "odds:7" 1%nat])
    as (_ & _ & Hjoin & _ & Hsettle).
  destruct (single_flight_coalescing
              [Coalescer.Coalesce "odds:7" 1%nat;
               Coalescer.Settle 0%nat (Rejected "timeout")])
    as (_ & Hfresh & _).
  split; [|split].
  - apply (Hjoin "odds:7" 0%nat 2%nat). vm_compute. reflexivity.
  - apply (Hsettle 0%nat "odds:7" 1%nat (Rejected "timeout")).
    vm_compute. reflexivity.
  - destruct (Hfresh "odds:7" 3%nat) as (_ & _ & _ & _ & Hcalls).
    + vm_compute. reflexivity.
    + exact Hcalls.
Defined.

(** ** The worker pool *)

Section WorkerFacts.
Context {E R : Type}.
Variable launch : E → R → nat * R.
Implicit Types w : Worker.OddsFetchWorker E.
Import Worker.

Local Ltac bound_lia :=
  unfold Worker.counted, Worker.MAX_CONCURRENCY in *;
  cbn [Worker.activeCount Worker.fetching Worker.queue length] in *; lia.

Lemma drain_loop_spec q : ∀ active started r,
  active = Z.of_nat (length started) →
  0 ≤ active ≤ MAX_CONCURRENCY →
  let '(q', active', started', _) := drain_loop launch q active started r in
  active' = Z.of_nat (length started') ∧
  active ≤ active' ≤ MAX_CONCURRENCY ∧
  (q' = [] ∨ active' = MAX_CONCURRENCY) ∧
  (q ≠ [] → q' ≠ [] ∨ started' ≠ []).
Proof.
  induction q as [|e q IH]; intros active started r Hlen Hb; cbn [drain_loop].
  { split; [done|]. split; [lia|]. split; [by left|done]. }
  destruct (active <? MAX_CONCURRENCY) eqn:Hlt.
  - destruct (launch e r) as [p r'].
    specialize (IH (active + 1) (started ++ [(e, p)]) r').
    destruct (drain_loop launch q (active + 1) (started ++ [(e, p)]) r')
      as [[[q' active'] started'] r''].
    destruct IH as (H1 & H2 & H3 & H4).
    { rewrite length_app. cbn. lia. }
    { lia. }
    split; [done|]. split; [lia|]. split; [done|].
    intros _. right. intros ->. cbn in H1. lia.
  - split; [done|]. split; [lia|]. split; [right; lia|]. intros _. by left.
Qed.

Lemma drain_spec w r :
  counted w →
  let '(w', _, out) := drain launch w r in
  counted w' ∧ listening w' = listening w ∧
  ((out = [TICK_COMPLETE] ∧ queue w' = [] ∧ fetching w' = [] ∧ processing w' = false) ∨
   (out = [] ∧ busy w' ∧ processing w' = true)).
Proof.
  intros [Hlen Hb]. unfold drain.
  destruct (processing w && is_empty (queue w) && (activeCount w =? 0)) eqn:Hfirst.
  - apply andb_prop in Hfirst as [Hfirst Hz]. apply andb_prop in Hfirst as [_ Hq].
    apply Z.eqb_eq in Hz.
    unfold counted, busy. cbn [activeCount queue fetching processing listening].
    split; [done|]. split; [done|]. left.
    split; [done|]. split; [by destruct (queue w)|].
    split; [|done]. destruct (fetching w); [done|]. cbn [length] in Hlen. lia.
  - pose proof (drain_loop_spec (queue w) (activeCount w) (fetching w) r Hlen Hb) as Hl.
    destruct (drain_loop launch (queue w) (activeCount w) (fetching w) r)
      as [[[q' active'] started'] r'].
    destruct Hl as (H1 & H2 & H3 & H4).
    destruct (is_empty q' && (active' =? 0)) eqn:Hlast;
      unfold counted, busy; cbn [activeCount queue fetching processing listening].
    + apply andb_prop in Hlast as [Hq Hz]. apply Z.eqb_eq in Hz.
      split; [split; [done|lia]|]. split; [done|]. left.
      split; [done|]. split; [by destruct q'|].
      split; [|done]. destruct started'; [done|]. cbn [length] in H1. lia.
    + split; [split; [done|lia]|]. split; [done|]. right.
      split; [done|]. split; [|done].
      apply andb_false_iff in Hlast as [Hq|Hz].
      * left. by destruct q'.
      * right. apply Z.eqb_neq in Hz. intros ->. cbn [length] in H1. lia.
Qed.

Lemma enqueue_spec entries w r :
  counted w →
  let '(w', _, out) := enqueue launch entries w r in
  counted w' ∧ listening w' = listening w ∧
  ((out = [TICK_COMPLETE] ∧ queue w' = [] ∧ fetching w' = [] ∧ processing w' = false) ∨
   (out = [] ∧ busy w' ∧ processing w' = true)).
Proof.
  intros Hc. unfold enqueue.
  pose proof (drain_spec (mkWorker (activeCount w) (queue w ++ entries) (processing w)
                            (listening w) (fetching w)) r Hc) as H.
  by destruct (drain launch _ r) as [[w' r'] out].
Qed.

(** A batch that is not empty leaves the worker busy: no [TICK_COMPLETE]
    comes out of the [emit] that hands it over. *)
Lemma enqueue_nonempty entries w r :
  counted w → entries ≠ [] →
  let '(w', _, out) := enqueue launch entries w r in
  out = [] ∧ busy w'.
Proof.
  intros [Hlen Hb] Hne. unfold enqueue, drain. cbn [processing queue activeCount fetching].
  assert (is_empty (queue w ++ entries) = false) as ->.
  { destruct (queue w); [by destruct entries|done]. }
  rewrite andb_false_r. cbn [andb].
  pose proof (drain_loop_spec (queue w ++ entries) (activeCount w) (fetching w) r Hlen Hb) as Hl.
  destruct (drain_loop launch (queue w ++ entries) (activeCount w) (fetching w) r)
      as [[[q' active'] started'] r'].
  destruct Hl as (H1 & H2 & H3 & H4).
  assert (q' ≠ [] ∨ started' ≠ []) as Hbusy.
  { apply H4. destruct (queue w); [by destruct entries|done]. }
  destruct (is_empty q' && (active' =? 0)) eqn:Hlast;
    unfold busy; cbn [queue fetching].
  - apply andb_prop in Hlast as [Hq Hz]. apply Z.eqb_eq in Hz. exfalso.
    destruct Hbusy as [Hq'|Hs']; [by destruct q'|].
    destruct started'; [done|]. cbn [length] in H1. lia.
  - done.
Qed.

Lemma finish_spec i success w r :
  counted w →
  let '(w', _, out) := finish launch i success w r in
  counted w' ∧ listening w' = listening w ∧
  (is_Some (fetching w !! i) →
   ((TICK_COMPLETE ∈ out) ∧ queue w' = [] ∧ fetching w' = [] ∧ processing w' = false) ∨
   ((TICK_COMPLETE ∉ out) ∧ busy w')) ∧
  (fetching w !! i = None → w' = w ∧ out = []).
Proof.
  intros [Hlen Hb]. unfold finish.
  destruct (fetching w !! i) as [[entry p]|] eqn:Hi.
  2:{ split; [done|]. split; [done|]. split; [by intros [? ?]|done]. }
  assert (i < length (fetching w))%nat as Hlt by (by eapply lookup_lt_Some).
  pose proof (drain_spec (mkWorker (activeCount w - 1) (queue w) (processing w)
                            (listening w) (delete i (fetching w))) r) as Hd.
  destruct (drain launch _ r) as [[w' r'] out].
  destruct Hd as (Hc & Hl & Hout).
  { split; cbn [activeCount fetching].
    - rewrite length_delete by (by eexists). lia.
    - lia. }
  split; [done|]. split; [done|]. split; [|done].
  intros _. destruct Hout as [(-> & ? & ? & ?)|(-> & ? & ?)].
  - left. split; [|done]. apply elem_of_cons. right. by apply list_elem_of_singleton.
  - right. split; [|done]. intros Hin. apply elem_of_cons in Hin as [?|Hin]; [done|].
    by apply elem_of_nil in Hin.
Qed.

(** The loop moves entries from the queue to the running fetches, in
    order, and drops none. *)
Lemma drain_loop_partition q : ∀ active started r,
  let '(q', _, started', _) := drain_loop launch q active started r in
  started'.*1 ++ q' = started.*1 ++ q.
Proof.
  induction q as [|e q IH]; intros active started r; cbn [drain_loop].
  { done. }
  destruct (active <? MAX_CONCURRENCY); [|done].
  destruct (launch e r) as [p r'].
  specialize (IH (active + 1) (started ++ [(e, p)]) r').
  destruct (drain_loop launch q (active + 1) (started ++ [(e, p)]) r')
    as [[[q' active'] started'] r''].
  rewrite IH, fmap_app. cbn. by rewrite <- app_assoc.
Qed.

Lemma enqueue_partition entries w r :
  entries ≠ [] →
  let '(w', _, _) := enqueue launch entries w r in
  (fetching w').*1 ++ queue w' = (fetching w).*1 ++ queue w ++ entries.
Proof.
  intros Hne. unfold enqueue, drain. cbn [processing queue activeCount fetching].
  assert (is_empty (queue w ++ entries) = false) as ->.
  { destruct (queue w); [by destruct entries|done]. }
  rewrite andb_false_r. cbn [andb].
  pose proof (drain_loop_partition (queue w ++ entries) (activeCount w) (fetching w) r) as Hl.
  destruct (drain_loop launch (queue w ++ entries) (activeCount w) (fetching w) r)
      as [[[q' active'] started'] r'].
  by destruct (is_empty q' && (active' =? 0)).
Qed.

(** What the fetches started by a loop, a [drain] or a completion have in
    common, given a property [I] of the resource that [launch] keeps and a
    property [Q] of the promises it yields. *)
Section Launched.
Variable I : R → Prop.
Variable Q : nat → Prop.
Hypothesis launch_keeps : ∀ e r, I r → I (launch e r).2 ∧ Q (launch e r).1.

Lemma drain_loop_launched q : ∀ active started r,
  I r →
  let '(_, _, started', r') := drain_loop launch q active started r in
  I r' ∧ ∃ extra, started' = started ++ extra ∧ Forall (fun x => Q x.2) extra.
Proof.
  induction q as [|e q IH]; intros active started r Hr; cbn [drain_loop].
  { split; [done|]. exists []. by rewrite app_nil_r. }
  destruct (active <? MAX_CONCURRENCY).
  2:{ split; [done|]. exists []. by rewrite app_nil_r. }
  destruct (launch_keeps e r Hr) as [Hr' Hq].
  destruct (launch e r) as [p r']. cbn [fst snd] in *.
  specialize (IH (active + 1) (started ++ [(e, p)]) r' Hr').
  destruct (drain_loop launch q (active + 1) (started ++ [(e, p)]) r')
    as [[[q' active'] started'] r''].
  destruct IH as (Hr'' & extra & -> & Hall).
  split; [done|]. exists ((e, p) :: extra). rewrite <- app_assoc.
  split; [done|]. by constructor.
Qed.

Lemma drain_launched w r :
  I r →
  let '(w', r', _) := drain launch w r in
  I r' ∧ ∃ extra, fetching w' = fetching w ++ extra ∧ Forall (fun x => Q x.2) extra.
Proof.
  intros Hr. unfold drain.
  destruct (processing w && is_empty (queue w) && (activeCount w =? 0)).
  { split; [done|]. exists []. by rewrite app_nil_r. }
  pose proof (drain_loop_launched (queue w) (activeCount w) (fetching w) r Hr) as Hl.
  destruct (drain_loop launch (queue w) (activeCount w) (fetching w) r)
    as [[[q' active'] started'] r'].
  by destruct (is_empty q' && (active' =? 0)).
Qed.

Lemma emit_launched entries w r :
  I r →
  let '(w', r', _) := emit_FETCH_ODDS launch entries w r in
  I r' ∧ ∃ extra, fetching w' = fetching w ++ extra ∧ Forall (fun x => Q x.2) extra.
Proof.
  intros Hr. unfold emit_FETCH_ODDS, enqueue. destruct (listening w).
  - apply (drain_launched (mkWorker (activeCount w) (queue w ++ entries)
                             (processing w) true (fetching w)) r Hr).
  - split; [done|]. exists []. by rewrite app_nil_r.
Qed.

Lemma finish_launched i success w r :
  I r →
  let '(w', r', _) := finish launch i success w r in
  I r' ∧
  ∃ extra, fetching w' = match fetching w !! i with
                         | Some _ => delete i (fetching w)
                         | None => fetching w
                         end ++ extra ∧
           Forall (fun x => Q x.2) extra.
Proof.
  intros Hr. unfold finish.
  destruct (fetching w !! i) as [[entry p]|].
  2:{ split; [done|]. exists []. by rewrite app_nil_r. }
  pose proof (drain_launched (mkWorker (activeCount w - 1) (queue w) (processing w)
                                (listening w) (delete i (fetching w))) r Hr) as Hd.
  by destruct (drain launch _ r) as [[w' r'] out].
Qed.

End Launched.

Lemma counted_idle : counted (@idle E).
Proof. split; cbn; [done|unfold MAX_CONCURRENCY; lia]. Qed.

Lemma counted_act wr a : counted wr.1 → counted (act launch wr a).1.
Proof.
  intros Hc. destruct wr as [w r]. destruct a as [entries|i success|]; cbn [act fst snd] in *.
  - unfold emit_FETCH_ODDS. destruct (listening w); [|done].
    pose proof (enqueue_spec entries w r Hc) as H.
    destruct (enqueue launch entries w r) as [[w' r'] out]. by destruct H.
  - pose proof (finish_spec i success w r Hc) as H.
    destruct (finish launch i success w r) as [[w' r'] out]. by destruct H.
  - done.
Qed.

Lemma counted_foldl actions : ∀ wr, counted wr.1 → counted (foldl (act launch) wr actions).1.
Proof.
  induction actions as [|a actions IH]; intros wr Hc; [done|].
  cbn [foldl]. apply IH. by apply counted_act.
Qed.

End WorkerFacts.

(** ** The odds tier of the exchange scheduler *)

Section ExchangeFacts.
Import Exchange.
Implicit Types s : ExchangePollingScheduler.

Lemma same_pool_refl s : same_pool s s.
Proof. done. Qed.

Lemma same_pool_trans s1 s2 s3 : same_pool s1 s2 → same_pool s2 s3 → same_pool s1 s3.
Proof. unfold same_pool. intros (-> & -> & ->) (-> & -> & ->). done. Qed.

Lemma same_pool_with_cache c s : same_pool s (with_cache c s).
Proof. done. Qed.

Lemma same_pool_with_providerCalls l s : same_pool s (with_providerCalls l s).
Proof. done. Qed.

Lemma same_pool_poll_one reply now s sport :
  same_pool s (poll_one_match_list reply now s sport).
Proof.
  unfold poll_one_match_list. destruct (reply sport) as [data|?]; [|done].
  by destruct (truthy data).
Qed.

Lemma same_pool_pollMatchLists reply now s : same_pool s (pollMatchLists reply now s).
Proof.
  unfold pollMatchLists. generalize POLL_SPORT_IDS as ids.
  intros ids. revert s. induction ids as [|sport ids IH]; intros s; [done|].
  cbn [foldl]. eapply same_pool_trans; [apply same_pool_poll_one|apply IH].
Qed.

Lemma same_pool_pollTopEvents reply now s : same_pool s (pollTopEvents reply now s).
Proof.
  unfold pollTopEvents. destruct reply as [events|?]; [|done].
  by destruct (bool_decide _).
Qed.

Lemma same_pool_pollBanners reply now s : same_pool s (pollBanners reply now s).
Proof.
  unfold pollBanners. destruct reply as [data|?]; [|done]. by destruct (truthy data).
Qed.

Lemma same_pool_pollSidebar reply now s : same_pool s (pollSidebar reply now s).
Proof.
  unfold pollSidebar. destruct reply as [data|?]; [|done]. by destruct (truthy data).
Qed.

Lemma same_pool_bootstrapOnce r now s : same_pool s (bootstrapOnce r now s).
Proof.
  unfold bootstrapOnce.
  eapply same_pool_trans; [|apply same_pool_pollSidebar].
  eapply same_pool_trans; [|apply same_pool_pollBanners].
  eapply same_pool_trans; [|apply same_pool_pollTopEvents].
  eapply same_pool_trans; [|apply same_pool_pollMatchLists].
  destruct (r_sports r) as [sports|?]; [|done]. by destruct (bool_decide _).
Qed.

Lemma same_pool_start r now s : same_pool s (start r now s).
Proof.
  unfold start. destruct (started s); [done|].
  pose proof (same_pool_bootstrapOnce r now (with_started true s)) as H.
  unfold same_pool in *. cbn in *. exact H.
Qed.

Lemma tick_guarded_same_pool s s' : same_pool s s' → tick_guarded s → tick_guarded s'.
Proof. unfold tick_guarded. intros (-> & _ & ->). done. Qed.

Lemma tick_guarded_stop s : tick_guarded s → tick_guarded (stop s).
Proof.
  destruct s as [cfg w co c st fl t1 t2 t3 t4 t5 tm nt pc].
  unfold stop. cbn [started negb]. destruct st; cbn [negb]; [|done].
  intros H. by destruct t1, t2, t3, t4, t5.
Qed.

(** Only a [TICK_COMPLETE] heard by the listener takes the flag down. *)
Lemma deliver_fields out : ∀ s,
  worker (deliver out s) = worker s ∧ coalescer (deliver out s) = coalescer s ∧
  cache (deliver out s) = cache s ∧ providerCalls (deliver out s) = providerCalls s ∧
  (Worker.TICK_COMPLETE ∉ out → deliver out s = s) ∧
  (oddsPollingActive s = true → oddsPollingActive (deliver out s) = false →
   Worker.TICK_COMPLETE ∈ out).
Proof.
  induction out as [|ev out IH]; intros s.
  { split; [done|]. split; [done|]. split; [done|]. split; [done|]. split; [done|].
    cbn. congruence. }
  cbn [deliver foldl]. fold (deliver out (on_emitted s ev)).
  destruct (IH (on_emitted s ev)) as (Hw & Hc & Hca & Hp & Hid & Hflag).
  assert (worker (on_emitted s ev) = worker s ∧ coalescer (on_emitted s ev) = coalescer s ∧
          cache (on_emitted s ev) = cache s ∧
          providerCalls (on_emitted s ev) = providerCalls s) as (Hw' & Hc' & Hca' & Hp').
  { unfold on_emitted. destruct (Worker.listening (worker s)); [|done]. by destruct ev. }
  split; [congruence|]. split; [congruence|]. split; [congruence|]. split; [congruence|].
  split.
  - intros Hnot. rewrite Hid.
    + unfold on_emitted. destruct (Worker.listening (worker s)); [|done].
      destruct ev; [done|]. exfalso. apply Hnot. apply elem_of_cons. by left.
    + intros Hin. apply Hnot. apply elem_of_cons. by right.
  - intros Ht Hf. destruct ev as [e b|].
    + apply elem_of_cons. right. apply Hflag; [|done].
      unfold on_emitted. by destruct (Worker.listening (worker s)).
    + apply elem_of_cons. by left.
Qed.

Lemma tick_guarded_resume_fetch i outcome now s :
  tick_guarded s →
  let '(s', out) := resume_fetch i outcome now s in
  tick_guarded s' ∧
  (oddsPollingActive s = true → oddsPollingActive s' = false →
   Worker.TICK_COMPLETE ∈ out).
Proof.
  intros [Hc Hg]. unfold resume_fetch.
  destruct (Worker.fetching (worker s) !! i) as [[e q]|] eqn:Hi.
  2:{ split; [done|]. congruence. }
  destruct (fetchOdds_resume outcome (gmid e) now (cache s)) as [success c'].
  pose proof (finish_spec launch i success (worker s) (coalescer s) Hc) as Hf.
  destruct (Worker.finish launch i success (worker s) (coalescer s)) as [[w' co'] out].
  destruct Hf as (Hc' & Hl & Hsome & _).
  set (s1 := with_worker w' (with_coalescer co' (with_cache c' s))).
  destruct (deliver_fields out s1) as (Hw & _ & _ & _ & Hid & Hflag).
  split.
  - split; [by rewrite Hw|]. rewrite Hw. cbn [worker with_worker s1].
    intros Hbusy.
    destruct (Hsome ltac:(by eexists)) as [(_ & Hq & Hfe & _)|[Hnot _]].
    + exfalso. destruct Hbusy as [?|?]; congruence.
    + rewrite (Hid Hnot). cbn. apply Hg. right. intros Hnil.
      by rewrite Hnil in Hi.
  - intros Ht Hfalse. by apply Hflag.
Qed.

Lemma tick_guarded_resume_waiters fuel p outcome now : ∀ s,
  tick_guarded s →
  let '(s', out) := resume_waiters fuel p outcome now s in
  tick_guarded s' ∧
  (oddsPollingActive s = true → oddsPollingActive s' = false →
   Worker.TICK_COMPLETE ∈ out).
Proof.
  induction fuel as [|fuel IH]; intros s Hs; cbn [resume_waiters].
  { split; [done|]. congruence. }
  destruct (first_waiter p (Worker.fetching (worker s))) as [i|].
  2:{ split; [done|]. congruence. }
  pose proof (tick_guarded_resume_fetch i outcome now s Hs) as H1.
  destruct (resume_fetch i outcome now s) as [s1 out1].
  destruct H1 as [Hs1 Hf1].
  specialize (IH s1 Hs1).
  destruct (resume_waiters fuel p outcome now s1) as [s2 out2].
  destruct IH as [Hs2 Hf2].
  split; [done|]. intros Ht Hfalse. apply elem_of_app.
  destruct (oddsPollingActive s1) eqn:H1.
  - right. by apply Hf2.
  - left. by apply Hf1.
Qed.

Lemma tick_guarded_oddsReply p reply now s :
  tick_guarded s →
  let '(s', out) := oddsReply p reply now s in
  tick_guarded s' ∧
  (oddsPollingActive s = true → oddsPollingActive s' = false →
   Worker.TICK_COMPLETE ∈ out).
Proof.
  intros Hs. unfold oddsReply.
  destruct (Coalescer.running (coalescer s) !! p) as [[key f]|].
  2:{ split; [done|]. congruence. }
  destruct (fetcher_result f reply now (cache s)) as [outcome c'].
  apply (tick_guarded_resume_waiters _ p outcome now
           (with_cache c' (with_coalescer (Coalescer.settle p outcome (coalescer s)) s))).
  exact Hs.
Qed.

Lemma tick_guarded_pollHotGmidOdds now s :
  tick_guarded s →
  let '(s', out) := pollHotGmidOdds now s in
  tick_guarded s' ∧ out = [] ∧
  (oddsPollingActive s = true → oddsPollingActive s' = true).
Proof.
  intros [Hc Hg]. unfold pollHotGmidOdds.
  destruct (oddsPollingActive s) eqn:Hflag; [done|].
  destruct (getHotGmids now (cache s)) as [hot c'].
  case_bool_decide as Hlen.
  { split; [|done]. split; [done|]. cbn. rewrite Hflag. exact Hg. }
  unfold Worker.emit_FETCH_ODDS. cbn [worker with_cache with_oddsPollingActive coalescer].
  destruct (Worker.listening (worker s)).
  - pose proof (enqueue_nonempty launch hot (worker s) (coalescer s) Hc) as He.
    pose proof (enqueue_spec launch hot (worker s) (coalescer s) Hc) as Hs.
    destruct (Worker.enqueue launch hot (worker s) (coalescer s)) as [[w' co'] out].
    destruct He as [-> Hbusy]; [by destruct hot|].
    destruct Hs as (Hc' & _ & _).
    split; [|done]. cbn [deliver foldl]. by split.
  - split; [|done]. cbn [deliver foldl]. split; [done|]. done.
Qed.

Lemma tick_guarded_step s te :
  tick_guarded s →
  tick_guarded (step s te) ∧
  (oddsPollingActive s = true → oddsPollingActive (step s te) = false →
   Worker.TICK_COMPLETE ∈ (step_out s te).2).
Proof.
  intros Hs. destruct te as [now ev]. unfold step, step_out. cbn [fst snd].
  assert (∀ s', same_pool s s' →
            tick_guarded s' ∧
            (oddsPollingActive s = true → oddsPollingActive s' = false →
             Worker.TICK_COMPLETE ∈ (@nil (Worker.Emitted HotGmidEntry)))) as Hframe.
  { intros s' Hp. split; [by eapply tick_guarded_same_pool|].
    destruct Hp as (_ & _ & ->). congruence. }
  destruct ev as [r| | |reply|reply|reply|reply|g sport|g sport|p reply|key|key v ttl|key| ];
    cbn [fst snd].
  - apply Hframe, same_pool_start.
  - split; [by apply tick_guarded_stop|].
    destruct s as [cfg w co c st fl t1 t2 t3 t4 t5 tm nt pc].
    unfold stop. cbn [started negb oddsPollingActive].
    destruct st; cbn [negb oddsPollingActive]; [|congruence].
    destruct t1, t2, t3, t4, t5; cbn; congruence.
  - destruct (fires PollHotGmidOdds s); [|by apply Hframe].
    pose proof (tick_guarded_pollHotGmidOdds now s Hs) as H.
    destruct (pollHotGmidOdds now s) as [s' out]. destruct H as (H1 & -> & H3).
    split; [done|]. cbn [fst snd]. intros Ht Hf. rewrite (H3 Ht) in Hf. done.
  - destruct (fires PollMatchLists s); apply Hframe;
      [apply same_pool_pollMatchLists|done].
  - destruct (fires PollTopEvents s); apply Hframe;
      [apply same_pool_pollTopEvents|done].
  - destruct (fires PollBanners s); apply Hframe;
      [apply same_pool_pollBanners|done].
  - destruct (fires PollSidebar s); apply Hframe;
      [apply same_pool_pollSidebar|done].
  - by apply Hframe.
  - unfold getCoalescedOdds.
    destruct (Coalescer.coalesce _ _ (coalescer s)) as [p co] eqn:Hco. cbn [snd].
    split; [exact Hs|]. cbn. congruence.
  - pose proof (tick_guarded_oddsReply p reply now s Hs) as H.
    by destruct (oddsReply p reply now s) as [s' out].
  - by apply Hframe.
  - by apply Hframe.
  - by apply Hframe.
  - by apply Hframe.
Qed.

Lemma tick_guarded_create cfg c : tick_guarded (create cfg c).
Proof.
  split; [apply counted_idle|]. intros [H|H]; by destruct H.
Qed.

Lemma tick_guarded_run trace : ∀ s, tick_guarded s → tick_guarded (run s trace).
Proof.
  induction trace as [|te trace IH]; intros s Hs; [done|].
  cbn [run foldl]. apply IH. by apply tick_guarded_step.
Qed.

End ExchangeFacts.

(** X30.  With the in-memory cache, where a tick resumes from
    [getHotGmids] within its own turn of the event loop, the odds tier never
    has two ticks enqueuing at once.  In every state the scheduler can reach
    there: a tick that finds [oddsPollingActive] set returns at once and
    changes nothing; a tick that finds it clear and the hot set non-empty
    sets it and hands exactly the hot entries to the worker, which queues or
    starts each of them; the flag goes from set to clear only in a step in
    which the worker emitted [TICK_COMPLETE]; hence a tick adds nothing to
    the worker while entries of an earlier tick are queued or being fetched;
    and a tick that finds the hot set empty leaves worker, coalescer and
    flag as they were and calls no provider. *)
Theorem odds_tick_non_overlap (cfg : Exchange.ExchangePollConfig)
  (c0 : InMemory.InMemoryCacheService) (trace : list (Z * Exchange.Event)) :
  let s := Exchange.run (Exchange.create cfg c0) trace in
  (∀ now, Exchange.oddsPollingActive s = true →
          Exchange.pollHotGmidOdds now s = (s, [])) ∧
  (∀ now, Exchange.oddsPollingActive s = false →
          (Exchange.getHotGmids now (Exchange.cache s)).1 ≠ [] →
     let s' := (Exchange.pollHotGmidOdds now s).1 in
     Exchange.oddsPollingActive s' = true ∧
     (Exchange.worker s', Exchange.coalescer s') =
       (Worker.emit_FETCH_ODDS Exchange.launch
          (Exchange.getHotGmids now (Exchange.cache s)).1
          (Exchange.worker s) (Exchange.coalescer s)).1 ∧
     (Worker.listening (Exchange.worker s) = true →
      (Worker.fetching (Exchange.worker s')).*1 ++ Worker.queue (Exchange.worker s')
        = (Exchange.getHotGmids now (Exchange.cache s)).1)) ∧
  (∀ te, Exchange.oddsPollingActive s = true →
         Exchange.oddsPollingActive (Exchange.step s te) = false →
         Worker.TICK_COMPLETE ∈ (Exchange.step_out s te).2) ∧
  (∀ now, Worker.busy (Exchange.worker s) →
          Exchange.pollHotGmidOdds now s = (s, [])) ∧
  (∀ now, (Exchange.getHotGmids now (Exchange.cache s)).1 = [] →
     let s' := (Exchange.pollHotGmidOdds now s).1 in
     Exchange.worker s' = Exchange.worker s ∧
     Exchange.coalescer s' = Exchange.coalescer s ∧
     Exchange.oddsPollingActive s' = Exchange.oddsPollingActive s ∧
     Exchange.providerCalls s' = Exchange.providerCalls s ∧
     (Exchange.pollHotGmidOdds now s).2 = []).
Proof.
  intros s.
  assert (Exchange.tick_guarded s) as Hs.
  { apply tick_guarded_run, tick_guarded_create. }
  assert (∀ now, Exchange.oddsPollingActive s = true →
                 Exchange.pollHotGmidOdds now s = (s, [])) as Hskip.
  { intros now Hflag. unfold Exchange.pollHotGmidOdds. by rewrite Hflag. }
  split; [exact Hskip|]. split; [|split; [|split]].
  - intros now Hflag Hhot s'.
    destruct Hs as [Hc Hg].
    assert (Worker.queue (Exchange.worker s) = [] ∧
            Worker.fetching (Exchange.worker s) = []) as [Hq Hf].
    { split.
      - destruct (Worker.queue (Exchange.worker s)) eqn:E; [done|].
        rewrite Hg in Hflag; [done|]. left. by rewrite E.
      - destruct (Worker.fetching (Exchange.worker s)) eqn:E; [done|].
        rewrite Hg in Hflag; [done|]. right. by rewrite E. }
    unfold s', Exchange.pollHotGmidOdds. rewrite Hflag.
    destruct (Exchange.getHotGmids now (Exchange.cache s)) as [hot c'].
    cbn [fst] in Hhot. cbn [fst].
    rewrite bool_decide_eq_false_2 by (by destruct hot).
    cbn [Exchange.worker Exchange.coalescer Exchange.with_cache
         Exchange.with_oddsPollingActive].
    unfold Worker.emit_FETCH_ODDS.
    destruct (Worker.listening (Exchange.worker s)).
    + pose proof (enqueue_nonempty Exchange.launch hot (Exchange.worker s)
                    (Exchange.coalescer s) Hc Hhot) as He.
      pose proof (enqueue_partition Exchange.launch hot (Exchange.worker s)
                    (Exchange.coalescer s) Hhot) as Hp.
      destruct (Worker.enqueue Exchange.launch hot (Exchange.worker s)
                  (Exchange.coalescer s)) as [[w' co'] out].
      destruct He as [-> _]. cbn [fst Exchange.deliver foldl].
      split; [done|]. split; [done|]. intros _.
      cbn [Exchange.worker Exchange.with_worker]. rewrite Hp, Hq, Hf. done.
    + cbn [fst Exchange.deliver foldl]. split; [done|]. split; [done|]. done.
  - intros te. by apply tick_guarded_step.
  - intros now Hbusy. apply Hskip. destruct Hs as [_ Hg]. by apply Hg.
  - intros now Hhot s'. unfold s', Exchange.pollHotGmidOdds.
    destruct (Exchange.oddsPollingActive s) eqn:Hflag; [done|].
    destruct (Exchange.getHotGmids now (Exchange.cache s)) as [hot c'].
    cbn [fst] in Hhot. subst hot. done.
Qed.

(** ** Settlement of a coalesced odds fetch reaches every waiting call *)

Section ResumeFacts.
Import Exchange.
Implicit Types s : ExchangePollingScheduler.
Implicit Types co : Coalescer.RequestCoalescer Fetcher.

Lemma launch_consistent e co :
  Coalescer.consistent co → Coalescer.consistent (launch e co).2 ∧ True.
Proof. intros Hc. split; [|done]. by apply consistent_coalesce. Qed.

Lemma launch_retired p e co :
  Coalescer.consistent co ∧ retired p co →
  (Coalescer.consistent (launch e co).2 ∧ retired p (launch e co).2) ∧
  (launch e co).1 ≠ p.
Proof.
  intros [Hc [Hrun Hlt]]. split; [split|].
  - by apply consistent_coalesce.
  - unfold launch, Coalescer.coalesce.
    destruct (Coalescer.inFlight co !! _) as [existing|]; [done|].
    split; cbn [snd Coalescer.running Coalescer.nextPromise]; [|lia].
    rewrite lookup_insert_ne by lia. done.
  - unfold launch, Coalescer.coalesce.
    destruct (Coalescer.inFlight co !! _) as [existing|] eqn:Hk; cbn [fst].
    + destruct Hc as (H1 & _ & _). apply H1 in Hk as [f Hf]. congruence.
    + lia.
Qed.

Lemma first_waiter_Some p l i :
  first_waiter p l = Some i → ∃ e, l !! i = Some (e, p).
Proof.
  revert i. induction l as [|[e q] l IH]; intros i; cbn [first_waiter]; [done|].
  destruct (Nat.eqb p q) eqn:Hpq.
  - intros [= <-]. apply Nat.eqb_eq in Hpq as ->. by exists e.
  - destruct (first_waiter p l) as [j|]; [|done]. cbn. intros [= <-].
    by apply IH.
Qed.

Lemma first_waiter_None p l : first_waiter p l = None → waiters p l = 0%nat.
Proof.
  unfold waiters. induction l as [|[e q] l IH]; cbn [first_waiter List.filter snd]; [done|].
  destruct (Nat.eqb p q); [done|].
  destruct (first_waiter p l); [done|]. intros _. by apply IH.
Qed.

Lemma waiters_app p l1 l2 : waiters p (l1 ++ l2) = (waiters p l1 + waiters p l2)%nat.
Proof. unfold waiters. by rewrite List.filter_app, length_app. Qed.

Lemma waiters_others p l : Forall (fun x => x.2 ≠ p) l → waiters p l = 0%nat.
Proof.
  unfold waiters. induction 1 as [|[e q] l Hq _ IH]; [done|].
  cbn [List.filter snd]. cbn [snd] in Hq.
  destruct (Nat.eqb p q) eqn:E; [|done]. apply Nat.eqb_eq in E. congruence.
Qed.

Lemma waiters_delete p l : ∀ i e,
  l !! i = Some (e, p) → S (waiters p (delete i l)) = waiters p l.
Proof.
  unfold waiters. induction l as [|[e' q] l IH]; intros i e Hi; [done|].
  destruct i as [|i]; cbn in Hi.
  - injection Hi as -> ->. cbn [delete list_delete List.filter snd].
    by rewrite Nat.eqb_refl.
  - cbn [delete list_delete List.filter snd].
    destruct (Nat.eqb p q); cbn [length]; by rewrite <- (IH i e Hi).
Qed.

Lemma waiters_le_length p l : (waiters p l ≤ length l)%nat.
Proof. unfold waiters. apply List.filter_length_le. Qed.

Lemma deliver_coalescer out s : coalescer (deliver out s) = coalescer s.
Proof. by destruct (deliver_fields out s) as (_ & -> & _). Qed.

Lemma deliver_worker out s : worker (deliver out s) = worker s.
Proof. by destruct (deliver_fields out s) as (-> & _). Qed.

Lemma resume_fetch_retired p i outcome now s e :
  Worker.fetching (worker s) !! i = Some (e, p) →
  Coalescer.consistent (coalescer s) → retired p (coalescer s) →
  let s' := (resume_fetch i outcome now s).1 in
  Coalescer.consistent (coalescer s') ∧ retired p (coalescer s') ∧
  S (waiters p (Worker.fetching (worker s'))) = waiters p (Worker.fetching (worker s)).
Proof.
  intros Hi Hc Hr. unfold resume_fetch. rewrite Hi.
  destruct (fetchOdds_resume outcome (gmid e) now (cache s)) as [success c'].
  pose proof (finish_launched launch
                (fun co => Coalescer.consistent co ∧ retired p co) (fun q => q ≠ p)
                (launch_retired p) i success (worker s) (coalescer s) (conj Hc Hr)) as Hf.
  destruct (Worker.finish launch i success (worker s) (coalescer s)) as [[w' co'] out].
  destruct Hf as ([Hc' Hr'] & extra & Hfetch & Hextra).
  cbn [fst]. rewrite deliver_coalescer, deliver_worker.
  cbn [coalescer worker with_worker with_coalescer with_cache].
  split; [done|]. split; [done|].
  rewrite Hfetch, Hi, waiters_app, (waiters_others p extra Hextra), Nat.add_0_r.
  by eapply waiters_delete.
Qed.

Lemma resume_waiters_retired fuel p outcome now : ∀ s,
  Coalescer.consistent (coalescer s) → retired p (coalescer s) →
  (waiters p (Worker.fetching (worker s)) ≤ fuel)%nat →
  let s' := (resume_waiters fuel p outcome now s).1 in
  Coalescer.consistent (coalescer s') ∧
  waiters p (Worker.fetching (worker s')) = 0%nat.
Proof.
  induction fuel as [|fuel IH]; intros s Hc Hr Hfuel; cbn [resume_waiters].
  { cbn [fst]. split; [done|lia]. }
  destruct (first_waiter p (Worker.fetching (worker s))) as [i|] eqn:Hfirst.
  2:{ cbn [fst]. split; [done|]. by apply first_waiter_None. }
  destruct (first_waiter_Some _ _ _ Hfirst) as [e Hi].
  pose proof (resume_fetch_retired p i outcome now s e Hi Hc Hr) as H1.
  destruct (resume_fetch i outcome now s) as [s1 out1]. cbn [fst] in H1.
  destruct H1 as (Hc1 & Hr1 & Hw).
  specialize (IH s1 Hc1 Hr1 ltac:(lia)).
  by destruct (resume_waiters fuel p outcome now s1) as [s2 out2].
Qed.

(** When the provider answers the call behind a promise, every [fetchOdds]
    call of the worker that awaits the promise resumes: the bound on the
    rounds of [resume_waiters] is never what ends it. *)
Lemma oddsReply_resumes_every_waiter p reply now s :
  Coalescer.consistent (coalescer s) →
  is_Some (Coalescer.running (coalescer s) !! p) →
  let s' := (oddsReply p reply now s).1 in
  Coalescer.consistent (coalescer s') ∧
  waiters p (Worker.fetching (worker s')) = 0%nat.
Proof.
  intros Hc [[key f] Hp]. unfold oddsReply. rewrite Hp.
  destruct (fetcher_result f reply now (cache s)) as [outcome c'].
  apply resume_waiters_retired; cbn [coalescer worker with_cache with_coalescer].
  - by apply consistent_settle.
  - destruct Hc as (_ & H2 & _). unfold retired, Coalescer.settle. rewrite Hp.
    cbn [Coalescer.running Coalescer.nextPromise]. split; [apply lookup_delete_eq|].
    apply H2. left. by eexists.
  - apply waiters_le_length.
Qed.

Lemma elem_of_pool_calls p co :
  p ∈ pool_calls co ↔ ∃ key g sport, Coalescer.running co !! p = Some (key, PlainOdds g sport).
Proof.
  unfold pool_calls. rewrite list_elem_of_fmap. split.
  - intros [[q [key f]] [-> Hin]]. apply elem_of_map_to_list in Hin.
    apply map_lookup_filter_Some in Hin as [Hq Hplain]. cbn in *.
    destruct f as [g sport|g sport]; [|done]. by exists key, g, sport.
  - intros (key & g & sport & Hp). exists (p, (key, PlainOdds g sport)).
    split; [done|]. apply elem_of_map_to_list, map_lookup_filter_Some. by split.
Qed.

Lemma pool_calls_bounded co l :
  pool_calls_awaited co l → (length (pool_calls co) ≤ length l)%nat.
Proof.
  intros Haw. rewrite <- (length_fmap snd l).
  apply List.NoDup_incl_length.
  - apply NoDup_ListNoDup. unfold pool_calls. apply NoDup_fst_map_to_list.
  - intros p Hp. apply list_elem_of_In, Haw. by apply list_elem_of_In.
Qed.

Lemma launch_awaited e co started :
  pool_calls_awaited co started →
  pool_calls_awaited (launch e co).2 (started ++ [(e, (launch e co).1)]).
Proof.
  intros Haw p Hp. rewrite fmap_app, elem_of_app. cbn.
  apply elem_of_pool_calls in Hp as (key & g & sport & Hp).
  revert Hp. unfold launch, Coalescer.coalesce.
  destruct (Coalescer.inFlight co !! _) as [existing|]; cbn [fst snd Coalescer.running].
  - intros Hp. left. apply Haw, elem_of_pool_calls. by exists key, g, sport.
  - destruct (decide (p = Coalescer.nextPromise co)) as [->|Hne].
    + intros _. right. by apply list_elem_of_singleton.
    + rewrite lookup_insert_ne by done. intros Hp. left.
      apply Haw, elem_of_pool_calls. by exists key, g, sport.
Qed.

Lemma drain_loop_awaited q : ∀ active started co,
  pool_calls_awaited co started →
  let '(_, _, started', co') := Worker.drain_loop launch q active started co in
  pool_calls_awaited co' started'.
Proof.
  induction q as [|e q IH]; intros active started co Haw; cbn [Worker.drain_loop]; [done|].
  destruct (active <? Worker.MAX_CONCURRENCY); [|done].
  pose proof (launch_awaited e co started Haw) as H.
  destruct (launch e co) as [p co']. cbn [fst snd] in H.
  by apply IH.
Qed.

Lemma drain_awaited w co :
  pool_calls_awaited co (Worker.fetching w) →
  let '(w', co', _) := Worker.drain launch w co in
  pool_calls_awaited co' (Worker.fetching w').
Proof.
  intros Haw. unfold Worker.drain.
  destruct (Worker.processing w && Worker.is_empty (Worker.queue w) &&
            (Worker.activeCount w =? 0)); [done|].
  pose proof (drain_loop_awaited (Worker.queue w) (Worker.activeCount w)
                (Worker.fetching w) co Haw) as H.
  destruct (Worker.drain_loop launch (Worker.queue w) (Worker.activeCount w)
              (Worker.fetching w) co) as [[[q' active'] started'] co'].
  by destruct (Worker.is_empty q' && (active' =? 0)).
Qed.

Lemma delete_keeps_others (l : list (HotGmidEntry * nat)) i e p q :
  l !! i = Some (e, p) → q ≠ p → q ∈ l.*2 → q ∈ (delete i l).*2.
Proof.
  intros Hi Hne. rewrite <- (take_drop_middle l i (e, p) Hi) at 1.
  rewrite delete_take_drop, !fmap_app, !elem_of_app. cbn.
  rewrite elem_of_cons. intros [?|[?|?]]; [by left|done|by right].
Qed.

Lemma finish_awaited i success w co e p :
  Worker.fetching w !! i = Some (e, p) →
  retired p co →
  pool_calls_awaited co (Worker.fetching w) →
  let '(w', co', _) := Worker.finish launch i success w co in
  pool_calls_awaited co' (Worker.fetching w').
Proof.
  intros Hi [Hrun _] Haw. unfold Worker.finish. rewrite Hi.
  pose proof (drain_awaited
                (Worker.mkWorker (Worker.activeCount w - 1) (Worker.queue w)
                   (Worker.processing w) (Worker.listening w)
                   (delete i (Worker.fetching w))) co) as H.
  destruct (Worker.drain launch _ co) as [[w' co'] out].
  apply H. cbn [Worker.fetching]. intros q Hq.
  eapply delete_keeps_others; [done| |by apply Haw].
  intros ->. apply elem_of_pool_calls in Hq as (key & g & sport & Hq). congruence.
Qed.

Lemma resume_fetch_awaited p i outcome now s e :
  Worker.fetching (worker s) !! i = Some (e, p) →
  retired p (coalescer s) →
  pool_calls_awaited (coalescer s) (Worker.fetching (worker s)) →
  let s' := (resume_fetch i outcome now s).1 in
  pool_calls_awaited (coalescer s') (Worker.fetching (worker s')).
Proof.
  intros Hi Hr Haw. unfold resume_fetch. rewrite Hi.
  destruct (fetchOdds_resume outcome (gmid e) now (cache s)) as [success c'].
  pose proof (finish_awaited i success (worker s) (coalescer s) e p Hi Hr Haw) as Hf.
  destruct (Worker.finish launch i success (worker s) (coalescer s)) as [[w' co'] out].
  cbn [fst]. by rewrite deliver_coalescer, deliver_worker.
Qed.

Lemma resume_waiters_awaited fuel p outcome now : ∀ s,
  Coalescer.consistent (coalescer s) → retired p (coalescer s) →
  pool_calls_awaited (coalescer s) (Worker.fetching (worker s)) →
  let s' := (resume_waiters fuel p outcome now s).1 in
  pool_calls_awaited (coalescer s') (Worker.fetching (worker s')).
Proof.
  induction fuel as [|fuel IH]; intros s Hc Hr Haw; cbn [resume_waiters]; [done|].
  destruct (first_waiter p (Worker.fetching (worker s))) as [i|] eqn:Hfirst; [|done].
  destruct (first_waiter_Some _ _ _ Hfirst) as [e Hi].
  pose proof (resume_fetch_retired p i outcome now s e Hi Hc Hr) as H1.
  pose proof (resume_fetch_awaited p i outcome now s e Hi Hr Haw) as H2.
  destruct (resume_fetch i outcome now s) as [s1 out1]. cbn [fst] in H1, H2.
  destruct H1 as (Hc1 & Hr1 & _).
  specialize (IH s1 Hc1 Hr1 H2).
  by destruct (resume_waiters fuel p outcome now s1) as [s2 out2].
Qed.

Lemma oddsReply_awaited p reply now s :
  Coalescer.consistent (coalescer s) →
  pool_calls_awaited (coalescer s) (Worker.fetching (worker s)) →
  let s' := (oddsReply p reply now s).1 in
  pool_calls_awaited (coalescer s') (Worker.fetching (worker s')).
Proof.
  intros Hc Haw. unfold oddsReply.
  destruct (Coalescer.running (coalescer s) !! p) as [[key f]|] eqn:Hp; [|done].
  destruct (fetcher_result f reply now (cache s)) as [outcome c'].
  apply resume_waiters_awaited; cbn [coalescer worker with_cache with_coalescer].
  - by apply consistent_settle.
  - destruct Hc as (_ & H2 & _). unfold retired, Coalescer.settle. rewrite Hp.
    cbn [Coalescer.running Coalescer.nextPromise]. split; [apply lookup_delete_eq|].
    apply H2. left. by eexists.
  - intros q Hq. apply Haw. apply elem_of_pool_calls in Hq as (k & g & sp & Hq).
    apply elem_of_pool_calls. exists k, g, sp.
    unfold Coalescer.settle in Hq. rewrite Hp in Hq. cbn [Coalescer.running] in Hq.
    destruct (decide (q = p)) as [->|Hne]; [by rewrite lookup_delete_eq in Hq|].
    by rewrite lookup_delete_ne in Hq.
Qed.

Lemma pool_calls_awaited_step s te :
  Coalescer.consistent (coalescer s) →
  pool_calls_awaited (coalescer s) (Worker.fetching (worker s)) →
  pool_calls_awaited (coalescer (step s te)) (Worker.fetching (worker (step s te))).
Proof.
  intros Hc Haw. destruct te as [now ev]. unfold step, step_out. cbn [fst snd].
  assert (∀ s', same_pool s s' →
            pool_calls_awaited (coalescer s') (Worker.fetching (worker s'))) as Hframe.
  { intros s' (-> & -> & _). done. }
  destruct ev as [r| | |reply|reply|reply|reply|g sport|g sport|p reply|key|key v ttl|key| ];
    cbn [fst snd].
  - apply Hframe, same_pool_start.
  - destruct s as [cfg w co c st fl t1 t2 t3 t4 t5 tm nt pc].
    unfold stop. cbn [started negb]. destruct st; cbn [negb]; [|done].
    by destruct t1, t2, t3, t4, t5.
  - destruct (fires PollHotGmidOdds s); [|done].
    unfold pollHotGmidOdds. destruct (oddsPollingActive s); [done|].
    destruct (getHotGmids now (cache s)) as [hot c']. case_bool_decide as Hlen; [done|].
    cbn [worker coalescer with_cache with_oddsPollingActive].
    unfold Worker.emit_FETCH_ODDS, Worker.enqueue.
    destruct (Worker.listening (worker s)); [|done].
    pose proof (drain_awaited
                  (Worker.mkWorker (Worker.activeCount (worker s))
                     (Worker.queue (worker s) ++ hot) (Worker.processing (worker s))
                     true (Worker.fetching (worker s))) (coalescer s) Haw) as H.
    destruct (Worker.drain launch _ (coalescer s)) as [[w' co'] out].
    cbn [fst]. by rewrite deliver_coalescer, deliver_worker.
  - destruct (fires PollMatchLists s); apply Hframe;
      [apply same_pool_pollMatchLists|done].
  - destruct (fires PollTopEvents s); apply Hframe;
      [apply same_pool_pollTopEvents|done].
  - destruct (fires PollBanners s); apply Hframe;
      [apply same_pool_pollBanners|done].
  - destruct (fires PollSidebar s); apply Hframe;
      [apply same_pool_pollSidebar|done].
  - done.
  - unfold getCoalescedOdds, Coalescer.coalesce.
    destruct (Coalescer.inFlight (coalescer s) !! _) as [existing|]; [done|].
    cbn [snd coalescer worker with_coalescer]. intros q Hq. apply Haw.
    apply elem_of_pool_calls in Hq as (k & g' & sp & Hq). cbn [Coalescer.running] in Hq.
    apply elem_of_pool_calls. exists k, g', sp.
    destruct (decide (q = Coalescer.nextPromise (coalescer s))) as [->|Hne].
    + rewrite lookup_insert_eq in Hq. congruence.
    + by rewrite lookup_insert_ne in Hq.
  - by apply oddsReply_awaited.
  - done.
  - done.
  - done.
  - done.
Qed.

Lemma coalescer_consistent_step s te :
  Coalescer.consistent (coalescer s) → Coalescer.consistent (coalescer (step s te)).
Proof.
  intros Hc. destruct te as [now ev]. unfold step, step_out. cbn [fst snd].
  assert (∀ s', same_pool s s' → Coalescer.consistent (coalescer s')) as Hframe.
  { intros s' (_ & -> & _). done. }
  destruct ev as [r| | |reply|reply|reply|reply|g sport|g sport|p reply|key|key v ttl|key| ];
    cbn [fst snd].
  - apply Hframe, same_pool_start.
  - destruct s as [cfg w co c st fl t1 t2 t3 t4 t5 tm nt pc].
    unfold stop. cbn [started negb]. destruct st; cbn [negb]; [|done].
    by destruct t1, t2, t3, t4, t5.
  - destruct (fires PollHotGmidOdds s); [|done].
    unfold pollHotGmidOdds. destruct (oddsPollingActive s); [done|].
    destruct (getHotGmids now (cache s)) as [hot c']. case_bool_decide; [done|].
    cbn [worker coalescer with_cache with_oddsPollingActive].
    pose proof (emit_launched launch (fun co => Coalescer.consistent co) (fun _ => True)
                  launch_consistent hot (worker s) (coalescer s) Hc) as He.
    destruct (Worker.emit_FETCH_ODDS launch hot (worker s) (coalescer s)) as [[w' co'] out].
    cbn [fst]. rewrite deliver_coalescer. by destruct He.
  - destruct (fires PollMatchLists s); apply Hframe;
      [apply same_pool_pollMatchLists|done].
  - destruct (fires PollTopEvents s); apply Hframe;
      [apply same_pool_pollTopEvents|done].
  - destruct (fires PollBanners s); apply Hframe;
      [apply same_pool_pollBanners|done].
  - destruct (fires PollSidebar s); apply Hframe;
      [apply same_pool_pollSidebar|done].
  - done.
  - unfold getCoalescedOdds.
    pose proof (consistent_coalesce ("odds:" +:+ g) (CachingOdds g (JNum sport))
                  (coalescer s) Hc) as H.
    by destruct (Coalescer.coalesce _ _ (coalescer s)) as [p co].
  - destruct (Coalescer.running (coalescer s) !! p) as [kf|] eqn:Hp.
    + by apply oddsReply_resumes_every_waiter.
    + unfold oddsReply. by rewrite Hp.
  - done.
  - done.
  - done.
  - done.
Qed.

Lemma coalescer_consistent_run trace cfg c0 :
  Coalescer.consistent (coalescer (run (create cfg c0) trace)).
Proof.
  unfold run. assert (Coalescer.consistent (coalescer (create cfg c0))) as H
    by apply consistent_empty.
  revert H. generalize (create cfg c0) as s.
  induction trace as [|te trace IH]; intros s Hs; [done|].
  cbn [foldl]. apply IH. by apply coalescer_consistent_step.
Qed.

Lemma pool_calls_awaited_run trace cfg c0 :
  let s := run (create cfg c0) trace in
  pool_calls_awaited (coalescer s) (Worker.fetching (worker s)).
Proof.
  unfold run.
  assert (Coalescer.consistent (coalescer (create cfg c0)) ∧
          pool_calls_awaited (coalescer (create cfg c0))
            (Worker.fetching (worker (create cfg c0)))) as H.
  { split; [apply consistent_empty|]. intros p Hp.
    apply elem_of_pool_calls in Hp as (k & g & sp & Hp). cbn in Hp.
    by rewrite lookup_empty in Hp. }
  revert H. generalize (create cfg c0) as s.
  induction trace as [|te trace IH]; intros s [Hc Haw]; [done|].
  cbn [foldl]. apply IH. split.
  - by apply coalescer_consistent_step.
  - by apply pool_calls_awaited_step.
Qed.

End ResumeFacts.

(** C3.  [MAX_CONCURRENCY] is 5, and whatever batches are handed to an
    [OddsFetchWorker] and in whatever order its fetches complete, its
    [activeCount] is the number of fetches it has started and not seen
    complete, and lies between 0 and 5; the same holds after every
    iteration of the [while] loop of a [drain] that starts within the
    bound, and for the worker of the exchange scheduler in every state
    that scheduler can reach, where moreover each provider call made by
    the worker and still executing is awaited by one of those fetches, so
    that at most 5 of them execute at a time. *)
Theorem worker_pool_concurrency_bound {E R : Type} (launch : E → R → nat * R)
  (r0 : R) (actions : list (Worker.Action E)) :
  let w := (Worker.run launch r0 actions).1 in
  Worker.MAX_CONCURRENCY = 5 ∧
  Worker.activeCount w = Z.of_nat (length (Worker.fetching w)) ∧
  0 ≤ Worker.activeCount w ≤ 5 ∧
  (∀ q active started r,
     active = Z.of_nat (length started) → 0 ≤ active ≤ 5 →
     let '(_, active', started', _) := Worker.drain_loop launch q active started r in
     active' = Z.of_nat (length started') ∧ 0 ≤ active' ≤ 5) ∧
  (∀ cfg c0 trace,
     let s := Exchange.run (Exchange.create cfg c0) trace in
     let pool := Exchange.worker s in
     Worker.activeCount pool = Z.of_nat (length (Worker.fetching pool)) ∧
     0 ≤ Worker.activeCount pool ≤ 5 ∧
     (∀ p, p ∈ Exchange.pool_calls (Exchange.coalescer s) →
           p ∈ (Worker.fetching pool).*2) ∧
     (length (Exchange.pool_calls (Exchange.coalescer s)) ≤ 5)%nat).
Proof.
  intros w.
  assert (Worker.counted w) as [Hlen Hb].
  { apply counted_foldl. apply counted_idle. }
  split; [done|]. split; [done|]. split; [done|]. split.
  - intros q active started r Ha Hab.
    pose proof (drain_loop_spec launch q active started r Ha Hab) as H.
    destruct (Worker.drain_loop launch q active started r) as [[[q' active'] started'] r'].
    destruct H as (H1 & H2 & _). unfold Worker.MAX_CONCURRENCY in H2. split; [done|lia].
  - intros cfg c0 trace s pool.
    destruct (tick_guarded_run trace (Exchange.create cfg c0)
                (tick_guarded_create cfg c0)) as [[H1 H2] _].
    pose proof (pool_calls_awaited_run trace cfg c0) as Haw.
    split; [done|]. split; [done|]. split; [exact Haw|].
    pose proof (pool_calls_bounded _ _ Haw) as Hle.
    fold s in H1, H2, Hle. fold pool in H1, H2, Hle.
    unfold Worker.MAX_CONCURRENCY in H2. lia.
Qed.

Lemma worker_pool_concurrency_bound_witness :
  let '(_, active', started', _) :=
    Worker.drain_loop Prefetch.launch ["a"; "b"; "c"; "d"; "e"; "f"; "g"] 0 [] 0%nat in
  active' = Z.of_nat (length started') ∧ 0 ≤ active' ≤ 5.
Proof.
  destruct (worker_pool_concurrency_bound Prefetch.launch 0%nat
              [Worker.Emit_FETCH_ODDS ["a"; "b"; "c"; "d"; "e"; "f"; "g"];
               Worker.Finish 0%nat true]) as (_ & _ & _ & Hloop & _).
  apply (Hloop ["a"; "b"; "c"; "d"; "e"; "f"; "g"] 0 [] 0%nat); [reflexivity|lia].
Defined.

(** ** Lifecycle *)

Section LifecycleFacts.
Import Exchange.
Implicit Types s : ExchangePollingScheduler.

Lemma polled_refl s : polled s s.
Proof. by destruct s. Qed.

Lemma polled_trans s1 s2 s3 : polled s1 s2 → polled s2 s3 → polled s1 s3.
Proof.
  unfold polled, with_providerCalls, with_cache. destruct s1, s2, s3. cbn.
  intros H12 H23. injection H12. injection H23. intros. subst. reflexivity.
Qed.

Lemma polled_with_cache c s : polled s (with_cache c s).
Proof. by destruct s. Qed.

Lemma polled_with_providerCalls l s : polled s (with_providerCalls l s).
Proof. by destruct s. Qed.

Lemma polled_poll_one reply now s sport : polled s (poll_one_match_list reply now s sport).
Proof.
  unfold poll_one_match_list.
  destruct (reply sport) as [data|?]; [destruct (truthy data)|]; by destruct s.
Qed.

Lemma polled_pollMatchLists reply now s : polled s (pollMatchLists reply now s).
Proof.
  unfold pollMatchLists. generalize POLL_SPORT_IDS as ids.
  intros ids. revert s. induction ids as [|sport ids IH]; intros s; [apply polled_refl|].
  cbn [foldl]. eapply polled_trans; [apply polled_poll_one|apply IH].
Qed.

Lemma polled_pollTopEvents reply now s : polled s (pollTopEvents reply now s).
Proof.
  unfold pollTopEvents.
  destruct reply as [events|?]; [destruct (bool_decide _)|]; by destruct s.
Qed.

Lemma polled_pollBanners reply now s : polled s (pollBanners reply now s).
Proof.
  unfold pollBanners.
  destruct reply as [data|?]; [destruct (truthy data)|]; by destruct s.
Qed.

Lemma polled_pollSidebar reply now s : polled s (pollSidebar reply now s).
Proof.
  unfold pollSidebar.
  destruct reply as [data|?]; [destruct (truthy data)|]; by destruct s.
Qed.

Lemma polled_bootstrapOnce r now s : polled s (bootstrapOnce r now s).
Proof.
  unfold bootstrapOnce.
  eapply polled_trans; [|apply polled_pollSidebar].
  eapply polled_trans; [|apply polled_pollBanners].
  eapply polled_trans; [|apply polled_pollTopEvents].
  eapply polled_trans; [|apply polled_pollMatchLists].
  destruct (r_sports r) as [sports|?]; [destruct (bool_decide _)|]; by destruct s.
Qed.

Lemma started_start r now s : started (start r now s) = true.
Proof.
  unfold start. destruct (started s) eqn:Hs; [done|].
  pose proof (polled_bootstrapOnce r now (with_started true s)) as H.
  cbn. rewrite H. done.
Qed.

Lemma started_stop s : started (stop s) = false.
Proof.
  unfold stop. destruct (started s) eqn:Hs; cbn [negb]; [done|done].
Qed.

Lemma prefetch_started_start reply now (s : Prefetch.DataPrefetchScheduler) :
  Prefetch.started (Prefetch.start reply now s) = true.
Proof.
  unfold Prefetch.start. destruct (Prefetch.started s) eqn:Hs; [done|].
  cbn [Prefetch.started].
  unfold Prefetch.prefetchAllMatchLists. generalize Prefetch.PREFETCH_SPORTS as sports.
  intros sports.
  assert (∀ s' : Prefetch.DataPrefetchScheduler, Prefetch.started s' = true →
                Prefetch.started (foldl (Prefetch.prefetchMatchList reply now) s' sports) = true)
    as H.
  { induction sports as [|sp sports IH]; intros s' Hs'; [done|].
    cbn [foldl]. by apply IH. }
  by apply H.
Qed.

Lemma prefetch_started_stop (s : Prefetch.DataPrefetchScheduler) :
  Prefetch.started (Prefetch.stop s) = false.
Proof.
  unfold Prefetch.stop. destruct (Prefetch.started s) eqn:Hs; cbn [negb]; [|done].
  by destruct (Prefetch.oddsTimer s).
Qed.

End LifecycleFacts.

(** C9.  For both schedulers: [start()] on a scheduler whose [started] is
    set returns at once and changes nothing, and a [start()] leaves
    [started] set, so a second [start()], whatever the provider would answer
    and whenever it is called, returns the state as the first left it (no
    timer armed, no bootstrap run, nothing fetched or cached); [stop()] on a
    scheduler whose [started] is clear returns at once and changes nothing,
    and a [stop()] leaves [started] clear, so a second [stop()] returns the
    state as the first left it. *)
Theorem lifecycle_idempotent :
  (∀ r t s, Exchange.started s = true → Exchange.start r t s = s) ∧
  (∀ r1 t1 r2 t2 s,
     Exchange.started (Exchange.start r1 t1 s) = true ∧
     Exchange.start r2 t2 (Exchange.start r1 t1 s) = Exchange.start r1 t1 s) ∧
  (∀ s, Exchange.started s = false → Exchange.stop s = s) ∧
  (∀ s,
     Exchange.started (Exchange.stop s) = false ∧
     Exchange.stop (Exchange.stop s) = Exchange.stop s) ∧
  (∀ r t s, Prefetch.started s = true → Prefetch.start r t s = s) ∧
  (∀ r1 t1 r2 t2 s,
     Prefetch.started (Prefetch.start r1 t1 s) = true ∧
     Prefetch.start r2 t2 (Prefetch.start r1 t1 s) = Prefetch.start r1 t1 s) ∧
  (∀ s, Prefetch.started s = false → Prefetch.stop s = s) ∧
  (∀ s,
     Prefetch.started (Prefetch.stop s) = false ∧
     Prefetch.stop (Prefetch.stop s) = Prefetch.stop s).
Proof.
  assert (∀ r t s, Exchange.started s = true → Exchange.start r t s = s) as Hstart.
  { intros r t s Hs. unfold Exchange.start. by rewrite Hs. }
  assert (∀ s, Exchange.started s = false → Exchange.stop s = s) as Hstop.
  { intros s Hs. unfold Exchange.stop. by rewrite Hs. }
  assert (∀ r t s, Prefetch.started s = true → Prefetch.start r t s = s) as Hpstart.
  { intros r t s Hs. unfold Prefetch.start. by rewrite Hs. }
  assert (∀ s, Prefetch.started s = false → Prefetch.stop s = s) as Hpstop.
  { intros s Hs. unfold Prefetch.stop. by rewrite Hs. }
  split; [exact Hstart|]. split.
  { intros r1 t1 r2 t2 s. split; [apply started_start|]. apply Hstart, started_start. }
  split; [exact Hstop|]. split.
  { intros s. split; [apply started_stop|]. apply Hstop, started_stop. }
  split; [exact Hpstart|]. split.
  { intros r1 t1 r2 t2 s. split; [apply prefetch_started_start|].
    apply Hpstart, prefetch_started_start. }
  split; [exact Hpstop|].
  intros s. split; [apply prefetch_started_stop|]. apply Hpstop, prefetch_started_stop.
Qed.

Lemma lifecycle_idempotent_witness :
  let replies := Exchange.mkReplies (Returned [JStr "cricket"]) (fun _ => Returned JNull)
                                    (Returned []) (Returned JNull) (Returned JNull) in
  let s := Exchange.start replies 0
             (Exchange.create Exchange.DEFAULT_POLL_CONFIG InMemory.empty) in
  Exchange.start replies 5000 s = s ∧
  Exchange.stop (Exchange.stop s) = Exchange.stop s.
Proof.
  intros replies s.
  destruct lifecycle_idempotent as (Hstart & _ & Hstop & _).
  split.
  - apply Hstart. vm_compute. reflexivity.
  - apply Hstop. vm_compute. reflexivity.
Defined.

(** ** Answers without content *)

Section NullReplyFacts.
Import Exchange.
Implicit Types s : ExchangePollingScheduler.

Lemma resume_fetch_cache i data now s :
  non_empty data = false →
  cache (resume_fetch i (Fulfilled data) now s).1 = cache s.
Proof.
  intros Hd. unfold resume_fetch.
  destruct (Worker.fetching (worker s) !! i) as [[e q]|]; [|done].
  unfold fetchOdds_resume. rewrite Hd.
  destruct (Worker.finish launch i false (worker s) (coalescer s)) as [[w' co'] out].
  cbn [fst]. by destruct (deliver_fields out
                            (with_worker w' (with_coalescer co' (with_cache (cache s) s))))
    as (_ & _ & -> & _).
Qed.

Lemma resume_waiters_cache fuel p data now : ∀ s,
  non_empty data = false →
  cache (resume_waiters fuel p (Fulfilled data) now s).1 = cache s.
Proof.
  induction fuel as [|fuel IH]; intros s Hd; cbn [resume_waiters]; [done|].
  destruct (first_waiter p (Worker.fetching (worker s))) as [i|]; [|done].
  pose proof (resume_fetch_cache i data now s Hd) as H1.
  destruct (resume_fetch i (Fulfilled data) now s) as [s1 out1].
  specialize (IH s1 Hd).
  destruct (resume_waiters fuel p (Fulfilled data) now s1) as [s2 out2].
  cbn [fst] in *. congruence.
Qed.

Lemma oddsReply_cache p data now s :
  non_empty (json_of_list data) = false →
  cache (oddsReply p (Returned data) now s).1 = cache s.
Proof.
  intros Hd. unfold oddsReply.
  destruct (Coalescer.running (coalescer s) !! p) as [[key f]|]; [|done].
  assert (fetcher_result f (Returned data) now (cache s)
          = (Fulfilled (json_of_list data), cache s)) as ->.
  { unfold fetcher_result. destruct f; [done|]. by rewrite Hd. }
  by rewrite resume_waiters_cache.
Qed.

Lemma match_list_keys_distinct sport sport' :
  sport ∈ POLL_SPORT_IDS → sport' ∈ POLL_SPORT_IDS → sport ≠ sport' →
  EXCHANGE_CACHE_KEYS.matchList sport ≠ EXCHANGE_CACHE_KEYS.matchList sport'.
Proof.
  unfold POLL_SPORT_IDS. rewrite !elem_of_cons, !elem_of_nil.
  intros [->|[->|[->|[]]]] [->|[->|[->|[]]]] Hne; try done; vm_compute; discriminate.
Qed.

Lemma poll_one_other reply now s sport key :
  key ≠ EXCHANGE_CACHE_KEYS.matchList sport →
  InMemory.store (cache (poll_one_match_list reply now s sport)) !! key
  = InMemory.store (cache s) !! key.
Proof.
  intros Hne. unfold poll_one_match_list.
  destruct (reply sport) as [data|?]; [|done].
  destruct (truthy data); [|done].
  cbn [cache with_cache with_providerCalls]. rewrite set_lookup.
  by rewrite bool_decide_eq_false_2.
Qed.

Lemma poll_one_null reply now s sport :
  reply sport = Returned JNull →
  cache (poll_one_match_list reply now s sport) = cache s.
Proof. intros Hr. unfold poll_one_match_list. by rewrite Hr. Qed.

Lemma pollMatchLists_null reply now s sport :
  sport ∈ POLL_SPORT_IDS →
  reply sport = Returned JNull →
  InMemory.store (cache (pollMatchLists reply now s)) !! EXCHANGE_CACHE_KEYS.matchList sport
  = InMemory.store (cache s) !! EXCHANGE_CACHE_KEYS.matchList sport.
Proof.
  intros Hin Hr. unfold pollMatchLists.
  assert (∀ ids s, (∀ x, x ∈ ids → x ∈ POLL_SPORT_IDS) →
            InMemory.store (cache (foldl (poll_one_match_list reply now) s ids))
              !! EXCHANGE_CACHE_KEYS.matchList sport
            = InMemory.store (cache s) !! EXCHANGE_CACHE_KEYS.matchList sport) as H.
  { induction ids as [|x ids IH]; intros s0 Hsub; [done|].
    cbn [foldl]. rewrite IH by (intros y Hy; apply Hsub, elem_of_cons; by right).
    destruct (decide (x = sport)) as [->|Hne].
    - by rewrite poll_one_null.
    - apply poll_one_other. apply match_list_keys_distinct; [done| |done].
      apply Hsub, elem_of_cons. by left. }
  by apply H.
Qed.

Lemma prefetch_fetchOdds_empty names reply matchId now c :
  (∀ name, name ∈ names → reply name = Returned []) →
  Prefetch.fetchOdds_result names reply matchId now c = (false, c).
Proof.
  induction names as [|name names IH]; intros Hall; [done|].
  cbn [Prefetch.fetchOdds_result]. rewrite Hall by (apply elem_of_cons; by left).
  cbn. apply IH. intros n Hn. apply Hall, elem_of_cons. by right.
Qed.

End NullReplyFacts.

(** C7.  When the provider answers [null] or an empty list of markets,
    neither the closure of [getCoalescedOdds] nor [fetchOdds] of the worker
    writes the cache, and the whole handling of that answer (the settlement
    of the coalesced promise and every call of the worker resumed by it)
    leaves the cache as it was; a match-list poll leaves the entry of a sport
    whose answer is [null] as it was; the top-events, banners and sidebar
    polls leave the cache as it was on an empty or [null] answer; and so
    does [fetchOdds] of the prefetch worker when every provider answers
    with no market.  The cached entries therefore keep their [freshUntil]
    and [staleUntil]. *)
Theorem null_answers_never_overwrite :
  (∀ g sport data now c,
     data = None ∨ data = Some [] →
     (Exchange.fetcher_result (Exchange.CachingOdds g sport) (Returned data) now c).2 = c ∧
     Exchange.fetchOdds_resume (Fulfilled (Exchange.json_of_list data)) g now c = (false, c)) ∧
  (∀ p data now s,
     data = None ∨ data = Some [] →
     Exchange.cache (Exchange.oddsReply p (Returned data) now s).1 = Exchange.cache s) ∧
  (∀ reply now s sport,
     sport ∈ Exchange.POLL_SPORT_IDS →
     reply sport = Returned JNull →
     InMemory.store (Exchange.cache (Exchange.pollMatchLists reply now s))
       !! Exchange.EXCHANGE_CACHE_KEYS.matchList sport
     = InMemory.store (Exchange.cache s) !! Exchange.EXCHANGE_CACHE_KEYS.matchList sport) ∧
  (∀ now s,
     Exchange.cache (Exchange.pollTopEvents (Returned []) now s) = Exchange.cache s ∧
     Exchange.cache (Exchange.pollBanners (Returned JNull) now s) = Exchange.cache s ∧
     Exchange.cache (Exchange.pollSidebar (Returned JNull) now s) = Exchange.cache s) ∧
  (∀ names reply matchId now c,
     (∀ name, name ∈ names → reply name = Returned []) →
     Prefetch.fetchOdds_result names reply matchId now c = (false, c)).
Proof.
  split; [|split; [|split; [|split]]].
  - intros g sport data now c [->| ->]; by split.
  - intros p data now s [->| ->]; by apply oddsReply_cache.
  - intros. by apply pollMatchLists_null.
  - done.
  - intros. by apply prefetch_fetchOdds_empty.
Qed.

Lemma null_answers_never_overwrite_witness :
  let s := Exchange.markGmidHot "G1" 4 0
             (Exchange.create Exchange.DEFAULT_POLL_CONFIG
                (InMemory.set "exchange:matches:1" (JObj []) (Some 120) 0 InMemory.empty)) in
  Exchange.fetchOdds_resume (Fulfilled JNull) "G1" 5 (Exchange.cache s)
    = (false, Exchange.cache s) ∧
  Exchange.cache
    (Exchange.oddsReply 0%nat (Returned (Some [])) 900
       (Exchange.pollHotGmidOdds 500 s).1).1
    = Exchange.cache (Exchange.pollHotGmidOdds 500 s).1 ∧
  InMemory.store
    (Exchange.cache (Exchange.pollMatchLists (fun _ => Returned JNull) 60000 s))
    !! "exchange:matches:1"
  = InMemory.store (Exchange.cache s) !! "exchange:matches:1".
Proof.
  intros s. destruct null_answers_never_overwrite as (Hf & Hr & Hm & _ & _).
  split; [|split].
  - apply (Hf "G1" (JNum 4) None 5 (Exchange.cache s)). by left.
  - apply Hr. by right.
  - apply (Hm (fun _ => Returned JNull) 60000 s 1).
    + vm_compute. apply elem_of_cons. right. apply elem_of_cons. by left.
    + reflexivity.
Defined.

(** ** [getOrSet] of the in-memory cache *)

Section GetOrSetFacts.
Import InMemory.
Implicit Types c : InMemoryCacheService.

Lemma consistent_empty_cache : consistent InMemory.empty.
Proof.
  split.
  - intros key p H. cbn in H. by rewrite lookup_empty in H.
  - intros p [[x H]|[x H]]; cbn in H; by rewrite lookup_empty in H.
Qed.

Lemma consistent_with_store st c : consistent c → consistent (with_store st c).
Proof. done. Qed.

Lemma consistent_get key now c : consistent c → consistent (get key now c).2.
Proof.
  intros Hc. unfold get. destruct (store c !! key) as [e|]; [|done].
  by destruct (staleUntil e <? now).
Qed.

Lemma consistent_coalesce_cache key factory ttl c :
  consistent c → consistent (coalesce key factory ttl c).2.
Proof.
  intros [H1 H2]. unfold coalesce.
  destruct (inflight c !! key) as [existing|] eqn:Hk; [done|].
  split; cbn [snd inflight pending settled nextPromise].
  - intros key' p'. destruct (decide (key' = key)) as [->|Hne].
    + rewrite lookup_insert_eq. intros [= <-]. rewrite lookup_insert_eq. by eexists.
    + rewrite lookup_insert_ne by done. intros Hk'.
      destruct (H1 _ _ Hk') as [ttl' Hp].
      assert (p' < nextPromise c)%nat by (apply H2; left; by eexists).
      rewrite lookup_insert_ne by lia. by eexists.
  - intros p' [Hp|Hs].
    + destruct (decide (p' = nextPromise c)) as [->|Hne]; [lia|].
      rewrite lookup_insert_ne in Hp by done.
      assert (p' < nextPromise c)%nat by (apply H2; by left). lia.
    + assert (p' < nextPromise c)%nat by (apply H2; by right). lia.
Qed.

Lemma consistent_getOrSet key factory ttl now c :
  consistent c → consistent (getOrSet key factory ttl now c).2.
Proof.
  intros Hc. unfold getOrSet, refreshInBackground.
  pose proof (consistent_coalesce_cache key factory (default CACHE_TTL_DEFAULT ttl) c Hc) as H.
  destruct (coalesce key factory (default CACHE_TTL_DEFAULT ttl) c) as [p c'].
  destruct (store c !! key) as [e|]; [|done].
  destruct (now <=? freshUntil e); [done|].
  by destruct (now <=? staleUntil e).
Qed.

Lemma consistent_settle_cache p r now c : consistent c → consistent (settle p r now c).
Proof.
  intros [H1 H2]. unfold settle.
  destruct (pending c !! p) as [k|] eqn:Hp; [|done].
  assert (∀ c1, inflight c1 = inflight c → pending c1 = pending c →
                settled c1 = settled c → nextPromise c1 = nextPromise c →
                consistent (mkCache (store c1) (delete (p_key k) (inflight c1))
                              (delete p (pending c1)) (<[p := r]> (settled c1))
                              (nextPromise c1) (factoryCalls c1))) as H.
  { intros c1 -> -> -> ->. split; cbn [inflight pending settled nextPromise].
    - intros key' p'. destruct (decide (key' = p_key k)) as [->|Hne].
      + by rewrite lookup_delete_eq.
      + rewrite lookup_delete_ne by done. intros Hk'.
        destruct (H1 _ _ Hk') as [ttl' Hp'].
        rewrite lookup_delete_ne; [by eexists|].
        intros ->. rewrite Hp in Hp'. injection Hp' as ->. done.
    - intros p' [Hp'|Hs].
      + destruct (decide (p' = p)) as [->|Hne].
        * rewrite lookup_delete_eq in Hp'. by destruct Hp'.
        * rewrite lookup_delete_ne in Hp' by done. apply H2. by left.
      + destruct (decide (p' = p)) as [->|Hne].
        * apply H2. left. by eexists.
        * rewrite lookup_insert_ne in Hs by done. apply H2. by right. }
  destruct r as [v|reason]; by apply H.
Qed.

Lemma consistent_apply_cache c top : consistent c → consistent (InMemory.apply c top).
Proof.
  intros Hc. destruct top as [now op]. unfold InMemory.apply. cbn [fst snd].
  destruct op as [k|k v ttl|k|k| |k f ttl|p r].
  - by apply consistent_get.
  - done.
  - destruct Hc as [H1 H2]. unfold del.
    split; cbn [inflight pending settled nextPromise]; [|done].
    intros key p. destruct (decide (key = k)) as [->|Hne].
    + by rewrite lookup_delete_eq.
    + rewrite lookup_delete_ne by done. apply H1.
  - unfold exists_. pose proof (consistent_get k now c Hc) as H.
    by destruct (get k now c) as [v c'].
  - destruct Hc as [H1 H2]. unfold flush.
    split; cbn [inflight pending settled nextPromise]; [|done].
    intros key p H. by rewrite lookup_empty in H.
  - by apply consistent_getOrSet.
  - by apply consistent_settle_cache.
Qed.

Lemma consistent_run_cache ops : consistent (InMemory.run ops).
Proof.
  unfold InMemory.run. generalize consistent_empty_cache. generalize InMemory.empty as c.
  induction ops as [|top ops IH]; intros c Hc; [done|].
  cbn [foldl]. apply IH. by apply consistent_apply_cache.
Qed.

Lemma coalesce_through key factory ttl c :
  consistent c →
  through_coalesce key factory ttl c (coalesce key factory ttl c).2
                   (coalesce key factory ttl c).1 ∧
  settles_for key (coalesce key factory ttl c).1 (coalesce key factory ttl c).2.
Proof.
  intros [H1 H2].
  assert (∀ c' p ttl', inflight c' !! key = Some p →
                       pending c' !! p = Some (mkPending key ttl') →
                       settles_for key p c') as Hsettles.
  { intros c' p ttl' Hk Hp. exists ttl'. split; [done|].
    split; intros x t; unfold settle; rewrite Hp; cbn [p_key p_ttl];
      cbn [store inflight settled].
    - rewrite set_lookup, bool_decide_eq_true_2 by done.
      by rewrite lookup_insert_eq, lookup_delete_eq.
    - by rewrite lookup_insert_eq, lookup_delete_eq. }
  unfold through_coalesce, coalesce.
  destruct (inflight c !! key) as [existing|] eqn:Hk; cbn [fst snd].
  - rewrite Hk. split; [done|].
    destruct (H1 _ _ Hk) as [ttl' Hp]. by apply (Hsettles c existing ttl').
  - cbn [store inflight pending factoryCalls]. rewrite !lookup_insert_eq.
    split.
    + done.
    + apply (Hsettles _ _ ttl); cbn [inflight pending]; apply lookup_insert_eq.
Qed.

(** The in-flight table of the cache, unlike that of [RequestCoalescer], is
    also cleared by [del] and [flush]: a [getOrSet] that misses after a
    [del] calls its factory although the earlier one has not settled. *)
Remark del_frees_slot_of_running_factory :
  let c := InMemory.run [(0, OpGetOrSet "k" 1%nat (Some 60));
                         (5, OpDel "k");
                         (9, OpGetOrSet "k" 2%nat (Some 60))] in
  factoryCalls c = [("k", 1%nat); ("k", 2%nat)] ∧
  pending c !! 0%nat = Some (mkPending "k" 60) ∧
  pending c !! 1%nat = Some (mkPending "k" 60).
Proof. vm_compute. repeat split; reflexivity. Qed.

End GetOrSetFacts.

(** C2.  In every state the in-memory cache can reach, [getOrSet(key,
    factory, ttl)] at [now] (1) returns the cached value and leaves the
    cache as it is, [factory] not called, when an entry exists with
    [now ≤ freshUntil]; (2) else, when the entry exists with
    [now ≤ staleUntil], returns the stale value at once and goes through
    [coalesce] for the refresh, so that one promise is in flight for the key,
    joined if there was one and started by one call of [factory] otherwise,
    whose rejection leaves the store as it is; (3) else returns the promise
    that [coalesce] yields, which on fulfilment stores the value with the ttl
    it was started with and resolves to it, and on rejection rejects; and
    every [getOrSet] that misses on that key before the settlement gets
    this same promise, with no further call of a factory. *)
Theorem getOrSet_three_cases (ops : list (Z * InMemory.Op))
  (key : string) (factory : nat) (ttlSeconds : option Z) (now : Z) :
  let c := InMemory.run ops in
  let ttl := default InMemory.CACHE_TTL_DEFAULT ttlSeconds in
  let answer := (InMemory.getOrSet key factory ttlSeconds now c).1 in
  let c' := (InMemory.getOrSet key factory ttlSeconds now c).2 in
  (∀ e, InMemory.store c !! key = Some e →
        now ≤ InMemory.freshUntil e →
        answer = InMemory.Now (InMemory.value e) ∧ c' = c) ∧
  (∀ e, InMemory.store c !! key = Some e →
        InMemory.freshUntil e < now ≤ InMemory.staleUntil e →
        answer = InMemory.Now (InMemory.value e) ∧
        ∃ p, InMemory.through_coalesce key factory ttl c c' p ∧
             InMemory.settles_for key p c') ∧
  (InMemory.missing key now c →
   ∃ p, answer = InMemory.Later p ∧
        InMemory.through_coalesce key factory ttl c c' p ∧
        InMemory.settles_for key p c' ∧
        ∀ factory2 ttl2 now2,
          InMemory.missing key now2 c →
          InMemory.getOrSet key factory2 ttl2 now2 c' = (InMemory.Later p, c')).
Proof.
  intros c ttl answer c'.
  pose proof (consistent_run_cache ops) as Hc. fold c in Hc.
  pose proof (coalesce_through key factory ttl c Hc) as [Hthrough Hsettles].
  assert (∀ n cc, InMemory.missing key n cc →
            ∀ f t, InMemory.getOrSet key f t n cc =
                   (InMemory.Later (InMemory.coalesce key f (default InMemory.CACHE_TTL_DEFAULT t) cc).1,
                    (InMemory.coalesce key f (default InMemory.CACHE_TTL_DEFAULT t) cc).2))
    as Hmiss.
  { intros n cc Hm f t. unfold InMemory.getOrSet, InMemory.missing in *.
    destruct (InMemory.coalesce key f _ cc) as [p cp].
    destruct (InMemory.store cc !! key) as [e|]; [|done].
    destruct Hm as [Hf Hs].
    replace (n <=? InMemory.freshUntil e) with false by lia.
    by replace (n <=? InMemory.staleUntil e) with false by lia. }
  split; [|split].
  - intros e He Hfresh. unfold answer, c', InMemory.getOrSet. rewrite He.
    by replace (now <=? InMemory.freshUntil e) with true by lia.
  - intros e He [Hfresh Hstale]. unfold answer, c', InMemory.getOrSet. rewrite He.
    replace (now <=? InMemory.freshUntil e) with false by lia.
    replace (now <=? InMemory.staleUntil e) with true by lia.
    cbn [fst snd]. split; [done|].
    exists (InMemory.coalesce key factory ttl c).1. by split.
  - intros Hm. exists (InMemory.coalesce key factory ttl c).1.
    unfold answer, c'. rewrite (Hmiss now c Hm). cbn [fst snd].
    split; [done|]. split; [done|]. split; [done|].
    intros factory2 ttl2 now2 Hm2.
    destruct Hthrough as (Hst & Hin & _).
    rewrite Hmiss.
    + unfold InMemory.coalesce at 1 3. fold ttl. by rewrite Hin.
    + unfold InMemory.missing in *. fold ttl. by rewrite Hst.
Qed.

Lemma getOrSet_three_cases_witness :
  let c := InMemory.run [(0, InMemory.OpSet "live_matches:all" (JStr "v0") (Some 1))] in
  (InMemory.getOrSet "live_matches:all" 7%nat (Some 1) 900 c).1 = InMemory.Now (JStr "v0") ∧
  (InMemory.getOrSet "live_matches:all" 7%nat (Some 1) 1500 c).1 = InMemory.Now (JStr "v0") ∧
  ∃ p, (InMemory.getOrSet "live_matches:all" 7%nat (Some 1) 2500 c).1 = InMemory.Later p.
Proof.
  intros c.
  pose (e := InMemory.mkEntry (JStr "v0") 1000 2000).
  split; [|split].
  - destruct (getOrSet_three_cases
                [(0, InMemory.OpSet "live_matches:all" (JStr "v0") (Some 1))]
                "live_matches:all" 7%nat (Some 1) 900) as (H1 & _ & _).
    apply (H1 e); [vm_compute; reflexivity|simpl; lia].
  - destruct (getOrSet_three_cases
                [(0, InMemory.OpSet "live_matches:all" (JStr "v0") (Some 1))]
                "live_matches:all" 7%nat (Some 1) 1500) as (_ & H2 & _).
    apply (H2 e); [vm_compute; reflexivity|simpl; lia].
  - destruct (getOrSet_three_cases
                [(0, InMemory.OpSet "live_matches:all" (JStr "v0") (Some 1))]
                "live_matches:all" 7%nat (Some 1) 2500) as (_ & _ & H3).
    destruct H3 as (p & Hp & _).
    + vm_compute. split; reflexivity.
    + by exists p.
Defined.

(** ** [getOrSet] of the Redis-backed cache *)

(** A call that misses calls its own factory, whatever other calls are
    suspended on theirs, and leaves the keyspace as it is. *)
Lemma redis_miss_calls_factory c k factory ttl ok now :
  Redis.get k ok now c = JNull →
  Redis.factoryCalls (Redis.getOrSet_enter k factory ttl ok now c).2
    = Redis.factoryCalls c ++ [(k, factory)] ∧
  Redis.db (Redis.getOrSet_enter k factory ttl ok now c).2 = Redis.db c ∧
  Redis.prefix (Redis.getOrSet_enter k factory ttl ok now c).2 = Redis.prefix c.
Proof. intros Hmiss. unfold Redis.getOrSet_enter. by rewrite Hmiss. Qed.

(** C8 (what the code does).  [RedisCacheService.getOrSet] has no in-flight
    table.  Two callers of the same key, the second arriving while the
    factory of the first is still running, both miss on an empty keyspace
    and both call their factory: two factory executions are in progress for
    the one key; each stores its value with the plain ttl when it returns. *)
Theorem redis_getOrSet_runs_one_factory_per_caller :
  let c0 := Redis.connect "sn:" in
  let c1 := (Redis.getOrSet_enter "live_matches:all" 1%nat (Some 1) true 0 c0).2 in
  let c2 := (Redis.getOrSet_enter "live_matches:all" 2%nat (Some 1) true 5 c1).2 in
  let c3 := (Redis.getOrSet_resume 0%nat (Fulfilled (JStr "a")) true 200 c2).2 in
  (Redis.getOrSet_enter "live_matches:all" 1%nat (Some 1) true 0 c0).1
    = Redis.Suspended 0%nat ∧
  (Redis.getOrSet_enter "live_matches:all" 2%nat (Some 1) true 5 c1).1
    = Redis.Suspended 1%nat ∧
  Redis.factoryCalls c2 = [("live_matches:all", 1%nat); ("live_matches:all", 2%nat)] ∧
  Redis.get "live_matches:all" true 1199 c3 = JStr "a" ∧
  Redis.get "live_matches:all" true 1200 c3 = JNull.
Proof. vm_compute. repeat split; reflexivity. Qed.

Lemma odds_tick_non_overlap_witness :
  let replies := Exchange.mkReplies (Returned []) (fun _ => Returned JNull)
                                    (Returned []) (Returned JNull) (Returned JNull) in
  let s := Exchange.run
             (Exchange.create Exchange.DEFAULT_POLL_CONFIG InMemory.empty)
             [(0, Exchange.Start replies);
              (100, Exchange.MarkGmidHot "G1" 4);
              (1000, Exchange.OddsTick)] in
  Exchange.pollHotGmidOdds 2000 s = (s, []).
Proof.
  intros replies s.
  destruct (odds_tick_non_overlap Exchange.DEFAULT_POLL_CONFIG InMemory.empty
              [(0, Exchange.Start replies);
               (100, Exchange.MarkGmidHot "G1" 4);
               (1000, Exchange.OddsTick)]) as (Hskip & _).
  apply Hskip. vm_compute. reflexivity.
Defined.

(* ===================================================================== *)
(** * Part III. Further properties of the embedded code                   *)
(* ===================================================================== *)

(** ** Invalidation and isolation in the in-memory cache *)

Section InvalidationFacts.
Import InMemory.

Lemma untouched_absent key t ops c :
  store c !! key = None → untouched key t c ops →
  store (foldl apply c ops) !! key = None.
Proof.
  intros Hnone Hu.
  destruct (untouched_keeps_or_purges key (mkEntry JNull 0 0) t ops c
              (or_intror Hnone) Hu) as [H0|]; [|done].
  destruct (untouched_keeps_or_purges key (mkEntry JNull 1 1) t ops c
              (or_intror Hnone) Hu) as [H1|]; [|done].
  rewrite H0 in H1. discriminate.
Qed.

Lemma del_lookup key c k :
  store (del key c) !! k = if bool_decide (k = key) then None else store c !! k.
Proof.
  unfold del; cbn [store]. case_bool_decide as Hk.
  - subst. apply lookup_delete_eq.
  - by apply lookup_delete_ne.
Qed.

End InvalidationFacts.

(** X1.  [del(K)] invalidates the key: after it, [get(K)] answers [null]
    at every instant, whatever is done to the cache in between that does
    not write [K]; and the reads of every other key answer what they
    answered before the [del]. *)
Theorem del_invalidates (c : InMemory.InMemoryCacheService) (K : string) :
  (∀ t between now,
     InMemory.untouched K t (InMemory.del K c) between →
     (InMemory.get K now (foldl InMemory.apply (InMemory.del K c) between)).1 = JNull) ∧
  (∀ K' now, K' ≠ K →
     (InMemory.get K' now (InMemory.del K c)).1 = (InMemory.get K' now c).1).
Proof.
  split.
  - intros t between now Hu. rewrite get_result.
    rewrite (untouched_absent K t between (InMemory.del K c)); [done| |done].
    rewrite del_lookup. by rewrite bool_decide_eq_true_2.
  - intros K' now Hne. rewrite !get_result, del_lookup.
    by rewrite bool_decide_eq_false_2.
Qed.

Lemma del_invalidates_witness :
  (InMemory.get "exchange:odds:7" 500
     (foldl InMemory.apply
        (InMemory.del "exchange:odds:7"
           (InMemory.set "exchange:odds:7" (JArr [JNum 1]) (Some 2) 0 InMemory.empty))
        [(100, InMemory.OpGet "exchange:odds:7");
         (200, InMemory.OpSet "exchange:sports" (JArr []) None)])).1
  = JNull.
Proof.
  apply (proj1 (del_invalidates _ "exchange:odds:7") 200).
  simpl. repeat split; try lia; discriminate.
Defined.

(** X2.  What is done to other keys does not change what a key reads:
    if the operations [ops], all of them no later than the read, neither
    set, delete nor flush [K], then [get(K)] after them answers what it
    would have answered without them, be the entry of [K] live, expired or
    absent. *)
Theorem reads_unaffected_by_other_keys (c : InMemory.InMemoryCacheService)
  (K : string) (t now : Z) (ops : list (Z * InMemory.Op)) :
  InMemory.untouched K t c ops →
  t ≤ now →
  (InMemory.get K now (foldl InMemory.apply c ops)).1 = (InMemory.get K now c).1.
Proof.
  intros Hu Ht. rewrite !get_result.
  destruct (InMemory.store c !! K) as [e|] eqn:He.
  - destruct (InMemory.staleUntil e <? now) eqn:Hexp.
    + destruct (untouched_keeps_or_purges K e t ops c (or_introl He) Hu)
        as [-> | ->]; [|done].
      by rewrite Hexp.
    + rewrite (untouched_keeps K e t ops c He); [|lia|done]. by rewrite Hexp.
  - by rewrite (untouched_absent K t ops c He Hu).
Qed.

Lemma reads_unaffected_by_other_keys_witness :
  let c := InMemory.set "exchange:sidebar" (JStr "tree") (Some 10) 0 InMemory.empty in
  (InMemory.get "exchange:sidebar" 900
     (foldl InMemory.apply c
        [(100, InMemory.OpSet "exchange:banners" (JStr "b") None);
         (300, InMemory.OpDel "exchange:top-events");
         (400, InMemory.OpGetOrSet "exchange:sidebar" 1%nat None)])).1
  = (InMemory.get "exchange:sidebar" 900 c).1.
Proof.
  intros c.
  apply (reads_unaffected_by_other_keys c "exchange:sidebar" 400 900).
  - simpl. repeat split; try lia; discriminate.
  - lia.
Defined.

(** X3.  [flush()] empties the cache: every [get] answers [null] and
    every [exists] answers [false] without changing anything, every
    [keys(pattern)] lists nothing, and the next [getOrSet] of any key is a
    miss that calls its factory, because the table of in-flight promises is
    emptied with the store. *)
Theorem flush_empties_the_cache (c : InMemory.InMemoryCacheService) :
  let flushed := InMemory.flush c in
  (∀ K now, InMemory.get K now flushed = (JNull, flushed)) ∧
  (∀ K now, InMemory.exists_ K now flushed = (false, flushed)) ∧
  (∀ pattern,
     InMemory.keys pattern flushed
       = (λ _, []) <$> compile (InMemory.glob_source pattern)) ∧
  (∀ K factory ttl now,
     (InMemory.getOrSet K factory ttl now flushed).1
       = InMemory.Later (InMemory.nextPromise c) ∧
     InMemory.factoryCalls (InMemory.getOrSet K factory ttl now flushed).2
       = InMemory.factoryCalls c ++ [(K, factory)]).
Proof.
  intros flushed.
  assert (∀ K now, InMemory.get K now flushed = (JNull, flushed)) as Hget.
  { intros K now. unfold InMemory.get, flushed, InMemory.flush.
    cbn [InMemory.store]. by rewrite lookup_empty. }
  split; [done|]. split; [|split].
  - intros K now. unfold InMemory.exists_. by rewrite Hget.
  - intros pattern. unfold InMemory.keys.
    destruct (compile (InMemory.glob_source pattern)) as [regex|]; [|done].
    cbn. unfold InMemory.store_keys, flushed, InMemory.flush. cbn [InMemory.store].
    by rewrite map_to_list_empty.
  - intros K factory ttl now.
    unfold InMemory.getOrSet, InMemory.coalesce, flushed, InMemory.flush.
    cbn [InMemory.store InMemory.inflight]. rewrite !lookup_empty. done.
Qed.

(** X4.  [del(K)] does not cancel a factory that is running for [K]: its
    settlement still stores the value under [K], with the ttl it was
    started with.  And since [del] frees the slot, a [getOrSet] miss that
    follows starts a second factory at once; when the first one settles,
    its [finally] frees the slot again although the second is still
    running. *)
Theorem del_during_refresh (ops : list (Z * InMemory.Op)) (K : string) (p : nat) :
  let c := InMemory.run ops in
  InMemory.inflight c !! K = Some p →
  let deleted := InMemory.del K c in
  ∃ ttl, InMemory.pending c !! p = Some (InMemory.mkPending K ttl) ∧
    (∀ v t,
       InMemory.store (InMemory.settle p (Fulfilled v) t deleted) !! K
       = Some (InMemory.mkEntry v (t + ttl * 1000)
                                (t + ttl * 1000 * InMemory.STALE_MULTIPLIER))) ∧
    (∀ f2 ttl2,
       let again := InMemory.coalesce K f2 ttl2 deleted in
       again.1 ≠ p ∧
       InMemory.factoryCalls again.2 = InMemory.factoryCalls c ++ [(K, f2)] ∧
       ∀ r t,
         InMemory.inflight (InMemory.settle p r t again.2) !! K = None ∧
         InMemory.pending (InMemory.settle p r t again.2) !! again.1
           = Some (InMemory.mkPending K ttl2)).
Proof.
  intros c Hp deleted.
  destruct (consistent_run_cache ops) as [Hslots Hnum]. fold c in Hslots, Hnum.
  destruct (Hslots K p Hp) as [ttl Hpend]. exists ttl. split; [done|].
  assert (p < InMemory.nextPromise c)%nat as Hlt by (apply Hnum; left; by eexists).
  split.
  - intros v t. unfold InMemory.settle, deleted, InMemory.del.
    cbn [InMemory.pending]. rewrite Hpend. cbn [InMemory.store InMemory.p_key InMemory.p_ttl].
    rewrite set_lookup. by rewrite bool_decide_eq_true_2.
  - intros f2 ttl2 again.
    assert (again = (InMemory.nextPromise c,
                     InMemory.mkCache (delete K (InMemory.store c))
                       (<[K := InMemory.nextPromise c]> (delete K (InMemory.inflight c)))
                       (<[InMemory.nextPromise c := InMemory.mkPending K ttl2]>
                          (InMemory.pending c))
                       (InMemory.settled c) (S (InMemory.nextPromise c))
                       (InMemory.factoryCalls c ++ [(K, f2)]))) as ->.
    { unfold again, InMemory.coalesce, deleted, InMemory.del.
      cbn [InMemory.inflight]. by rewrite lookup_delete_eq. }
    cbn [fst snd InMemory.factoryCalls].
    split; [lia|]. split; [done|].
    intros r t. unfold InMemory.settle. cbn [InMemory.pending].
    rewrite lookup_insert_ne by lia. rewrite Hpend.
    cbn [InMemory.p_key InMemory.inflight InMemory.pending].
    split.
    + destruct r; apply lookup_delete_eq.
    + destruct r; (rewrite lookup_delete_ne by lia); apply lookup_insert_eq.
Qed.

Lemma del_during_refresh_witness :
  let c := InMemory.run [(0, InMemory.OpGetOrSet "live_matches:all" 1%nat (Some 5))] in
  ∃ ttl, InMemory.pending c !! 0%nat = Some (InMemory.mkPending "live_matches:all" ttl) ∧
    InMemory.store (InMemory.settle 0%nat (Fulfilled (JStr "late")) 900
                      (InMemory.del "live_matches:all" c)) !! "live_matches:all"
    = Some (InMemory.mkEntry (JStr "late") (900 + ttl * 1000)
                             (900 + ttl * 1000 * InMemory.STALE_MULTIPLIER)).
Proof.
  intros c.
  destruct (del_during_refresh
              [(0, InMemory.OpGetOrSet "live_matches:all" 1%nat (Some 5))]
              "live_matches:all" 0%nat) as (ttl & Hp & Hstore & _).
  - reflexivity.
  - exists ttl. split; [exact Hp|]. apply Hstore.
Defined.

(** ** What the hot set lists *)

Section HotSetSoundness.
Import InMemory.

Lemma matches_lit_inv c r s :
  matches ((Lit c, false) :: r) s = true →
  ∃ s', s = String c s' ∧ matches r s' = true.
Proof.
  destruct s as [|d s']; [done|]. cbn [matches atom_matches].
  intros [Hd Hm]%andb_true_iff. apply Ascii.eqb_eq in Hd as ->. by exists s'.
Qed.

Lemma hot_gmid_key_shape regex k :
  compile (glob_source Exchange.EXCHANGE_CACHE_KEYS.hotGmidPattern) = Some regex →
  matches regex k = true →
  ∃ g, k = Exchange.EXCHANGE_CACHE_KEYS.hotGmid g ∧ single_line g = true.
Proof.
  intros Hre Hm. vm_compute in Hre. injection Hre as <-.
  repeat (apply matches_lit_inv in Hm as (? & -> & Hm)).
  rewrite matches_any_star in Hm. by eexists.
Qed.

Lemma hot_match_key_shape regex k :
  compile (glob_source Prefetch.PREFETCH_KEYS.hotMatchPattern) = Some regex →
  matches regex k = true →
  ∃ g, k = Prefetch.PREFETCH_KEYS.hotMatch g ∧ single_line g = true.
Proof.
  intros Hre Hm. vm_compute in Hre. injection Hre as <-.
  repeat (apply matches_lit_inv in Hm as (? & -> & Hm)).
  rewrite matches_any_star in Hm. by eexists.
Qed.

(** The loop of [getHotGmids] adds, for each enumerated key, the entry of
    the value it reads under that key: [null], or the value stored. *)
Lemma collect_hot_sound ks now : ∀ c entries x,
  x ∈ (Exchange.collect_hot ks now c entries).1 →
  x ∈ entries ∨
  ∃ key raw, key ∈ ks ∧ x = Exchange.hot_entry key raw ∧
             (raw = JNull ∨ ∃ e, store c !! key = Some e ∧ raw = value e).
Proof.
  induction ks as [|k ks IH]; intros c entries x Hx; [by left|].
  cbn [Exchange.collect_hot] in Hx.
  pose proof (get_result k now c) as Hr.
  pose proof (get_store k now c) as Hs.
  destruct (get k now c) as [raw c']. cbn [fst snd] in Hr, Hs.
  apply IH in Hx as [Hx|(key & raw' & Hin & -> & Hraw)].
  - apply elem_of_app in Hx as [Hx|Hx]; [by left|].
    apply list_elem_of_singleton in Hx as ->. right.
    exists k, raw. split; [by left|]. split; [done|].
    destruct (store c !! k) as [e|]; [|by left].
    destruct (staleUntil e <? now); [by left|]. right. by exists e.
  - right. exists key, raw'. split; [by right|]. split; [done|].
    destruct Hraw as [->|(e & He & ->)]; [by left|]. right. exists e. split; [|done].
    rewrite Hs in He. destruct (store c !! k) as [e'|]; [|done].
    by destruct (_ && _).
Qed.

End HotSetSoundness.

(** X5.  [getHotGmids] lists nothing that was not marked: every entry it
    returns has a record under [xhot:gmid:<gmid>] in the store at the time
    of the call, its [gmid] contains no line terminator (the pattern's [.*]
    does not match one), and its [sid] is the [sid] of that record or the
    fallback 4. *)
Theorem getHotGmids_lists_only_marked (now : Z) (c : InMemory.InMemoryCacheService)
  (x : Exchange.HotGmidEntry) :
  x ∈ (Exchange.getHotGmids now c).1 →
  single_line (Exchange.gmid x) = true ∧
  ∃ e, InMemory.store c !! Exchange.EXCHANGE_CACHE_KEYS.hotGmid (Exchange.gmid x) = Some e ∧
       (Exchange.sid x = JNum 4 ∨ Exchange.sid x = property "sid" (InMemory.value e)).
Proof.
  unfold Exchange.getHotGmids. intros Hx.
  destruct hot_gmid_pattern_compiles as (regex & Hre & _).
  destruct (InMemory.keys Exchange.EXCHANGE_CACHE_KEYS.hotGmidPattern c) as [ks|] eqn:Hks;
    [|unfold InMemory.keys in Hks; by rewrite Hre in Hks].
  cbn [default] in Hx.
  apply collect_hot_sound in Hx as [Hx|(key & raw & Hin & -> & Hraw)].
  { by apply elem_of_nil in Hx. }
  apply (elem_of_keys _ _ _ _ _ Hre Hks) in Hin as [[e He] Hm].
  destruct (hot_gmid_key_shape regex key Hre Hm) as (g & -> & Hg).
  assert (Exchange.gmid (Exchange.hot_entry (Exchange.EXCHANGE_CACHE_KEYS.hotGmid g) raw) = g)
    as Hgmid.
  { unfold Exchange.hot_entry. rewrite strip_hot_gmid_prefix. by destruct (_ && _). }
  rewrite Hgmid. split; [done|]. exists e. split; [done|].
  unfold Exchange.hot_entry.
  destruct Hraw as [->|(e' & He' & ->)]; [by left|].
  rewrite He in He'. injection He' as <-.
  destruct (_ && _); cbn [Exchange.sid]; [by right|by left].
Qed.

Lemma getHotGmids_lists_only_marked_witness :
  let c := Exchange.cache
             (Exchange.markGmidHot "G1" 1 0
                (Exchange.create Exchange.DEFAULT_POLL_CONFIG InMemory.empty)) in
  single_line "G1" = true ∧
  ∃ e, InMemory.store c !! "xhot:gmid:G1" = Some e ∧
       (JNum 1 = JNum 4 ∨ JNum 1 = property "sid" (InMemory.value e)).
Proof.
  intros c.
  apply (getHotGmids_lists_only_marked 100 c (Exchange.mkHot "G1" (JNum 1))).
  vm_compute. constructor.
Defined.

(** X6.  A gmid marked hot at [t0] is listed by [getHotGmids], with the
    sport id it was marked with, at every instant up to
    [t0 + oddsHotTtl × 1000 × STALE_MULTIPLIER], whatever is done to the
    cache in between that does not write its record. *)
Theorem marked_gmid_stays_listed (s : Exchange.ExchangePollingScheduler)
  (g : string) (sport t0 t now : Z) (between : list (Z * InMemory.Op)) :
  let marked := Exchange.cache (Exchange.markGmidHot g sport t0 s) in
  single_line g = true →
  InMemory.untouched (Exchange.EXCHANGE_CACHE_KEYS.hotGmid g) t marked between →
  t ≤ now ≤ t0 + Exchange.oddsHotTtl (Exchange.config s) * 1000 * InMemory.STALE_MULTIPLIER →
  Exchange.mkHot g (JNum sport)
    ∈ (Exchange.getHotGmids now (foldl InMemory.apply marked between)).1.
Proof.
  intros marked Hg Hu [Ht Hnow].
  pose proof (markGmidHot_record g sport t0 s) as Hrec. fold marked in Hrec.
  pose proof (untouched_keeps _ _ t between marked Hrec) as Hkept.
  cbn [InMemory.staleUntil] in Hkept. specialize (Hkept ltac:(lia) Hu).
  pose proof (getHotGmids_lists g _ now _ Hg Hkept) as H.
  cbn [InMemory.staleUntil InMemory.value] in H.
  replace (_ <? now) with false in H by lia.
  unfold Exchange.hot_entry in H. by rewrite strip_hot_gmid_prefix in H.
Qed.

Lemma marked_gmid_stays_listed_witness :
  Exchange.mkHot "G1" (JNum 1)
    ∈ (Exchange.getHotGmids 45000
         (foldl InMemory.apply
            (Exchange.cache
               (Exchange.markGmidHot "G1" 1 0
                  (Exchange.create Exchange.DEFAULT_POLL_CONFIG InMemory.empty)))
            [(1000, InMemory.OpSet "exchange:odds:G1" (JArr [JNum 2]) (Some 2));
             (31000, InMemory.OpGet "xhot:gmid:G1")])).1.
Proof.
  apply (marked_gmid_stays_listed
           (Exchange.create Exchange.DEFAULT_POLL_CONFIG InMemory.empty)
           "G1" 1 0 31000 45000).
  - reflexivity.
  - simpl. repeat split; try lia; discriminate.
  - vm_compute. split; discriminate.
Defined.

(** ** The worker pool: order, saturation, completion *)

Section WorkerOrderFacts.
Context {E R : Type}.
Variable launch : E → R → nat * R.
Implicit Types w : Worker.OddsFetchWorker E.
Import Worker.

(** The loop starts a prefix of the queue, in order, behind the fetches
    that were running. *)
Lemma drain_loop_order q : ∀ active started r,
  let '(q', _, started', _) := drain_loop launch q active started r in
  ∃ extra, started' = started ++ extra ∧ extra.*1 ++ q' = q.
Proof.
  induction q as [|e q IH]; intros active started r; cbn [drain_loop].
  { exists []. by rewrite app_nil_r. }
  destruct (active <? MAX_CONCURRENCY).
  2:{ exists []. by rewrite app_nil_r. }
  destruct (launch e r) as [p r'].
  specialize (IH (active + 1) (started ++ [(e, p)]) r').
  destruct (drain_loop launch q (active + 1) (started ++ [(e, p)]) r')
    as [[[q' active'] started'] r''].
  destruct IH as (extra & -> & <-).
  exists ((e, p) :: extra). by rewrite <- app_assoc.
Qed.

Lemma drain_order w r :
  let '(w', _, _) := drain launch w r in
  ∃ extra, fetching w' = fetching w ++ extra ∧ extra.*1 ++ queue w' = queue w.
Proof.
  unfold drain.
  destruct (processing w && is_empty (queue w) && (activeCount w =? 0)).
  { exists []. by rewrite app_nil_r. }
  pose proof (drain_loop_order (queue w) (activeCount w) (fetching w) r) as Hl.
  destruct (drain_loop launch (queue w) (activeCount w) (fetching w) r)
    as [[[q' active'] started'] r'].
  by destruct (is_empty q' && (active' =? 0)).
Qed.

(** A [drain] leaves no entry queued beside a free slot. *)
Lemma drain_saturates w r :
  counted w →
  let '(w', _, _) := drain launch w r in
  queue w' = [] ∨ activeCount w' = MAX_CONCURRENCY.
Proof.
  intros [Hlen Hb]. unfold drain.
  destruct (processing w && is_empty (queue w) && (activeCount w =? 0)) eqn:Hfirst.
  - apply andb_prop in Hfirst as [Hfirst _]. apply andb_prop in Hfirst as [_ Hq].
    left. cbn [queue]. by destruct (queue w).
  - pose proof (drain_loop_spec launch (queue w) (activeCount w) (fetching w) r Hlen Hb) as Hl.
    destruct (drain_loop launch (queue w) (activeCount w) (fetching w) r)
      as [[[q' active'] started'] r'].
    destruct Hl as (_ & _ & H3 & _).
    by destruct (is_empty q' && (active' =? 0)).
Qed.

(** What every state of a worker that started idle satisfies. *)
Lemma settled_act wr a :
  counted wr.1 ∧ (queue wr.1 = [] ∨ activeCount wr.1 = MAX_CONCURRENCY) ∧
    (processing wr.1 = true ↔ busy wr.1) →
  let w' := (act launch wr a).1 in
  counted w' ∧ (queue w' = [] ∨ activeCount w' = MAX_CONCURRENCY) ∧
    (processing w' = true ↔ busy w').
Proof.
  destruct wr as [w r]. cbn [fst]. intros (Hc & Hsat & Hproc).
  assert (∀ w0, counted w0 →
            let '(w', _, _) := drain launch w0 r in
            counted w' ∧ (queue w' = [] ∨ activeCount w' = MAX_CONCURRENCY) ∧
            (processing w' = true ↔ busy w')) as Hdrain.
  { intros w0 Hc0.
    pose proof (drain_spec launch w0 r Hc0) as Hs.
    pose proof (drain_saturates w0 r Hc0) as Hd.
    destruct (drain launch w0 r) as [[w' r'] out].
    destruct Hs as (Hc' & _ & Hout). split; [done|]. split; [done|].
    destruct Hout as [(_ & Hq & Hf & ->)|(_ & Hbusy & ->)].
    - split; [done|]. intros [?|?]; congruence.
    - done. }
  destruct a as [entries|i success|]; cbn [act fst snd].
  - unfold emit_FETCH_ODDS, enqueue. destruct (listening w); [|done].
    specialize (Hdrain (mkWorker (activeCount w) (queue w ++ entries) (processing w)
                                 true (fetching w)) Hc).
    by destruct (drain launch _ r) as [[w' r'] out].
  - unfold finish. destruct (fetching w !! i) as [[entry p]|] eqn:Hi; [|done].
    assert (i < length (fetching w))%nat as Hlt by (by eapply lookup_lt_Some).
    specialize (Hdrain (mkWorker (activeCount w - 1) (queue w) (processing w)
                                 (listening w) (delete i (fetching w)))).
    destruct (drain launch _ r) as [[w' r'] out]. apply Hdrain.
    destruct Hc as [Hlen Hb]. split; cbn [activeCount fetching].
    + rewrite length_delete by (by eexists). lia.
    + lia.
  - done.
Qed.

Lemma settled_foldl actions : ∀ wr,
  counted wr.1 ∧ (queue wr.1 = [] ∨ activeCount wr.1 = MAX_CONCURRENCY) ∧
    (processing wr.1 = true ↔ busy wr.1) →
  let w' := (foldl (act launch) wr actions).1 in
  counted w' ∧ (queue w' = [] ∨ activeCount w' = MAX_CONCURRENCY) ∧
    (processing w' = true ↔ busy w').
Proof.
  induction actions as [|a actions IH]; intros wr H; [done|].
  cbn [foldl]. apply IH. by apply settled_act.
Qed.

Lemma settled_run r0 actions :
  let w := (run launch r0 actions).1 in
  counted w ∧ (queue w = [] ∨ activeCount w = MAX_CONCURRENCY) ∧
    (processing w = true ↔ busy w).
Proof.
  apply settled_foldl. cbn [fst]. split; [apply counted_idle|].
  split; [by left|]. split; [done|]. intros [?|?]; done.
Qed.

End WorkerOrderFacts.

Section WorkerCompletionFacts.
Context {E R : Type}.
Variable launch : E → R → nat * R.
Implicit Types w : Worker.OddsFetchWorker E.
Import Worker.

Lemma finish_order i success w r e p :
  fetching w !! i = Some (e, p) →
  let '(w', _, out) := finish launch i success w r in
  head out = Some (FETCH_COMPLETE e success) ∧
  listening w' = listening w ∧
  ∃ extra, fetching w' = delete i (fetching w) ++ extra ∧
           extra.*1 ++ queue w' = queue w.
Proof.
  intros Hi. unfold finish. rewrite Hi.
  pose proof (drain_order launch (mkWorker (activeCount w - 1) (queue w) (processing w)
                                    (listening w) (delete i (fetching w))) r) as Hd.
  assert (listening (drain launch (mkWorker (activeCount w - 1) (queue w) (processing w)
                                     (listening w) (delete i (fetching w))) r).1.1
          = listening w) as Hl.
  { unfold drain. cbn [processing queue activeCount fetching listening].
    destruct (_ && _ && _); [done|].
    destruct (drain_loop launch (queue w) (activeCount w - 1) (delete i (fetching w)) r)
      as [[[q' active'] started'] r'].
    by destruct (_ && _). }
  by destruct (drain launch _ r) as [[w' r'] out].
Qed.

Lemma emit_order entries w r :
  listening w = true →
  let w' := (emit_FETCH_ODDS launch entries w r).1.1 in
  ∃ extra, fetching w' = fetching w ++ extra ∧
           extra.*1 ++ queue w' = queue w ++ entries.
Proof.
  intros Hl. unfold emit_FETCH_ODDS, enqueue. rewrite Hl.
  pose proof (drain_order launch (mkWorker (activeCount w) (queue w ++ entries)
                                    (processing w) true (fetching w)) r) as Hd.
  by destruct (drain launch _ r) as [[w' r'] out].
Qed.

(** As many completions as there are entries running or queued empty the
    worker, in whatever order the fetches complete. *)
Lemma finish_all l : ∀ w r,
  counted w ∧ (queue w = [] ∨ activeCount w = MAX_CONCURRENCY) ∧
    (processing w = true ↔ busy w) →
  (length (fetching w) + length (queue w))%nat = length l →
  completions_running launch (w, r) l = true →
  let w' := (foldl (complete launch) (w, r) l).1 in
  activeCount w' = 0 ∧ queue w' = [] ∧ fetching w' = [] ∧ processing w' = false ∧
  listening w' = listening w.
Proof.
  induction l as [|[i ok] l IH]; intros w r Hs Htotal Hrun.
  - cbn [foldl fst]. destruct Hs as ([Hlen Hb] & _ & Hproc).
    cbn [length] in Htotal.
    assert (fetching w = []) as Hf by (destruct (fetching w); [done|cbn in Htotal; lia]).
    assert (queue w = []) as Hq by (destruct (queue w); [done|cbn in Htotal; lia]).
    rewrite Hf in Hlen. cbn in Hlen.
    split; [done|]. split; [done|]. split; [done|]. split; [|done].
    destruct (processing w); [|done].
    destruct (proj1 Hproc eq_refl); congruence.
  - cbn [foldl]. cbn [completions_running fst snd] in Hrun.
    apply andb_prop in Hrun as [Hi Hrun]. apply bool_decide_eq_true in Hi.
    destruct (lookup_lt_is_Some_2 (fetching w) i Hi) as [[e p] He].
    pose proof (settled_act launch (w, r) (Finish i ok) Hs) as Hs'.
    pose proof (finish_order i ok w r e p He) as Ho.
    unfold complete in *. cbn [act fst snd] in *.
    destruct (finish launch i ok w r) as [[w1 r1] out]. cbn [fst] in *.
    destruct Ho as (_ & Hl & extra & Hf & Hq).
    destruct (IH w1 r1 Hs') as (? & ? & ? & ? & Hl'); [|done|].
    { rewrite Hf, length_app, <- Hq, length_app, length_fmap in *.
      rewrite length_delete by (by eexists). cbn [length] in Htotal. lia. }
    rewrite Hl', Hl. done.
Qed.

End WorkerCompletionFacts.

(** X7.  The worker never keeps an entry waiting beside a free slot: in
    every state reached from the idle worker, a non-empty queue means that
    all five fetches are running; and [processing] is [true] exactly while
    an entry is queued or being fetched. *)
Theorem worker_keeps_slots_busy {E R : Type} (launch : E → R → nat * R)
  (r0 : R) (actions : list (Worker.Action E)) :
  let w := (Worker.run launch r0 actions).1 in
  (Worker.queue w ≠ [] → length (Worker.fetching w) = 5%nat) ∧
  (Worker.processing w = true ↔ Worker.queue w ≠ [] ∨ Worker.fetching w ≠ []).
Proof.
  intros w.
  destruct (settled_run launch r0 actions) as ([Hlen Hb] & Hsat & Hproc).
  fold w in Hlen, Hb, Hsat, Hproc. split; [|done].
  intros Hq. destruct Hsat as [?|Hmax]; [done|].
  unfold Worker.MAX_CONCURRENCY in Hmax. lia.
Qed.

Lemma worker_keeps_slots_busy_witness :
  length (Worker.fetching
            (Worker.run Prefetch.launch 0%nat
               [Worker.Emit_FETCH_ODDS ["a"; "b"; "c"; "d"; "e"; "f"; "g"];
                Worker.Finish 2 true]).1) = 5%nat.
Proof.
  apply (worker_keeps_slots_busy Prefetch.launch 0%nat
           [Worker.Emit_FETCH_ODDS ["a"; "b"; "c"; "d"; "e"; "f"; "g"];
            Worker.Finish 2 true]).
  vm_compute. discriminate.
Defined.

(** X8.  Nothing is lost or reordered on the way through the worker: an
    [emit(FETCH_ODDS, entries)] appends the entries to the queue and starts
    a prefix of the queue, in order, behind the running fetches (and does
    nothing once the listeners are removed); a completion reports its entry
    first, removes that fetch alone and starts the next queued entries in
    order. *)
Theorem worker_starts_entries_in_order {E R : Type} (launch : E → R → nat * R)
  (w : Worker.OddsFetchWorker E) (r : R) :
  (∀ entries, Worker.listening w = true →
     let w' := (Worker.emit_FETCH_ODDS launch entries w r).1.1 in
     ∃ extra, Worker.fetching w' = Worker.fetching w ++ extra ∧
              extra.*1 ++ Worker.queue w' = Worker.queue w ++ entries) ∧
  (∀ entries, Worker.listening w = false →
     Worker.emit_FETCH_ODDS launch entries w r = (w, r, [])) ∧
  (∀ i e p success, Worker.fetching w !! i = Some (e, p) →
     let '(w', _, out) := Worker.finish launch i success w r in
     head out = Some (Worker.FETCH_COMPLETE e success) ∧
     ∃ extra, Worker.fetching w' = delete i (Worker.fetching w) ++ extra ∧
              extra.*1 ++ Worker.queue w' = Worker.queue w).
Proof.
  split; [|split].
  - intros entries Hl. by apply emit_order.
  - intros entries Hl. unfold Worker.emit_FETCH_ODDS. by rewrite Hl.
  - intros i e p success Hi.
    pose proof (finish_order launch i success w r e p Hi) as H.
    destruct (Worker.finish launch i success w r) as [[w' r'] out].
    by destruct H as (? & _ & ?).
Qed.

Lemma worker_starts_entries_in_order_witness :
  let w' := (Worker.emit_FETCH_ODDS Prefetch.launch
               ["a"; "b"; "c"; "d"; "e"; "f"; "g"] Worker.idle 0%nat).1.1 in
  ∃ extra, Worker.fetching w' = [] ++ extra ∧
           extra.*1 ++ Worker.queue w' = [] ++ ["a"; "b"; "c"; "d"; "e"; "f"; "g"].
Proof.
  apply (worker_starts_entries_in_order Prefetch.launch Worker.idle 0%nat).
  reflexivity.
Defined.

(** X9.  [TICK_COMPLETE] marks the end of a batch and nothing else: in
    every state reached from the idle worker, handing over a non-empty
    batch emits nothing, and a completion emits [FETCH_COMPLETE] for its
    entry, followed by one [TICK_COMPLETE] if it leaves nothing queued and
    nothing running, and by nothing otherwise. *)
Theorem tick_complete_ends_a_batch {E R : Type} (launch : E → R → nat * R)
  (r0 : R) (actions : list (Worker.Action E)) :
  let wr := Worker.run launch r0 actions in
  (∀ entries, entries ≠ [] →
     (Worker.emit_FETCH_ODDS launch entries wr.1 wr.2).2 = []) ∧
  (∀ i e p success, Worker.fetching wr.1 !! i = Some (e, p) →
     let '(w', _, out) := Worker.finish launch i success wr.1 wr.2 in
     (Worker.queue w' = [] ∧ Worker.fetching w' = [] ∧
      out = [Worker.FETCH_COMPLETE e success; Worker.TICK_COMPLETE]) ∨
     ((Worker.queue w' ≠ [] ∨ Worker.fetching w' ≠ []) ∧
      out = [Worker.FETCH_COMPLETE e success])).
Proof.
  intros wr.
  destruct (settled_run launch r0 actions) as (Hc & _). fold wr in Hc.
  split.
  - intros entries Hne. unfold Worker.emit_FETCH_ODDS.
    destruct (Worker.listening wr.1); [|done].
    pose proof (enqueue_nonempty launch entries wr.1 wr.2 Hc Hne) as H.
    destruct (Worker.enqueue launch entries wr.1 wr.2) as [[w' r'] out].
    by destruct H.
  - intros i e p success Hi. unfold Worker.finish. rewrite Hi.
    assert (i < length (Worker.fetching wr.1))%nat as Hlt by (by eapply lookup_lt_Some).
    pose proof (drain_spec launch
                  (Worker.mkWorker (Worker.activeCount wr.1 - 1) (Worker.queue wr.1)
                     (Worker.processing wr.1) (Worker.listening wr.1)
                     (delete i (Worker.fetching wr.1))) wr.2) as Hd.
    destruct (Worker.drain launch _ wr.2) as [[w' r'] out].
    destruct Hd as (_ & _ & Hout).
    { destruct Hc as [Hlen Hb]. split; cbn [Worker.activeCount Worker.fetching].
      - rewrite length_delete by (by eexists). lia.
      - lia. }
    destruct Hout as [(-> & ? & ? & _)|(-> & Hbusy & _)]; [by left|by right].
Qed.

Lemma tick_complete_ends_a_batch_witness :
  (Worker.emit_FETCH_ODDS Prefetch.launch ["a"; "b"]
     (Worker.run Prefetch.launch 0%nat []).1 (Worker.run Prefetch.launch 0%nat []).2).2 = [].
Proof.
  apply (tick_complete_ends_a_batch Prefetch.launch 0%nat []). discriminate.
Defined.

(** X10.  Every batch runs to completion, in whatever order its fetches
    complete.  In every state reached from the idle worker, as many
    completions as there are entries running or queued, each of a fetch
    that is running when it arrives and each successful or not, leave
    nothing queued and nothing running, the counter at 0 and [processing]
    false; the listeners stay as they were.  So a batch of [n] entries
    handed to the idle worker and [n] such completions leave the worker
    idle again. *)
Theorem batch_runs_to_completion {E R : Type} (launch : E → R → nat * R)
  (r0 : R) (actions : list (Worker.Action E)) (completions : list (nat * bool)) :
  let wr := Worker.run launch r0 actions in
  length completions
    = (length (Worker.fetching wr.1) + length (Worker.queue wr.1))%nat →
  Worker.completions_running launch wr completions = true →
  let w' := (foldl (Worker.complete launch) wr completions).1 in
  Worker.activeCount w' = 0 ∧ Worker.queue w' = [] ∧ Worker.fetching w' = [] ∧
  Worker.processing w' = false ∧ Worker.listening w' = Worker.listening wr.1 ∧
  (Worker.listening wr.1 = true → w' = Worker.idle).
Proof.
  intros wr Hlen Hrun w'.
  pose proof (settled_run launch r0 actions) as Hs. fold wr in Hs.
  destruct wr as [w r] eqn:Hwr. cbn [fst] in *.
  destruct (finish_all launch completions w r Hs (eq_sym Hlen) Hrun)
    as (Ha & Hq & Hf & Hp & Hl).
  fold w' in Ha, Hq, Hf, Hp, Hl.
  repeat (split; [done|]).
  intros Hon. destruct w' as [a q pr l f]. cbn in *. subst. by rewrite Hon.
Qed.

Lemma batch_runs_to_completion_witness :
  (foldl (Worker.complete Prefetch.launch)
     (Worker.run Prefetch.launch 0%nat
        [Worker.Emit_FETCH_ODDS ["a"; "b"; "c"; "d"; "e"; "f"; "g"]])
     [(3, true); (0, false); (4, true); (2, true); (2, false); (1, true); (0, true)]%nat).1
  = Worker.idle.
Proof.
  apply (batch_runs_to_completion Prefetch.launch 0%nat
           [Worker.Emit_FETCH_ODDS ["a"; "b"; "c"; "d"; "e"; "f"; "g"]]
           [(3, true); (0, false); (4, true); (2, true); (2, false); (1, true); (0, true)]%nat);
    reflexivity.
Defined.

(** ** Lifecycle of the exchange scheduler: timers and listeners *)

Section TimerFacts.
Import Exchange.
Implicit Types s : ExchangePollingScheduler.

Lemma start_split r now s :
  start r now s = if started s then s else start_resume r now (with_started true s).
Proof. reflexivity. Qed.

(** What [start] does once [bootstrapOnce] has returned: five new handles,
    one per tier, all armed; nothing else but the cache and the log of
    provider calls differs. *)
Lemma start_resume_fields r now s :
  let s' := start_resume r now s in
  let n := nextTimer s in
  oddsTimer s' = Some n ∧ matchListTimer s' = Some (S n) ∧
  topEventsTimer s' = Some (S (S n)) ∧ bannersTimer s' = Some (S (S (S n))) ∧
  sidebarTimer s' = Some (S (S (S (S n)))) ∧
  timers s' = <[S (S (S (S n))) := PollSidebar]>
                (<[S (S (S n)) := PollBanners]>
                   (<[S (S n) := PollTopEvents]>
                      (<[S n := PollMatchLists]>
                         (<[n := PollHotGmidOdds]> (timers s))))) ∧
  started s' = started s ∧ worker s' = worker s ∧ coalescer s' = coalescer s ∧
  oddsPollingActive s' = oddsPollingActive s.
Proof.
  pose proof (polled_bootstrapOnce r now s) as H.
  unfold start_resume. destruct (bootstrapOnce r now s) as [cfg' w' co' c' st' fl' a' b' d' e' f' tm' nt' pc'].
  destruct s as [cfg w co c st fl t1 t2 t3 t4 t5 tm nt pc].
  unfold polled, with_providerCalls, with_cache in H. cbn in H.
  injection H as -> -> -> -> -> -> -> -> -> -> -> ->.
  cbn. done.
Qed.

(** The five handles of a [start] are armed, each with its tier's
    callback. *)
Lemma start_resume_armed r now s :
  let s' := start_resume r now s in
  runs (oddsTimer s') s' = Some PollHotGmidOdds ∧
  runs (matchListTimer s') s' = Some PollMatchLists ∧
  runs (topEventsTimer s') s' = Some PollTopEvents ∧
  runs (bannersTimer s') s' = Some PollBanners ∧
  runs (sidebarTimer s') s' = Some PollSidebar.
Proof.
  destruct (start_resume_fields r now s) as (Ho & Hm & Ht & Hb & Hsb & Htm & _).
  cbv zeta. unfold runs. rewrite Ho, Hm, Ht, Hb, Hsb, Htm. cbn [mbind option_bind].
  repeat split;
    repeat first [ by rewrite lookup_insert_eq | rewrite lookup_insert_ne by lia ].
Qed.

Lemma runs_armed handle s cb : runs handle s = Some cb → armed handle s = true.
Proof.
  unfold runs, armed. destruct handle as [h|]; [|done]. cbn [mbind option_bind].
  intros H. apply bool_decide_eq_true_2. by eexists.
Qed.

Lemma fires_lookup cb s : fires cb s = true ↔ ∃ h, timers s !! h = Some cb.
Proof.
  unfold fires. rewrite bool_decide_eq_true, list_elem_of_fmap. split.
  - intros ([h cb'] & -> & Hin). exists h. by apply elem_of_map_to_list.
  - intros [h Hh]. exists (h, cb). split; [done|]. by apply elem_of_map_to_list.
Qed.

Lemma fires_none cb s : timers s = ∅ → fires cb s = false.
Proof.
  intros He. destruct (fires cb s) eqn:Hf; [|done].
  apply fires_lookup in Hf as [h Hh]. by rewrite He, lookup_empty in Hh.
Qed.

(** [stop] on a started scheduler clears the recorded handles and no
    other. *)
Lemma stop_timers s h :
  started s = true →
  timers (stop s) !! h
  = if bool_decide (Some h ∈ recorded s) then None else timers s !! h.
Proof.
  destruct s as [cfg w co c st fl t1 t2 t3 t4 t5 tm nt pc]. cbn [started].
  intros ->. unfold stop, recorded.
  cbn [started negb oddsTimer matchListTimer topEventsTimer bannersTimer sidebarTimer].
  assert (∀ (t : option nat) (m : gmap nat Callback),
            timers (clearInterval t
                      (mkScheduler cfg w co c true fl t1 t2 t3 t4 t5 m nt pc)) !! h
            = if bool_decide (Some h = t) then None else m !! h) as Hclear.
  { intros [k|] m; cbn; case_bool_decide as Hk; try done.
    - injection Hk as <-. apply lookup_delete_eq.
    - apply lookup_delete_ne. congruence. }
  destruct t1 as [h1|], t2 as [h2|], t3 as [h3|], t4 as [h4|], t5 as [h5|]; cbn;
    repeat match goal with
           | |- context [delete ?k _ !! h] =>
               destruct (decide (k = h)) as [->|];
               [rewrite lookup_delete_eq|rewrite lookup_delete_ne by done]
           end;
    case_bool_decide as Hin; try done;
    rewrite ?elem_of_cons, ?elem_of_nil in Hin;
    try (exfalso; apply Hin; tauto);
    try (exfalso; intuition congruence).
Qed.

Lemma stop_fields s :
  started s = true →
  let s' := stop s in
  started s' = false ∧ Worker.listening (worker s') = false ∧
  oddsPollingActive s' = oddsPollingActive s ∧ coalescer s' = coalescer s ∧
  cache s' = cache s ∧ recorded s' = recorded s ∧ nextTimer s' = nextTimer s ∧
  armed (oddsTimer s') s' = false ∧ armed (matchListTimer s') s' = false ∧
  armed (topEventsTimer s') s' = false ∧ armed (bannersTimer s') s' = false ∧
  armed (sidebarTimer s') s' = false.
Proof.
  intros Hs.
  assert (started (stop s) = false ∧ Worker.listening (worker (stop s)) = false ∧
          oddsPollingActive (stop s) = oddsPollingActive s ∧
          coalescer (stop s) = coalescer s ∧ cache (stop s) = cache s ∧
          recorded (stop s) = recorded s ∧ nextTimer (stop s) = nextTimer s)
    as (H1 & H2 & H3 & H4 & H5 & Hrec & Hnt).
  { destruct s as [cfg w co c st fl t1 t2 t3 t4 t5 tm nt pc]. cbn [started] in Hs.
    subst st. unfold stop.
    cbn [started negb oddsTimer matchListTimer topEventsTimer bannersTimer sidebarTimer].
    by destruct t1, t2, t3, t4, t5. }
  cbv zeta. repeat (split; [done|]).
  assert (∀ handle, handle ∈ recorded (stop s) → armed handle (stop s) = false) as Hoff.
  { intros [h|] Hin; [|done]. unfold armed. apply bool_decide_eq_false_2.
    rewrite (stop_timers s h Hs), <- Hrec. rewrite bool_decide_eq_true_2 by done.
    by intros [? ?]. }
  unfold recorded in Hoff at 1.
  repeat split; apply Hoff; rewrite !elem_of_cons; tauto.
Qed.

(** *** No interval outlives a [stop] that follows a completed [start] *)

Lemma lifecycle_polled s s' : polled s s' → lifecycle s' = lifecycle s.
Proof. intros ->. done. Qed.

Lemma lifecycle_deliver out : ∀ s, lifecycle (deliver out s) = lifecycle s.
Proof.
  induction out as [|ev out IH]; intros s; [done|].
  cbn [deliver foldl]. fold (deliver out (on_emitted s ev)). rewrite IH.
  unfold on_emitted. destruct (Worker.listening (worker s)); [|done]. by destruct ev.
Qed.

Lemma lifecycle_resume_fetch i outcome now s :
  lifecycle (resume_fetch i outcome now s).1 = lifecycle s.
Proof.
  unfold resume_fetch. destruct (Worker.fetching (worker s) !! i) as [[e q]|]; [|done].
  destruct (fetchOdds_resume outcome (gmid e) now (cache s)) as [success c'].
  destruct (Worker.finish launch i success (worker s) (coalescer s)) as [[w' co'] out].
  cbn [fst]. by rewrite lifecycle_deliver.
Qed.

Lemma lifecycle_resume_waiters fuel p outcome now : ∀ s,
  lifecycle (resume_waiters fuel p outcome now s).1 = lifecycle s.
Proof.
  induction fuel as [|fuel IH]; intros s; cbn [resume_waiters]; [done|].
  destruct (first_waiter p (Worker.fetching (worker s))) as [i|]; [|done].
  pose proof (lifecycle_resume_fetch i outcome now s) as H1.
  destruct (resume_fetch i outcome now s) as [s1 out1].
  specialize (IH s1). destruct (resume_waiters fuel p outcome now s1) as [s2 out2].
  cbn [fst] in *. congruence.
Qed.

Lemma lifecycle_oddsReply p reply now s :
  lifecycle (oddsReply p reply now s).1 = lifecycle s.
Proof.
  unfold oddsReply. destruct (Coalescer.running (coalescer s) !! p) as [[key f]|]; [|done].
  destruct (fetcher_result f reply now (cache s)) as [outcome c'].
  by rewrite lifecycle_resume_waiters.
Qed.

Lemma lifecycle_pollHotGmidOdds now s :
  lifecycle (pollHotGmidOdds now s).1 = lifecycle s.
Proof.
  unfold pollHotGmidOdds. destruct (oddsPollingActive s); [done|].
  destruct (getHotGmids now (cache s)) as [hot c'].
  case_bool_decide; [done|].
  destruct (Worker.emit_FETCH_ODDS launch hot _ _) as [[w' co'] out].
  cbn [fst]. by rewrite lifecycle_deliver.
Qed.

(** Only [start] and [stop] arm, clear or record an interval. *)
Lemma lifecycle_step s te :
  (∀ r, te.2 ≠ Start r) → te.2 ≠ Stop →
  lifecycle (step s te) = lifecycle s.
Proof.
  destruct te as [now ev]. cbn [snd]. intros Hstart Hstop.
  unfold step, step_out. cbn [fst snd].
  destruct ev as [r| | |reply|reply|reply|reply|g sport|g sport|p reply|key|key v ttl|key| ];
    cbn [fst snd]; try done.
  - by destruct (Hstart r).
  - destruct (fires PollHotGmidOdds s); [|done]. apply lifecycle_pollHotGmidOdds.
  - destruct (fires PollMatchLists s); [|done].
    apply lifecycle_polled, polled_pollMatchLists.
  - destruct (fires PollTopEvents s); [|done].
    apply lifecycle_polled, polled_pollTopEvents.
  - destruct (fires PollBanners s); [|done].
    apply lifecycle_polled, polled_pollBanners.
  - destruct (fires PollSidebar s); [|done].
    apply lifecycle_polled, polled_pollSidebar.
  - unfold getCoalescedOdds. by destruct (Coalescer.coalesce _ _ (coalescer s)).
  - apply lifecycle_oddsReply.
Qed.

Lemma intervals_recorded_lifecycle s s' :
  lifecycle s' = lifecycle s → intervals_recorded s → intervals_recorded s'.
Proof.
  intros H Hs.
  pose proof (f_equal (λ x, x.1.1.1) H) as H1.
  pose proof (f_equal (λ x, x.1.1.2) H) as H2.
  pose proof (f_equal (λ x, x.1.2) H) as H3.
  cbn [lifecycle fst snd] in H1, H2, H3.
  unfold intervals_recorded. by rewrite H1, H2, H3.
Qed.

Lemma intervals_recorded_start r now s :
  intervals_recorded s → intervals_recorded (start r now s).
Proof.
  intros Hi. rewrite start_split. destruct (started s) eqn:Hs; [done|].
  destruct Hi as [Hrec Hoff].
  destruct (start_resume_fields r now (with_started true s))
    as (Ho & Hm & Ht & Hb & Hsb & Htm & Hst & _).
  split.
  - intros h Hh. unfold recorded. rewrite Ho, Hm, Ht, Hb, Hsb.
    rewrite Htm in Hh. change (timers (with_started true s)) with (timers s) in Hh.
    rewrite (Hoff Hs) in Hh.
    rewrite !lookup_insert_is_Some', lookup_empty in Hh.
    rewrite !elem_of_cons.
    destruct Hh as [->|[->|[->|[->|[->|[? ?]]]]]]; [tauto..|done].
  - by rewrite Hst.
Qed.

Lemma intervals_recorded_stop s :
  intervals_recorded s → intervals_recorded (stop s).
Proof.
  intros Hi. destruct (started s) eqn:Hs.
  2:{ unfold stop. by rewrite Hs. }
  destruct Hi as [Hrec Hoff].
  destruct (stop_fields s Hs) as (Hst & _).
  assert (timers (stop s) = ∅) as Hnone.
  { apply map_eq. intros h. rewrite lookup_empty, (stop_timers s h Hs).
    case_bool_decide as Hin; [done|].
    destruct (timers s !! h) eqn:Hh; [|done].
    exfalso. apply Hin, Hrec. rewrite Hh. by eexists. }
  split; [|done]. intros h. rewrite Hnone, lookup_empty. by intros [? ?].
Qed.

Lemma intervals_recorded_step s te :
  intervals_recorded s → intervals_recorded (step s te).
Proof.
  intros Hs.
  destruct (te.2) as [r| | |reply|reply|reply|reply|g sport|g sport|p reply|key|key v ttl|key| ]
    eqn:Hev;
    try (apply (intervals_recorded_lifecycle s); [|done];
         apply lifecycle_step; rewrite Hev; done).
  - destruct te as [now ev]. cbn [snd] in Hev. subst ev.
    by apply intervals_recorded_start.
  - destruct te as [now ev]. cbn [snd] in Hev. subst ev.
    by apply intervals_recorded_stop.
Qed.

Lemma intervals_recorded_run trace : ∀ s,
  intervals_recorded s → intervals_recorded (run s trace).
Proof.
  induction trace as [|te trace IH]; intros s Hs; [done|].
  cbn [run foldl]. apply IH. by apply intervals_recorded_step.
Qed.

Lemma intervals_recorded_create cfg c : intervals_recorded (create cfg c).
Proof. split; [|done]. intros h. cbn. rewrite lookup_empty. by intros [? ?]. Qed.

End TimerFacts.

(** X11.  [start()] on a stopped scheduler arms five intervals with
    distinct handles, each recorded in its field and running its tier's
    poller.  [stop()] on a started scheduler clears the intervals whose
    handles the five fields record, and no other, and leaves cache and
    coalescer as they are.  In every state that the scheduler reaches when
    its [start()] calls run to completion before anything else happens,
    the armed intervals are the recorded ones: after a [stop()] no interval
    is armed and no tick of any tier runs.  (An interval that no field
    records stays armed through [stop()].) *)
Theorem start_arms_and_stop_disarms_every_tier :
  (∀ r now s, Exchange.started s = false →
     let s1 := Exchange.start r now s in
     Exchange.runs (Exchange.oddsTimer s1) s1 = Some Exchange.PollHotGmidOdds ∧
     Exchange.runs (Exchange.matchListTimer s1) s1 = Some Exchange.PollMatchLists ∧
     Exchange.runs (Exchange.topEventsTimer s1) s1 = Some Exchange.PollTopEvents ∧
     Exchange.runs (Exchange.bannersTimer s1) s1 = Some Exchange.PollBanners ∧
     Exchange.runs (Exchange.sidebarTimer s1) s1 = Some Exchange.PollSidebar ∧
     NoDup (Exchange.recorded s1)) ∧
  (∀ s, Exchange.started s = true →
     let s2 := Exchange.stop s in
     Exchange.cache s2 = Exchange.cache s ∧
     Exchange.coalescer s2 = Exchange.coalescer s ∧
     ∀ h, Exchange.timers s2 !! h
          = if bool_decide (Some h ∈ Exchange.recorded s) then None
            else Exchange.timers s !! h) ∧
  (∀ cfg c0 trace,
     let s2 := Exchange.stop (Exchange.run (Exchange.create cfg c0) trace) in
     Exchange.timers s2 = ∅ ∧
     ∀ now,
       Exchange.step s2 (now, Exchange.OddsTick) = s2 ∧
       (∀ reply, Exchange.step s2 (now, Exchange.MatchListTick reply) = s2) ∧
       (∀ reply, Exchange.step s2 (now, Exchange.TopEventsTick reply) = s2) ∧
       (∀ reply, Exchange.step s2 (now, Exchange.BannersTick reply) = s2) ∧
       (∀ reply, Exchange.step s2 (now, Exchange.SidebarTick reply) = s2)).
Proof.
  split; [|split].
  - intros r now s Hs s1. unfold s1. rewrite start_split, Hs.
    destruct (start_resume_armed r now (Exchange.with_started true s))
      as (H1 & H2 & H3 & H4 & H5).
    repeat (split; [done|]).
    destruct (start_resume_fields r now (Exchange.with_started true s))
      as (Ho & Hm & Ht & Hb & Hsb & _).
    unfold Exchange.recorded. rewrite Ho, Hm, Ht, Hb, Hsb.
    repeat (constructor; [rewrite ?elem_of_cons, ?elem_of_nil; intros H;
                          repeat (destruct H as [H|H]; [injection H; lia|]); done|]).
    constructor.
  - intros s Hs s2.
    destruct (stop_fields s Hs) as (_ & _ & _ & Hco & Hc & _).
    split; [done|]. split; [done|]. intros h. by apply stop_timers.
  - intros cfg c0 trace s2.
    pose proof (intervals_recorded_stop _
                  (intervals_recorded_run trace _ (intervals_recorded_create cfg c0)))
      as [_ Hoff].
    fold s2 in Hoff.
    assert (Exchange.started s2 = false) as Hst.
    { unfold s2, Exchange.stop.
      destruct (Exchange.started (Exchange.run _ trace)) eqn:Hs; [done|].
      cbn [negb]. exact Hs. }
    specialize (Hoff Hst). split; [done|]. intros now.
    unfold Exchange.step, Exchange.step_out. cbn [fst snd].
    by rewrite !fires_none.
Qed.

Lemma start_arms_and_stop_disarms_every_tier_witness :
  let replies := Exchange.mkReplies (Returned [JStr "cricket"]) (fun _ => Returned JNull)
                                    (Returned []) (Returned JNull) (Returned JNull) in
  let s := Exchange.run (Exchange.create Exchange.DEFAULT_POLL_CONFIG InMemory.empty)
             [(0, Exchange.Start replies); (1000, Exchange.OddsTick);
              (1500, Exchange.MarkGmidHot "G1" 4); (2000, Exchange.OddsTick)] in
  Exchange.timers (Exchange.stop s) = ∅ ∧
  Exchange.step (Exchange.stop s) (3000, Exchange.OddsTick) = Exchange.stop s.
Proof.
  intros replies s.
  destruct (proj2 (proj2 start_arms_and_stop_disarms_every_tier)
              Exchange.DEFAULT_POLL_CONFIG InMemory.empty
              [(0, Exchange.Start replies); (1000, Exchange.OddsTick);
               (1500, Exchange.MarkGmidHot "G1" 4); (2000, Exchange.OddsTick)])
    as [Hnone Hticks].
  split; [exact Hnone|]. exact (proj1 (Hticks 3000)).
Defined.

(** X12.  A [stop()] that arrives while [start()] is awaiting
    [bootstrapOnce] does not prevent the timers: [start] has raised
    [started], so [stop] runs and lowers the flag before any of the new
    timers exists; when the bootstrap returns, [start] arms the five timers
    all the same.
    The scheduler then polls with [started] clear, a further [stop()]
    returns at once without clearing anything, and the worker has lost its
    listeners. *)
Theorem stop_during_bootstrap_leaves_timers_armed
  (r : Exchange.BootstrapReplies) (now : Z) (s : Exchange.ExchangePollingScheduler) :
  Exchange.started s = false →
  let entered := (Exchange.start_enter s).2 in
  let resumed := Exchange.start_resume r now (Exchange.stop entered) in
  Exchange.start r now s = Exchange.start_resume r now entered ∧
  Exchange.started resumed = false ∧
  Exchange.armed (Exchange.oddsTimer resumed) resumed = true ∧
  Exchange.armed (Exchange.matchListTimer resumed) resumed = true ∧
  Exchange.armed (Exchange.topEventsTimer resumed) resumed = true ∧
  Exchange.armed (Exchange.bannersTimer resumed) resumed = true ∧
  Exchange.armed (Exchange.sidebarTimer resumed) resumed = true ∧
  Exchange.stop resumed = resumed ∧
  Worker.listening (Exchange.worker resumed) = false.
Proof.
  intros Hs entered resumed.
  assert (entered = Exchange.with_started true s) as Hentered.
  { unfold entered, Exchange.start_enter. by rewrite Hs. }
  split; [by rewrite start_split, Hs, Hentered|].
  destruct (stop_fields entered) as (Hst & Hl & _).
  { by rewrite Hentered. }
  destruct (start_resume_fields r now (Exchange.stop entered))
    as (Ho & Hm & Ht & Hb & Hsb & Htm & Hst' & Hw & _).
  fold resumed in Ho, Hm, Ht, Hb, Hsb, Htm, Hst', Hw.
  assert (Exchange.started resumed = false) as Hstopped by (by rewrite Hst').
  split; [done|].
  destruct (start_resume_armed r now (Exchange.stop entered)) as (A1 & A2 & A3 & A4 & A5).
  fold resumed in A1, A2, A3, A4, A5.
  repeat (split; [by eapply runs_armed|]).
  split.
  - unfold Exchange.stop. by rewrite Hstopped.
  - by rewrite Hw.
Qed.

Lemma stop_during_bootstrap_leaves_timers_armed_witness :
  let replies := Exchange.mkReplies (Returned [JStr "cricket"]) (fun _ => Returned JNull)
                                    (Returned []) (Returned JNull) (Returned JNull) in
  let s := Exchange.create Exchange.DEFAULT_POLL_CONFIG InMemory.empty in
  let resumed := Exchange.start_resume replies 900
                   (Exchange.stop (Exchange.start_enter s).2) in
  Exchange.start replies 900 s = Exchange.start_resume replies 900 (Exchange.start_enter s).2 ∧
  Exchange.started resumed = false ∧
  Exchange.armed (Exchange.oddsTimer resumed) resumed = true ∧
  Exchange.armed (Exchange.matchListTimer resumed) resumed = true ∧
  Exchange.armed (Exchange.topEventsTimer resumed) resumed = true ∧
  Exchange.armed (Exchange.bannersTimer resumed) resumed = true ∧
  Exchange.armed (Exchange.sidebarTimer resumed) resumed = true ∧
  Exchange.stop resumed = resumed ∧
  Worker.listening (Exchange.worker resumed) = false.
Proof.
  intros replies s.
  apply (stop_during_bootstrap_leaves_timers_armed replies 900 s); reflexivity.
Defined.

Section DeafWorkerFacts.
Import Exchange.
Implicit Types s : ExchangePollingScheduler.

Lemma deliver_deaf out : ∀ s,
  Worker.listening (worker s) = false → deliver out s = s.
Proof.
  induction out as [|ev out IH]; intros s Hl; [done|].
  cbn [deliver foldl]. fold (deliver out (on_emitted s ev)).
  assert (on_emitted s ev = s) as -> by (unfold on_emitted; by rewrite Hl).
  by apply IH.
Qed.

Lemma resume_fetch_deaf i outcome now s :
  Worker.listening (worker s) = false →
  let s' := (resume_fetch i outcome now s).1 in
  Worker.listening (worker s') = false ∧ oddsPollingActive s' = oddsPollingActive s.
Proof.
  intros Hl. unfold resume_fetch.
  destruct (Worker.fetching (worker s) !! i) as [[e q]|] eqn:Hi; [|done].
  destruct (fetchOdds_resume outcome (gmid e) now (cache s)) as [success c'].
  pose proof (finish_order launch i success (worker s) (coalescer s) e q Hi) as Hf.
  destruct (Worker.finish launch i success (worker s) (coalescer s)) as [[w' co'] out].
  destruct Hf as (_ & Hl' & _). cbn [fst].
  rewrite deliver_deaf; cbn [worker with_worker]; by rewrite ?Hl', ?Hl.
Qed.

Lemma resume_waiters_deaf fuel p outcome now : ∀ s,
  Worker.listening (worker s) = false →
  let s' := (resume_waiters fuel p outcome now s).1 in
  Worker.listening (worker s') = false ∧ oddsPollingActive s' = oddsPollingActive s.
Proof.
  induction fuel as [|fuel IH]; intros s Hl; cbn [resume_waiters]; [done|].
  destruct (first_waiter p (Worker.fetching (worker s))) as [i|]; [|done].
  pose proof (resume_fetch_deaf i outcome now s Hl) as H1.
  destruct (resume_fetch i outcome now s) as [s1 out1]. cbn [fst] in H1.
  destruct H1 as [Hl1 Hf1].
  specialize (IH s1 Hl1).
  destruct (resume_waiters fuel p outcome now s1) as [s2 out2]. cbn [fst] in *.
  destruct IH as [Hl2 Hf2]. split; [done|congruence].
Qed.

Lemma deaf_step s te :
  Worker.listening (worker s) = false →
  Worker.listening (worker (step s te)) = false ∧
  (oddsPollingActive s = true → oddsPollingActive (step s te) = true).
Proof.
  intros Hl. destruct te as [now ev]. unfold step, step_out. cbn [fst snd].
  assert (∀ s', same_pool s s' →
            Worker.listening (worker s') = false ∧
            (oddsPollingActive s = true → oddsPollingActive s' = true)) as Hframe.
  { intros s' (-> & _ & ->). done. }
  destruct ev as [r| | |reply|reply|reply|reply|g sport|g sport|p reply|key|key v ttl|key| ];
    cbn [fst snd].
  - apply Hframe, same_pool_start.
  - destruct (started s) eqn:Hst.
    + destruct (stop_fields s Hst) as (_ & ? & -> & _). done.
    + unfold stop. rewrite Hst. done.
  - destruct (fires PollHotGmidOdds s); [|by apply Hframe].
    unfold pollHotGmidOdds. destruct (oddsPollingActive s) eqn:Hflag; [done|].
    destruct (getHotGmids now (cache s)) as [hot c'].
    case_bool_decide as Hlen; [done|].
    unfold Worker.emit_FETCH_ODDS.
    cbn [worker with_cache with_oddsPollingActive coalescer]. rewrite Hl.
    cbn [deliver foldl fst]. done.
  - destruct (fires PollMatchLists s); apply Hframe;
      [apply same_pool_pollMatchLists|done].
  - destruct (fires PollTopEvents s); apply Hframe;
      [apply same_pool_pollTopEvents|done].
  - destruct (fires PollBanners s); apply Hframe;
      [apply same_pool_pollBanners|done].
  - destruct (fires PollSidebar s); apply Hframe;
      [apply same_pool_pollSidebar|done].
  - by apply Hframe.
  - unfold getCoalescedOdds.
    destruct (Coalescer.coalesce _ _ (coalescer s)) as [p co]. done.
  - unfold oddsReply.
    destruct (Coalescer.running (coalescer s) !! p) as [[key f]|]; [|done].
    destruct (fetcher_result f reply now (cache s)) as [outcome c'].
    destruct (resume_waiters_deaf
                (length (Worker.fetching
                           (worker (with_cache c'
                              (with_coalescer (Coalescer.settle p outcome (coalescer s)) s)))))
                p outcome now
                (with_cache c' (with_coalescer (Coalescer.settle p outcome (coalescer s)) s))
                Hl) as [H1 H2].
    split; [done|]. by rewrite H2.
  - by apply Hframe.
  - by apply Hframe.
  - by apply Hframe.
  - by apply Hframe.
Qed.

Lemma deaf_run trace : ∀ s,
  Worker.listening (worker s) = false →
  Worker.listening (worker (run s trace)) = false ∧
  (oddsPollingActive s = true → oddsPollingActive (run s trace) = true).
Proof.
  induction trace as [|te trace IH]; intros s Hl; [done|].
  cbn [run foldl]. destruct (deaf_step s te Hl) as [Hl' Hf'].
  destruct (IH _ Hl') as [Hl'' Hf'']. split; [done|]. auto.
Qed.

End DeafWorkerFacts.

(** X13.  Odds polling does not survive a [stop()]: [stop] removes the
    worker's own [FETCH_ODDS] listener with all the others, and [start]
    registers none.  Whatever follows a [stop()] of a started scheduler,
    a new [start()] included, the worker stays without listeners; an odds
    tick then starts no fetch and emits nothing; and once
    [oddsPollingActive] is raised it stays raised, since no
    [TICK_COMPLETE] is heard any more. *)
Theorem odds_polling_does_not_survive_a_stop (s0 : Exchange.ExchangePollingScheduler)
  (trace : list (Z * Exchange.Event)) :
  Exchange.started s0 = true →
  let s := Exchange.run (Exchange.stop s0) trace in
  Worker.listening (Exchange.worker s) = false ∧
  (∀ now,
     Exchange.worker (Exchange.step s (now, Exchange.OddsTick)) = Exchange.worker s ∧
     Exchange.coalescer (Exchange.step s (now, Exchange.OddsTick)) = Exchange.coalescer s ∧
     (Exchange.step_out s (now, Exchange.OddsTick)).2 = []) ∧
  (Exchange.oddsPollingActive s = true →
   ∀ more, Exchange.oddsPollingActive (Exchange.run s more) = true).
Proof.
  intros Hst s.
  destruct (stop_fields s0 Hst) as (_ & Hdeaf & _).
  destruct (deaf_run trace (Exchange.stop s0) Hdeaf) as [Hl _]. fold s in Hl.
  split; [done|]. split.
  - intros now. unfold Exchange.step, Exchange.step_out. cbn [fst snd].
    destruct (Exchange.fires Exchange.PollHotGmidOdds s); [|done].
    unfold Exchange.pollHotGmidOdds.
    destruct (Exchange.oddsPollingActive s); [done|].
    destruct (Exchange.getHotGmids now (Exchange.cache s)) as [hot c'].
    case_bool_decide as Hlen; [done|].
    unfold Worker.emit_FETCH_ODDS.
    cbn [Exchange.worker Exchange.with_cache Exchange.with_oddsPollingActive
         Exchange.coalescer]. rewrite Hl.
    cbn [Exchange.deliver foldl fst snd]. done.
  - intros Hflag more. by apply (deaf_run more s Hl).
Qed.

Lemma odds_polling_does_not_survive_a_stop_witness :
  let replies := Exchange.mkReplies (Returned []) (fun _ => Returned JNull)
                                    (Returned []) (Returned JNull) (Returned JNull) in
  let s0 := Exchange.start replies 0
              (Exchange.create Exchange.DEFAULT_POLL_CONFIG InMemory.empty) in
  let s := Exchange.run (Exchange.stop s0)
             [(5000, Exchange.Start replies);
              (5100, Exchange.MarkGmidHot "G1" 4);
              (6000, Exchange.OddsTick)] in
  Exchange.started s = true ∧
  Exchange.oddsPollingActive s = true ∧
  Coalescer.fetcherCalls (Exchange.coalescer s) = [] ∧
  ∀ more, Exchange.oddsPollingActive (Exchange.run s more) = true.
Proof.
  intros replies s0 s.
  split; [reflexivity|]. split; [reflexivity|]. split; [reflexivity|].
  apply (odds_polling_does_not_survive_a_stop s0
           [(5000, Exchange.Start replies);
            (5100, Exchange.MarkGmidHot "G1" 4);
            (6000, Exchange.OddsTick)]); reflexivity.
Defined.

(** ** Worker slots and provider calls of the exchange scheduler *)

Section LiveSlotFacts.
Import Exchange.
Implicit Types s : ExchangePollingScheduler.
Implicit Types co : Coalescer.RequestCoalescer Fetcher.

(** Promises allowed to be dead: none in a state at rest, the settled one
    while its waiters are being resumed. *)
Variable bad : nat → Prop.

Lemma coalesce_keeps_running key (f : Fetcher) co q :
  is_Some (Coalescer.running co !! q) →
  is_Some (Coalescer.running (Coalescer.coalesce key f co).2 !! q).
Proof.
  intros Hq. unfold Coalescer.coalesce.
  destruct (Coalescer.inFlight co !! key); [done|]. cbn [snd Coalescer.running].
  apply lookup_insert_is_Some'. by right.
Qed.

Lemma coalesce_live key (f : Fetcher) co :
  Coalescer.consistent co →
  is_Some (Coalescer.running (Coalescer.coalesce key f co).2
             !! (Coalescer.coalesce key f co).1).
Proof.
  intros (Hslots & _). unfold Coalescer.coalesce.
  destruct (Coalescer.inFlight co !! key) as [existing|] eqn:Hk; cbn [fst snd].
  - destruct (proj1 (Hslots key existing) Hk) as [g Hg]. by eexists.
  - cbn [Coalescer.running]. rewrite lookup_insert_eq. by eexists.
Qed.

Lemma drain_loop_live q : ∀ active started co,
  Coalescer.consistent co →
  Forall (fun x => bad x.2 ∨ is_Some (Coalescer.running co !! x.2)) started →
  let '(_, _, started', co') := Worker.drain_loop launch q active started co in
  Coalescer.consistent co' ∧
  Forall (fun x => bad x.2 ∨ is_Some (Coalescer.running co' !! x.2)) started'.
Proof.
  induction q as [|e q IH]; intros active started co Hc Hall; cbn [Worker.drain_loop].
  { done. }
  destruct (active <? Worker.MAX_CONCURRENCY); [|done].
  pose proof (consistent_coalesce ("odds:" +:+ gmid e) (PlainOdds (gmid e) (sid e)) co Hc)
    as Hc'.
  pose proof (coalesce_live ("odds:" +:+ gmid e) (PlainOdds (gmid e) (sid e)) co Hc)
    as Hlive.
  pose proof (coalesce_keeps_running ("odds:" +:+ gmid e) (PlainOdds (gmid e) (sid e)) co)
    as Hmono.
  unfold launch at 1.
  destruct (Coalescer.coalesce ("odds:" +:+ gmid e) (PlainOdds (gmid e) (sid e)) co)
    as [p co1]. cbn [fst snd] in *.
  apply IH; [done|]. apply Forall_app. split.
  - eapply Forall_impl; [exact Hall|]. intros x [?|?]; [by left|right; by apply Hmono].
  - apply Forall_singleton. by right.
Qed.

Lemma drain_live (w : Worker.OddsFetchWorker HotGmidEntry) co :
  Coalescer.consistent co →
  Forall (fun x => bad x.2 ∨ is_Some (Coalescer.running co !! x.2)) (Worker.fetching w) →
  let '(w', co', _) := Worker.drain launch w co in
  Coalescer.consistent co' ∧
  Forall (fun x => bad x.2 ∨ is_Some (Coalescer.running co' !! x.2)) (Worker.fetching w').
Proof.
  intros Hc Hall. unfold Worker.drain.
  destruct (Worker.processing w && Worker.is_empty (Worker.queue w)
            && (Worker.activeCount w =? 0)); [done|].
  pose proof (drain_loop_live (Worker.queue w) (Worker.activeCount w)
                (Worker.fetching w) co Hc Hall) as Hl.
  destruct (Worker.drain_loop launch (Worker.queue w) (Worker.activeCount w)
              (Worker.fetching w) co) as [[[q' active'] started'] co'].
  by destruct (Worker.is_empty q' && (active' =? 0)).
Qed.

Lemma resume_fetch_live i outcome now s :
  Coalescer.consistent (coalescer s) →
  Forall (fun x => bad x.2 ∨ is_Some (Coalescer.running (coalescer s) !! x.2))
         (Worker.fetching (worker s)) →
  let s' := (resume_fetch i outcome now s).1 in
  Coalescer.consistent (coalescer s') ∧
  Forall (fun x => bad x.2 ∨ is_Some (Coalescer.running (coalescer s') !! x.2))
         (Worker.fetching (worker s')).
Proof.
  intros Hc Hall. unfold resume_fetch.
  destruct (Worker.fetching (worker s) !! i) as [[e q]|] eqn:Hi; [|done].
  destruct (fetchOdds_resume outcome (gmid e) now (cache s)) as [success c'].
  unfold Worker.finish. rewrite Hi.
  pose proof (drain_live
                (Worker.mkWorker (Worker.activeCount (worker s) - 1)
                   (Worker.queue (worker s)) (Worker.processing (worker s))
                   (Worker.listening (worker s)) (delete i (Worker.fetching (worker s))))
                (coalescer s) Hc) as Hd.
  destruct (Worker.drain launch _ (coalescer s)) as [[w' co'] out].
  cbn [fst]. rewrite deliver_coalescer, deliver_worker.
  cbn [coalescer worker with_worker with_coalescer with_cache].
  apply Hd. cbn [Worker.fetching]. by apply Forall_delete.
Qed.

Lemma resume_waiters_live fuel p outcome now : ∀ s,
  Coalescer.consistent (coalescer s) →
  Forall (fun x => bad x.2 ∨ is_Some (Coalescer.running (coalescer s) !! x.2))
         (Worker.fetching (worker s)) →
  let s' := (resume_waiters fuel p outcome now s).1 in
  Forall (fun x => bad x.2 ∨ is_Some (Coalescer.running (coalescer s') !! x.2))
         (Worker.fetching (worker s')).
Proof.
  induction fuel as [|fuel IH]; intros s Hc Hall; cbn [resume_waiters]; [done|].
  destruct (first_waiter p (Worker.fetching (worker s))) as [i|]; [|done].
  pose proof (resume_fetch_live i outcome now s Hc Hall) as H1.
  destruct (resume_fetch i outcome now s) as [s1 out1]. cbn [fst] in H1.
  destruct H1 as [Hc1 Hall1]. specialize (IH s1 Hc1 Hall1).
  by destruct (resume_waiters fuel p outcome now s1) as [s2 out2].
Qed.

End LiveSlotFacts.

Section SettledFacts.
Import Exchange.
Implicit Types s : ExchangePollingScheduler.

Lemma launch_settled X e (co : Coalescer.RequestCoalescer Fetcher) :
  Coalescer.settled co = X → Coalescer.settled (launch e co).2 = X ∧ True.
Proof.
  intros <-. split; [|done]. unfold launch, Coalescer.coalesce.
  by destruct (Coalescer.inFlight co !! _).
Qed.

Lemma resume_fetch_settled i outcome now s :
  Coalescer.settled (coalescer (resume_fetch i outcome now s).1)
  = Coalescer.settled (coalescer s).
Proof.
  unfold resume_fetch.
  destruct (Worker.fetching (worker s) !! i) as [[e q]|] eqn:Hi; [|done].
  destruct (fetchOdds_resume outcome (gmid e) now (cache s)) as [success c'].
  pose proof (finish_launched launch
                (fun co => Coalescer.settled co = Coalescer.settled (coalescer s))
                (fun _ => True) (launch_settled _) i success (worker s) (coalescer s)
                eq_refl) as Hf.
  destruct (Worker.finish launch i success (worker s) (coalescer s)) as [[w' co'] out].
  destruct Hf as (Hs & _). cbn [fst]. by rewrite deliver_coalescer.
Qed.

Lemma resume_waiters_settled fuel p outcome now : ∀ s,
  Coalescer.settled (coalescer (resume_waiters fuel p outcome now s).1)
  = Coalescer.settled (coalescer s).
Proof.
  induction fuel as [|fuel IH]; intros s; cbn [resume_waiters]; [done|].
  destruct (first_waiter p (Worker.fetching (worker s))) as [i|]; [|done].
  pose proof (resume_fetch_settled i outcome now s) as H1.
  destruct (resume_fetch i outcome now s) as [s1 out1]. cbn [fst] in H1.
  specialize (IH s1).
  destruct (resume_waiters fuel p outcome now s1) as [s2 out2]. cbn [fst] in *.
  congruence.
Qed.

(** The promise behind an answered call settles with what the fetcher
    closure makes of the answer. *)
Lemma oddsReply_settles p key f reply now s :
  Coalescer.running (coalescer s) !! p = Some (key, f) →
  Coalescer.settled (coalescer (oddsReply p reply now s).1) !! p
  = Some (fetcher_result f reply now (cache s)).1.
Proof.
  intros Hp. unfold oddsReply. rewrite Hp.
  destruct (fetcher_result f reply now (cache s)) as [outcome c']. cbn [fst].
  rewrite resume_waiters_settled. cbn [coalescer with_cache with_coalescer].
  unfold Coalescer.settle. rewrite Hp. cbn [Coalescer.settled].
  apply lookup_insert_eq.
Qed.

Lemma waiters_none p (l : list (HotGmidEntry * nat)) :
  waiters p l = 0%nat → Forall (fun x => x.2 ≠ p) l.
Proof.
  unfold waiters. induction l as [|[e q] l IH]; [done|]. cbn [List.filter snd].
  destruct (Nat.eqb p q) eqn:Hq; cbn [length]; [done|].
  intros H. constructor; [|by apply IH]. cbn. apply Nat.eqb_neq in Hq. congruence.
Qed.

Lemma slots_live_Forall s :
  slots_live s ↔
  Forall (fun x => False ∨ is_Some (Coalescer.running (coalescer s) !! x.2))
         (Worker.fetching (worker s)).
Proof.
  unfold slots_live. rewrite Forall_lookup. split.
  - intros H i [e p] Hi. right. by eapply H.
  - intros H i e p Hi. by destruct (H i (e, p) Hi).
Qed.

Lemma oddsReply_slots_live p reply now s :
  Coalescer.consistent (coalescer s) →
  slots_live s →
  slots_live (oddsReply p reply now s).1.
Proof.
  intros Hc Hlive.
  destruct (Coalescer.running (coalescer s) !! p) as [[key f]|] eqn:Hp.
  2:{ unfold oddsReply. by rewrite Hp. }
  destruct (oddsReply_resumes_every_waiter p reply now s Hc ltac:(by eexists))
    as [_ Hnone].
  apply waiters_none in Hnone.
  apply slots_live_Forall.
  assert (Forall (fun x => x.2 = p ∨
                           is_Some (Coalescer.running
                                      (coalescer (oddsReply p reply now s).1) !! x.2))
                 (Worker.fetching (worker (oddsReply p reply now s).1))) as Hall.
  { unfold oddsReply. rewrite Hp.
    destruct (fetcher_result f reply now (cache s)) as [outcome c'].
    apply (resume_waiters_live (fun q => q = p));
      cbn [coalescer worker with_cache with_coalescer].
    - by apply consistent_settle.
    - apply slots_live_Forall in Hlive.
      eapply Forall_impl; [exact Hlive|]. intros [e q] [[]|Hq]. cbn [snd] in *.
      destruct (decide (q = p)) as [->|Hne]; [by left|right].
      unfold Coalescer.settle. rewrite Hp. cbn [Coalescer.running].
      by rewrite lookup_delete_ne. }
  rewrite Forall_forall in Hall, Hnone. apply Forall_forall. intros x Hx.
  destruct (Hall x Hx) as [Hbad|?]; [|by right].
  by destruct (Hnone x Hx).
Qed.

Lemma slots_live_step s te :
  Coalescer.consistent (coalescer s) →
  slots_live s → slots_live (step s te).
Proof.
  intros Hc Hlive. destruct te as [now ev]. unfold step, step_out. cbn [fst snd].
  assert (∀ s', same_pool s s' → slots_live s') as Hframe.
  { intros s' (Hw & Hco & _). unfold slots_live. rewrite Hw, Hco. exact Hlive. }
  destruct ev as [r| | |reply|reply|reply|reply|g sport|g sport|p reply|key|key v ttl|key| ];
    cbn [fst snd].
  - apply Hframe, same_pool_start.
  - destruct s as [cfg w co c st fl t1 t2 t3 t4 t5 tm nt pc].
    unfold stop. cbn [started negb]. destruct st; cbn [negb]; [|done].
    by destruct t1, t2, t3, t4, t5.
  - destruct (fires PollHotGmidOdds s); [|done].
    unfold pollHotGmidOdds. destruct (oddsPollingActive s); [done|].
    destruct (getHotGmids now (cache s)) as [hot c']. case_bool_decide as Hlen; [done|].
    cbn [worker coalescer with_cache with_oddsPollingActive].
    unfold Worker.emit_FETCH_ODDS, Worker.enqueue.
    destruct (Worker.listening (worker s)); [|done].
    pose proof (drain_live (fun _ => False)
                  (Worker.mkWorker (Worker.activeCount (worker s))
                     (Worker.queue (worker s) ++ hot) (Worker.processing (worker s))
                     true (Worker.fetching (worker s))) (coalescer s) Hc) as H.
    destruct (Worker.drain launch _ (coalescer s)) as [[w' co'] out].
    cbn [fst]. apply slots_live_Forall. rewrite deliver_coalescer, deliver_worker.
    cbn [coalescer worker with_worker with_coalescer].
    apply H. by apply slots_live_Forall.
  - destruct (fires PollMatchLists s); apply Hframe;
      [apply same_pool_pollMatchLists|done].
  - destruct (fires PollTopEvents s); apply Hframe;
      [apply same_pool_pollTopEvents|done].
  - destruct (fires PollBanners s); apply Hframe;
      [apply same_pool_pollBanners|done].
  - destruct (fires PollSidebar s); apply Hframe;
      [apply same_pool_pollSidebar|done].
  - done.
  - unfold getCoalescedOdds.
    pose proof (coalesce_keeps_running ("odds:" +:+ g) (CachingOdds g (JNum sport))
                  (coalescer s)) as Hmono.
    destruct (Coalescer.coalesce _ _ (coalescer s)) as [p co]. cbn [snd] in *.
    intros i e q Hi. apply Hmono. by eapply Hlive.
  - by apply oddsReply_slots_live.
  - done.
  - done.
  - done.
  - done.
Qed.

Lemma slots_live_run trace cfg c0 : slots_live (run (create cfg c0) trace).
Proof.
  unfold run.
  assert (Coalescer.consistent (coalescer (create cfg c0)) ∧
          slots_live (create cfg c0)) as H.
  { split; [apply consistent_empty|]. intros i e p Hi. done. }
  revert H. generalize (create cfg c0) as s.
  induction trace as [|te trace IH]; intros s [Hc Hl]; [done|].
  cbn [foldl]. apply IH. split.
  - by apply coalescer_consistent_step.
  - by apply slots_live_step.
Qed.

End SettledFacts.



Section AnsweredOddsFacts.
Import Exchange.
Implicit Types s : ExchangePollingScheduler.
Variable items : list Json.
Variable now : Z.
Hypothesis items_non_empty : items ≠ [].

Lemma non_empty_items : non_empty (JArr items) = true.
Proof.
  unfold non_empty. cbn. apply bool_decide_eq_true_2.
  destruct items; [done|cbn; lia].
Qed.

Lemma resume_fetch_writes i s e q :
  Worker.fetching (worker s) !! i = Some (e, q) →
  cache (resume_fetch i (Fulfilled (JArr items)) now s).1
  = InMemory.set (EXCHANGE_CACHE_KEYS.matchOdds (gmid e)) (JArr items)
                 (Some EXCHANGE_CACHE_TTL.MATCH_ODDS) now (cache s).
Proof.
  intros Hi. unfold resume_fetch. rewrite Hi. unfold fetchOdds_resume.
  rewrite non_empty_items.
  destruct (Worker.finish launch i true (worker s) (coalescer s)) as [[w' co'] out].
  cbn [fst]. by destruct (deliver_fields out (with_worker w' (with_coalescer co'
    (with_cache (InMemory.set (EXCHANGE_CACHE_KEYS.matchOdds (gmid e)) (JArr items)
                   (Some EXCHANGE_CACHE_TTL.MATCH_ODDS) now (cache s)) s))))
    as (_ & _ & -> & _).
Qed.

Lemma odds_written_persists K K' c :
  InMemory.store c !! K
    = Some (InMemory.mkEntry (JArr items) (now + 2 * 1000)
                             (now + 2 * 1000 * InMemory.STALE_MULTIPLIER)) →
  InMemory.store (InMemory.set K' (JArr items) (Some EXCHANGE_CACHE_TTL.MATCH_ODDS) now c)
    !! K
    = Some (InMemory.mkEntry (JArr items) (now + 2 * 1000)
                             (now + 2 * 1000 * InMemory.STALE_MULTIPLIER)).
Proof.
  intros HK. rewrite set_lookup. by case_bool_decide.
Qed.

Lemma elem_of_delete_or {A} (l : list A) i x y :
  l !! i = Some y → x ∈ l → x = y ∨ x ∈ delete i l.
Proof.
  intros Hi Hx. rewrite <- (take_drop_middle l i y Hi) in Hx.
  rewrite delete_take_drop. rewrite !elem_of_app, elem_of_cons in *. tauto.
Qed.

(** Every [fetchOdds] that awaits the settled promise stores the answer
    under the key of its own gmid, and what was stored stays. *)
Lemma resume_waiters_writes fuel p K : ∀ s,
  Coalescer.consistent (coalescer s) → retired p (coalescer s) →
  (waiters p (Worker.fetching (worker s)) ≤ fuel)%nat →
  (∃ e, (e, p) ∈ Worker.fetching (worker s) ∧ K = EXCHANGE_CACHE_KEYS.matchOdds (gmid e)) ∨
  InMemory.store (cache s) !! K
    = Some (InMemory.mkEntry (JArr items) (now + 2 * 1000)
                             (now + 2 * 1000 * InMemory.STALE_MULTIPLIER)) →
  InMemory.store (cache (resume_waiters fuel p (Fulfilled (JArr items)) now s).1) !! K
    = Some (InMemory.mkEntry (JArr items) (now + 2 * 1000)
                             (now + 2 * 1000 * InMemory.STALE_MULTIPLIER)).
Proof.
  induction fuel as [|fuel IH]; intros s Hc Hr Hfuel HK; cbn [resume_waiters].
  { cbn [fst]. destruct HK as [(e & Hin & _)|HK]; [|done]. exfalso.
    assert (waiters p (Worker.fetching (worker s)) = 0%nat) as H0 by lia.
    apply waiters_none in H0. rewrite Forall_forall in H0. by apply (H0 _ Hin). }
  destruct (first_waiter p (Worker.fetching (worker s))) as [i|] eqn:Hfirst.
  2:{ cbn [fst]. destruct HK as [(e & Hin & _)|HK]; [|done]. exfalso.
      apply first_waiter_None, waiters_none in Hfirst.
      rewrite Forall_forall in Hfirst. by apply (Hfirst _ Hin). }
  destruct (first_waiter_Some _ _ _ Hfirst) as [e0 Hi].
  pose proof (resume_fetch_retired p i (Fulfilled (JArr items)) now s e0 Hi Hc Hr) as H1.
  pose proof (resume_fetch_writes i s e0 p Hi) as Hw.
  pose proof (finish_launched launch (fun _ => True) (fun _ => True)
                (fun _ _ _ => conj I I) i true (worker s) (coalescer s) I) as Hf.
  assert (worker (resume_fetch i (Fulfilled (JArr items)) now s).1
          = (Worker.finish launch i true (worker s) (coalescer s)).1.1) as Hworker.
  { unfold resume_fetch. rewrite Hi. unfold fetchOdds_resume. rewrite non_empty_items.
    destruct (Worker.finish launch i true (worker s) (coalescer s)) as [[w' co'] out].
    cbn [fst]. by rewrite deliver_worker. }
  destruct (resume_fetch i (Fulfilled (JArr items)) now s) as [s1 out1]. cbn [fst] in *.
  destruct H1 as (Hc1 & Hr1 & Hwait).
  specialize (IH s1 Hc1 Hr1 ltac:(lia)).
  destruct (resume_waiters fuel p (Fulfilled (JArr items)) now s1) as [s2 out2].
  cbn [fst] in *. apply IH. rewrite Hw.
  destruct HK as [(e & Hin & ->)|HK].
  - destruct (elem_of_delete_or _ i _ _ Hi Hin) as [Heq|Hrest].
    + right. injection Heq as ->. rewrite set_lookup. by rewrite bool_decide_eq_true_2.
    + left. exists e. split; [|done]. rewrite Hworker.
      destruct (Worker.finish launch i true (worker s) (coalescer s)) as [[w' co'] out].
      cbn [fst]. destruct Hf as (_ & extra & -> & _). rewrite Hi.
      apply elem_of_app. by left.
  - right. by apply odds_written_persists.
Qed.

End AnsweredOddsFacts.



(** ** The timer tiers: every call is made, every good answer is stored *)

Section PollerFacts.
Import Exchange.
Implicit Types s : ExchangePollingScheduler.

Lemma poll_one_calls reply now s sport :
  providerCalls (poll_one_match_list reply now s sport)
  = providerCalls s ++ [GetMatchList sport].
Proof.
  unfold poll_one_match_list. destruct (reply sport) as [data|?]; [|done].
  by destruct (truthy data).
Qed.

Lemma poll_one_writes reply now s sport data :
  reply sport = Returned data → truthy data = true →
  InMemory.store (cache (poll_one_match_list reply now s sport))
    !! EXCHANGE_CACHE_KEYS.matchList sport
  = Some (InMemory.mkEntry data (now + EXCHANGE_CACHE_TTL.MATCH_LIST * 1000)
            (now + EXCHANGE_CACHE_TTL.MATCH_LIST * 1000 * InMemory.STALE_MULTIPLIER)).
Proof.
  intros Hr Ht. unfold poll_one_match_list. rewrite Hr, Ht.
  cbn [cache with_cache]. rewrite set_lookup. by rewrite bool_decide_eq_true_2.
Qed.

Lemma pollMatchLists_calls reply now s :
  providerCalls (pollMatchLists reply now s)
  = providerCalls s ++ [GetMatchList 4; GetMatchList 1; GetMatchList 2].
Proof.
  unfold pollMatchLists, POLL_SPORT_IDS. cbn [foldl].
  rewrite !poll_one_calls, <- !app_assoc. done.
Qed.

Lemma pollMatchLists_writes reply now s sport data :
  sport ∈ POLL_SPORT_IDS →
  reply sport = Returned data → truthy data = true →
  InMemory.store (cache (pollMatchLists reply now s))
    !! EXCHANGE_CACHE_KEYS.matchList sport
  = Some (InMemory.mkEntry data (now + EXCHANGE_CACHE_TTL.MATCH_LIST * 1000)
            (now + EXCHANGE_CACHE_TTL.MATCH_LIST * 1000 * InMemory.STALE_MULTIPLIER)).
Proof.
  intros Hin Hr Ht. unfold pollMatchLists, POLL_SPORT_IDS in *. cbn [foldl].
  rewrite !elem_of_cons, elem_of_nil in Hin.
  destruct Hin as [->|[->|[->|[]]]].
  - rewrite !poll_one_other by (by vm_compute). by apply poll_one_writes.
  - rewrite !poll_one_other by (by vm_compute). by apply poll_one_writes.
  - by apply poll_one_writes.
Qed.

Lemma pollMatchLists_other reply now s key :
  (∀ sport, key ≠ EXCHANGE_CACHE_KEYS.matchList sport) →
  InMemory.store (cache (pollMatchLists reply now s)) !! key
  = InMemory.store (cache s) !! key.
Proof.
  intros Hne. unfold pollMatchLists, POLL_SPORT_IDS. cbn [foldl].
  by rewrite !poll_one_other.
Qed.

Lemma pollTopEvents_calls reply now s :
  providerCalls (pollTopEvents reply now s) = providerCalls s ++ [GetTopEvents].
Proof.
  unfold pollTopEvents. destruct reply as [events|?]; [|done].
  by destruct (bool_decide _).
Qed.

Lemma pollBanners_calls reply now s :
  providerCalls (pollBanners reply now s) = providerCalls s ++ [GetBanners].
Proof.
  unfold pollBanners. destruct reply as [data|?]; [|done]. by destruct (truthy data).
Qed.

Lemma pollSidebar_calls reply now s :
  providerCalls (pollSidebar reply now s) = providerCalls s ++ [GetSidebarTree].
Proof.
  unfold pollSidebar. destruct reply as [data|?]; [|done]. by destruct (truthy data).
Qed.

Lemma pollTopEvents_lookup reply now s key :
  InMemory.store (cache (pollTopEvents reply now s)) !! key =
  match reply with
  | Returned (e :: events) =>
      if bool_decide (key = EXCHANGE_CACHE_KEYS.topEvents)
      then Some (InMemory.mkEntry (JArr (e :: events))
                   (now + EXCHANGE_CACHE_TTL.TOP_EVENTS * 1000)
                   (now + EXCHANGE_CACHE_TTL.TOP_EVENTS * 1000 * InMemory.STALE_MULTIPLIER))
      else InMemory.store (cache s) !! key
  | _ => InMemory.store (cache s) !! key
  end.
Proof.
  unfold pollTopEvents. destruct reply as [[|e events]|?]; [done| |done].
  cbn [length]. rewrite bool_decide_eq_true_2 by lia.
  cbn [cache with_cache with_providerCalls]. by rewrite set_lookup.
Qed.

Lemma pollBanners_lookup reply now s key :
  InMemory.store (cache (pollBanners reply now s)) !! key =
  match reply with
  | Returned data =>
      if truthy data && bool_decide (key = EXCHANGE_CACHE_KEYS.banners)
      then Some (InMemory.mkEntry data
                   (now + EXCHANGE_CACHE_TTL.BANNERS * 1000)
                   (now + EXCHANGE_CACHE_TTL.BANNERS * 1000 * InMemory.STALE_MULTIPLIER))
      else InMemory.store (cache s) !! key
  | Threw _ => InMemory.store (cache s) !! key
  end.
Proof.
  unfold pollBanners. destruct reply as [data|?]; [|done].
  destruct (truthy data); [|done].
  cbn [cache with_cache with_providerCalls andb]. by rewrite set_lookup.
Qed.

Lemma pollSidebar_lookup reply now s key :
  InMemory.store (cache (pollSidebar reply now s)) !! key =
  match reply with
  | Returned tree =>
      if truthy tree && bool_decide (key = EXCHANGE_CACHE_KEYS.sidebar)
      then Some (InMemory.mkEntry tree
                   (now + EXCHANGE_CACHE_TTL.SIDEBAR * 1000)
                   (now + EXCHANGE_CACHE_TTL.SIDEBAR * 1000 * InMemory.STALE_MULTIPLIER))
      else InMemory.store (cache s) !! key
  | Threw _ => InMemory.store (cache s) !! key
  end.
Proof.
  unfold pollSidebar. destruct reply as [data|?]; [|done].
  destruct (truthy data); [|done].
  cbn [cache with_cache with_providerCalls andb]. by rewrite set_lookup.
Qed.

End PollerFacts.

(** X16.  A failing call does not stop a tier.  [pollMatchLists] calls
    the provider for each of the sports 4, 1 and 2, in that order, whatever
    the earlier calls answer or throw, and stores every truthy answer under
    [exchange:matches:<sid>] for [MATCH_LIST] seconds; [bootstrapOnce] makes
    its seven provider calls whatever fails, and every good answer among
    them is in the cache when it returns. *)
Theorem pollers_attempt_all_and_store_good_answers :
  (∀ reply now s,
     Exchange.providerCalls (Exchange.pollMatchLists reply now s)
       = Exchange.providerCalls s
         ++ [Exchange.GetMatchList 4; Exchange.GetMatchList 1; Exchange.GetMatchList 2] ∧
     ∀ sport data,
       sport ∈ Exchange.POLL_SPORT_IDS →
       reply sport = Returned data → truthy data = true →
       InMemory.store (Exchange.cache (Exchange.pollMatchLists reply now s))
         !! Exchange.EXCHANGE_CACHE_KEYS.matchList sport
       = Some (InMemory.mkEntry data (now + 120 * 1000)
                 (now + 120 * 1000 * InMemory.STALE_MULTIPLIER))) ∧
  (∀ r now s,
     let s' := Exchange.bootstrapOnce r now s in
     Exchange.providerCalls s'
       = Exchange.providerCalls s
         ++ [Exchange.GetAllSports; Exchange.GetMatchList 4; Exchange.GetMatchList 1;
             Exchange.GetMatchList 2; Exchange.GetTopEvents; Exchange.GetBanners;
             Exchange.GetSidebarTree] ∧
     (∀ sports, Exchange.r_sports r = Returned sports → sports ≠ [] →
        InMemory.store (Exchange.cache s') !! Exchange.EXCHANGE_CACHE_KEYS.allSports
        = Some (InMemory.mkEntry (JArr sports) (now + 86400 * 1000)
                  (now + 86400 * 1000 * InMemory.STALE_MULTIPLIER))) ∧
     (∀ sport data,
        sport ∈ Exchange.POLL_SPORT_IDS →
        Exchange.r_matchList r sport = Returned data → truthy data = true →
        InMemory.store (Exchange.cache s') !! Exchange.EXCHANGE_CACHE_KEYS.matchList sport
        = Some (InMemory.mkEntry data (now + 120 * 1000)
                  (now + 120 * 1000 * InMemory.STALE_MULTIPLIER))) ∧
     (∀ events, Exchange.r_topEvents r = Returned events → events ≠ [] →
        InMemory.store (Exchange.cache s') !! Exchange.EXCHANGE_CACHE_KEYS.topEvents
        = Some (InMemory.mkEntry (JArr events) (now + 7200 * 1000)
                  (now + 7200 * 1000 * InMemory.STALE_MULTIPLIER))) ∧
     (∀ data, Exchange.r_banners r = Returned data → truthy data = true →
        InMemory.store (Exchange.cache s') !! Exchange.EXCHANGE_CACHE_KEYS.banners
        = Some (InMemory.mkEntry data (now + 7200 * 1000)
                  (now + 7200 * 1000 * InMemory.STALE_MULTIPLIER))) ∧
     (∀ tree, Exchange.r_sidebar r = Returned tree → truthy tree = true →
        InMemory.store (Exchange.cache s') !! Exchange.EXCHANGE_CACHE_KEYS.sidebar
        = Some (InMemory.mkEntry tree (now + 172800 * 1000)
                  (now + 172800 * 1000 * InMemory.STALE_MULTIPLIER)))).
Proof.
  split.
  { intros reply now s. split; [apply pollMatchLists_calls|].
    intros sport data. apply pollMatchLists_writes. }
  intros r now s s'. unfold s', Exchange.bootstrapOnce.
  split.
  { rewrite pollSidebar_calls, pollBanners_calls, pollTopEvents_calls,
      pollMatchLists_calls.
    destruct (Exchange.r_sports r) as [sports|?]; [destruct (bool_decide _)|];
      cbn [Exchange.providerCalls Exchange.with_cache Exchange.with_providerCalls];
      by rewrite <- !app_assoc. }
  assert (∀ sport, Exchange.EXCHANGE_CACHE_KEYS.allSports
                   ≠ Exchange.EXCHANGE_CACHE_KEYS.matchList sport) as Hsports.
  { intros sport. unfold Exchange.EXCHANGE_CACHE_KEYS.matchList.
    cbv [String.append Exchange.EXCHANGE_CACHE_KEYS.allSports]. discriminate. }
  assert (∀ sport k, k ∈ [Exchange.EXCHANGE_CACHE_KEYS.sidebar;
                          Exchange.EXCHANGE_CACHE_KEYS.banners;
                          Exchange.EXCHANGE_CACHE_KEYS.topEvents] →
            bool_decide (Exchange.EXCHANGE_CACHE_KEYS.matchList sport = k) = false) as Hk.
  { intros sport k Hin. apply bool_decide_eq_false_2.
    rewrite !elem_of_cons, elem_of_nil in Hin.
    destruct Hin as [->|[->|[->|[]]]];
      unfold Exchange.EXCHANGE_CACHE_KEYS.matchList;
      cbv [String.append Exchange.EXCHANGE_CACHE_KEYS.sidebar
           Exchange.EXCHANGE_CACHE_KEYS.banners
           Exchange.EXCHANGE_CACHE_KEYS.topEvents]; discriminate. }
  split; [|split; [|split; [|split]]].
  - intros sports Hr Hne.
    rewrite pollSidebar_lookup, pollBanners_lookup, pollTopEvents_lookup.
    rewrite pollMatchLists_other by done.
    rewrite Hr. rewrite (bool_decide_eq_true_2 (0 < length sports)%nat)
      by (destruct sports; [done|cbn; lia]).
    cbn [Exchange.cache Exchange.with_cache]. rewrite set_lookup.
    destruct (Exchange.r_sidebar r) as [x|?]; [destruct (truthy x)|];
      (destruct (Exchange.r_banners r) as [y|?]; [destruct (truthy y)|]);
      destruct (Exchange.r_topEvents r) as [[|? ?]|?];
      cbn [andb]; repeat case_bool_decide; done.
  - intros sport data Hin Hr Ht.
    rewrite pollSidebar_lookup, pollBanners_lookup, pollTopEvents_lookup.
    rewrite !Hk by (rewrite !elem_of_cons; tauto).
    rewrite (pollMatchLists_writes _ _ _ sport data Hin Hr Ht).
    destruct (Exchange.r_sidebar r) as [x|?]; [rewrite andb_false_r|];
      (destruct (Exchange.r_banners r) as [y|?]; [rewrite andb_false_r|]);
      by destruct (Exchange.r_topEvents r) as [[|? ?]|?].
  - intros events Hr Hne.
    rewrite pollSidebar_lookup, pollBanners_lookup, pollTopEvents_lookup.
    rewrite Hr. destruct events as [|e events]; [done|].
    destruct (Exchange.r_sidebar r) as [x|?]; [destruct (truthy x)|];
      (destruct (Exchange.r_banners r) as [y|?]; [destruct (truthy y)|]);
      cbn [andb]; repeat case_bool_decide; done.
  - intros data Hr Ht.
    rewrite pollSidebar_lookup, pollBanners_lookup. rewrite Hr, Ht.
    destruct (Exchange.r_sidebar r) as [x|?]; [destruct (truthy x)|];
      cbn [andb]; repeat case_bool_decide; done.
  - intros tree Hr Ht. rewrite pollSidebar_lookup. rewrite Hr, Ht.
    by rewrite bool_decide_eq_true_2.
Qed.

Lemma pollers_attempt_all_and_store_good_answers_witness :
  let reply := fun sport : Z =>
                 if sport =? 1 then Threw "timeout"
                 else Returned (JObj [("t1", JArr [JStr "match"])]) in
  InMemory.store
    (Exchange.cache
       (Exchange.pollMatchLists reply 0
          (Exchange.create Exchange.DEFAULT_POLL_CONFIG InMemory.empty)))
    !! Exchange.EXCHANGE_CACHE_KEYS.matchList 2
  = Some (InMemory.mkEntry (JObj [("t1", JArr [JStr "match"])]) (0 + 120 * 1000)
            (0 + 120 * 1000 * InMemory.STALE_MULTIPLIER)).
Proof.
  intros reply.
  apply (proj1 pollers_attempt_all_and_store_good_answers reply 0).
  - unfold Exchange.POLL_SPORT_IDS. repeat constructor.
  - reflexivity.
  - reflexivity.
Defined.

(** ** The prefetch scheduler: what it stores *)

Section PrefetchStoreFacts.
Import Prefetch.
Implicit Types s : DataPrefetchScheduler.

Lemma collect_matches_flat names reply : ∀ acc,
  collect_matches names reply acc
  = acc ++ flat_map (fun name => match reply name with
                                 | Returned found => found
                                 | Threw _ => []
                                 end) names.
Proof.
  induction names as [|name names IH]; intros acc; cbn [collect_matches flat_map].
  { by rewrite app_nil_r. }
  destruct (reply name) as [found|?]; rewrite IH; [by rewrite app_assoc|done].
Qed.

Lemma prefetchMatchList_lookup reply now s sport key :
  InMemory.store (cache (prefetchMatchList reply now s sport)) !! key =
  if bool_decide (key = PREFETCH_KEYS.liveMatches sport)
  then Some (InMemory.mkEntry
               (JArr (collect_matches (providers s) (fun name => reply name sport) []))
               (now + 100 * 1000) (now + 100 * 1000 * InMemory.STALE_MULTIPLIER))
  else InMemory.store (cache s) !! key.
Proof.
  unfold prefetchMatchList. cbn [cache with_cache]. by rewrite set_lookup.
Qed.

Lemma prefetchMatchList_providers reply now s sport :
  providers (prefetchMatchList reply now s sport) = providers s.
Proof. done. Qed.

End PrefetchStoreFacts.

(** X17.  [prefetchAllMatchLists] stores, for each of the sports cricket,
    soccer and tennis, under [live_matches:<sport>] and for 100 s, the
    lists of all providers that answered, concatenated in the order of the
    provider map; a provider that throws contributes nothing and stops
    nothing.  The entry is written even when every provider throws: the
    list then stored is empty and replaces what was cached. *)
Theorem prefetch_stores_what_the_providers_answered
  (reply : string → string → Reply (list Json)) (now : Z)
  (s : Prefetch.DataPrefetchScheduler) (sport : string) :
  sport ∈ Prefetch.PREFETCH_SPORTS →
  let answered name := match reply name sport with
                       | Returned found => found
                       | Threw _ => []
                       end in
  InMemory.store (Prefetch.cache (Prefetch.prefetchAllMatchLists reply now s))
    !! Prefetch.PREFETCH_KEYS.liveMatches sport
  = Some (InMemory.mkEntry (JArr (flat_map answered (Prefetch.providers s)))
            (now + 100 * 1000) (now + 100 * 1000 * InMemory.STALE_MULTIPLIER)) ∧
  ((∀ name, name ∈ Prefetch.providers s → ∃ reason, reply name sport = Threw reason) →
   (InMemory.get (Prefetch.PREFETCH_KEYS.liveMatches sport) now
      (Prefetch.cache (Prefetch.prefetchAllMatchLists reply now s))).1 = JArr []).
Proof.
  intros Hin answered.
  assert (InMemory.store (Prefetch.cache (Prefetch.prefetchAllMatchLists reply now s))
            !! Prefetch.PREFETCH_KEYS.liveMatches sport
          = Some (InMemory.mkEntry (JArr (flat_map answered (Prefetch.providers s)))
                    (now + 100 * 1000) (now + 100 * 1000 * InMemory.STALE_MULTIPLIER)))
    as Hstored.
  { unfold Prefetch.prefetchAllMatchLists, Prefetch.PREFETCH_SPORTS in *. cbn [foldl].
    rewrite !elem_of_cons, elem_of_nil in Hin.
    rewrite !prefetchMatchList_lookup, !prefetchMatchList_providers.
    rewrite !collect_matches_flat. cbn [app].
    destruct Hin as [->|[->|[->|[]]]]; repeat case_bool_decide; done. }
  split; [done|].
  intros Hthrow. rewrite get_result, Hstored. cbn [InMemory.staleUntil InMemory.value].
  replace (_ <? now) with false by (unfold InMemory.STALE_MULTIPLIER; lia).
  f_equal. revert Hthrow. generalize (Prefetch.providers s) as names.
  induction names as [|name names IH]; intros Hthrow; [done|].
  cbn [flat_map]. rewrite IH.
  - unfold answered. destruct (Hthrow name) as [reason ->]; [by left|done].
  - intros n Hn. apply Hthrow. by right.
Qed.

Lemma prefetch_stores_what_the_providers_answered_witness :
  let reply := fun name sport : string =>
                 if String.eqb name "betfair" then Threw "timeout"
                 else Returned [JStr sport] in
  InMemory.store
    (Prefetch.cache
       (Prefetch.prefetchAllMatchLists reply 0
          (Prefetch.create ["betfair"; "exchange"] InMemory.empty)))
    !! Prefetch.PREFETCH_KEYS.liveMatches "soccer"
  = Some (InMemory.mkEntry (JArr [JStr "soccer"])
            (0 + 100 * 1000) (0 + 100 * 1000 * InMemory.STALE_MULTIPLIER)).
Proof.
  intros reply.
  apply (prefetch_stores_what_the_providers_answered reply 0
           (Prefetch.create ["betfair"; "exchange"] InMemory.empty) "soccer").
  unfold Prefetch.PREFETCH_SPORTS. repeat constructor.
Defined.

(** X18.  [fetchOdds] of the prefetch worker stores the markets of the
    first provider, in the order of the provider map, that answers a
    non-empty list: providers before it that throw or answer an empty list
    are passed over, it returns [true], and the markets stay under
    [prefetch:odds:<matchId>] for [LIVE_ODDS × 3] = 3 s. *)
Theorem prefetch_fetchOdds_first_answer_wins
  (before after : list string) (name : string) (reply : string → Reply (list Json))
  (markets : list Json) (matchId : string) (now : Z) (c : InMemory.InMemoryCacheService) :
  (∀ n, n ∈ before → reply n = Returned [] ∨ ∃ reason, reply n = Threw reason) →
  reply name = Returned markets →
  markets ≠ [] →
  Prefetch.fetchOdds_result (before ++ name :: after) reply matchId now c
  = (true, InMemory.set (Prefetch.PREFETCH_KEYS.matchOdds matchId) (JArr markets)
                        (Some 3) now c).
Proof.
  intros Hbefore Hname Hne.
  induction before as [|n before IH]; cbn [app Prefetch.fetchOdds_result].
  - rewrite Hname. rewrite bool_decide_eq_true_2; [done|].
    destruct markets; [done|cbn; lia].
  - destruct (Hbefore n ltac:(by left)) as [->|[reason ->]].
    + cbn [length]. rewrite bool_decide_eq_false_2 by lia.
      apply IH. intros n' Hn'. apply Hbefore. by right.
    + apply IH. intros n' Hn'. apply Hbefore. by right.
Qed.

Lemma prefetch_fetchOdds_first_answer_wins_witness :
  let reply := fun name : string =>
                 if String.eqb name "betfair" then Threw "timeout"
                 else if String.eqb name "sportradar" then Returned []
                 else Returned [JStr name] in
  Prefetch.fetchOdds_result (["betfair"; "sportradar"] ++ "diamond" :: ["exchange"])
    reply "M1" 500 InMemory.empty
  = (true, InMemory.set (Prefetch.PREFETCH_KEYS.matchOdds "M1") (JArr [JStr "diamond"])
                        (Some 3) 500 InMemory.empty).
Proof.
  intros reply.
  apply (prefetch_fetchOdds_first_answer_wins ["betfair"; "sportradar"] ["exchange"]
           "diamond" reply [JStr "diamond"]).
  - intros n Hn. rewrite !elem_of_cons, elem_of_nil in Hn.
    destruct Hn as [->|[->|[]]]; [right; by eexists|by left].
  - reflexivity.
  - discriminate.
Defined.

(** ** The odds tier of the prefetch scheduler *)

Section PrefetchTickFacts.
Import Prefetch.
Implicit Types s : DataPrefetchScheduler.

Lemma prefetch_deliver_fields out : ∀ s,
  worker (foldl on_emitted s out) = worker s ∧
  cache (foldl on_emitted s out) = cache s ∧
  (Worker.TICK_COMPLETE ∉ out → foldl on_emitted s out = s) ∧
  (oddsPollingActive s = true → oddsPollingActive (foldl on_emitted s out) = false →
   Worker.TICK_COMPLETE ∈ out).
Proof.
  induction out as [|ev out IH]; intros s.
  { split; [done|]. split; [done|]. split; [done|]. cbn. congruence. }
  cbn [foldl].
  destruct (IH (on_emitted s ev)) as (Hw & Hca & Hid & Hflag).
  assert (worker (on_emitted s ev) = worker s ∧ cache (on_emitted s ev) = cache s)
    as (Hw' & Hca').
  { unfold on_emitted. destruct (Worker.listening (worker s)); [|done]. by destruct ev. }
  split; [congruence|]. split; [congruence|]. split.
  - intros Hnot. rewrite Hid.
    + unfold on_emitted. destruct (Worker.listening (worker s)); [|done].
      destruct ev; [done|]. exfalso. apply Hnot. apply elem_of_cons. by left.
    + intros Hin. apply Hnot. apply elem_of_cons. by right.
  - intros Ht Hf. destruct ev as [e b|].
    + apply elem_of_cons. right. apply Hflag; [|done].
      unfold on_emitted. by destruct (Worker.listening (worker s)).
    + apply elem_of_cons. by left.
Qed.

Lemma prefetch_guarded_fetchDone i reply now s :
  Worker.counted (worker s) ∧ (Worker.busy (worker s) → oddsPollingActive s = true) →
  let '(s', out) := fetchDone i reply now s in
  (Worker.counted (worker s') ∧ (Worker.busy (worker s') → oddsPollingActive s' = true)) ∧
  (oddsPollingActive s = true → oddsPollingActive s' = false →
   Worker.TICK_COMPLETE ∈ out).
Proof.
  intros [Hc Hg]. unfold fetchDone.
  destruct (Worker.fetching (worker s) !! i) as [[m q]|] eqn:Hi.
  2:{ split; [done|]. congruence. }
  destruct (fetchOdds_result (providers s) reply m now (cache s)) as [success c'].
  pose proof (finish_spec launch i success (worker s) (fetches s) Hc) as Hf.
  destruct (Worker.finish launch i success (worker s) (fetches s)) as [[w' n'] out].
  destruct Hf as (Hc' & Hl & Hsome & _).
  set (s1 := with_pool (w', n') (with_cache c' s)).
  destruct (prefetch_deliver_fields out s1) as (Hw & _ & Hid & Hflag).
  split.
  - split; [by rewrite Hw|]. rewrite Hw. cbn [worker with_pool s1 fst].
    intros Hbusy.
    destruct (Hsome ltac:(by eexists)) as [(_ & Hq & Hfe & _)|[Hnot _]].
    + exfalso. destruct Hbusy as [?|?]; congruence.
    + rewrite (Hid Hnot). cbn. apply Hg. right. intros Hnil.
      by rewrite Hnil in Hi.
  - intros Ht Hfalse. by apply Hflag.
Qed.

Lemma prefetch_guarded_poll s :
  Worker.counted (worker s) ∧ (Worker.busy (worker s) → oddsPollingActive s = true) →
  let '(s', out) := pollHotMatchOdds s in
  (Worker.counted (worker s') ∧ (Worker.busy (worker s') → oddsPollingActive s' = true)) ∧
  out = [] ∧
  (oddsPollingActive s = true → oddsPollingActive s' = true).
Proof.
  intros [Hc Hg]. unfold pollHotMatchOdds.
  destruct (oddsPollingActive s) eqn:Hflag; [done|].
  case_bool_decide as Hlen.
  { split; [|done]. split; [done|]. intros Hb. by apply Hg in Hb. }
  unfold Worker.emit_FETCH_ODDS. cbn [worker with_oddsPollingActive fetches].
  destruct (Worker.listening (worker s)).
  - pose proof (enqueue_nonempty launch (getHotMatchIds (cache s)) (worker s) (fetches s) Hc)
      as He.
    pose proof (enqueue_spec launch (getHotMatchIds (cache s)) (worker s) (fetches s) Hc)
      as Hs.
    destruct (Worker.enqueue launch (getHotMatchIds (cache s)) (worker s) (fetches s))
      as [[w' n'] out].
    destruct He as [-> Hbusy]; [by destruct (getHotMatchIds (cache s))|].
    destruct Hs as (Hc' & _ & _).
    split; [|done]. cbn [foldl]. by split.
  - split; [|done]. cbn [foldl]. split; [done|]. done.
Qed.

Lemma prefetchAllMatchLists_pool reply now s :
  worker (prefetchAllMatchLists reply now s) = worker s ∧
  oddsPollingActive (prefetchAllMatchLists reply now s) = oddsPollingActive s ∧
  fetches (prefetchAllMatchLists reply now s) = fetches s ∧
  providers (prefetchAllMatchLists reply now s) = providers s.
Proof.
  unfold prefetchAllMatchLists. generalize PREFETCH_SPORTS as sports.
  intros sports. revert s.
  induction sports as [|sp sports IH]; intros s; [done|].
  cbn [foldl]. destruct (IH (prefetchMatchList reply now s sp)) as (-> & -> & -> & ->).
  done.
Qed.

Lemma prefetch_start_pool reply now s :
  worker (start reply now s) = worker s ∧
  oddsPollingActive (start reply now s) = oddsPollingActive s.
Proof.
  unfold start. destruct (started s); [done|]. cbn [worker oddsPollingActive].
  by destruct (prefetchAllMatchLists_pool reply now (with_started true s)) as (-> & -> & _).
Qed.

Lemma prefetch_stop_pool s :
  Worker.counted (worker s) ∧ (Worker.busy (worker s) → oddsPollingActive s = true) →
  (Worker.counted (worker (stop s)) ∧
   (Worker.busy (worker (stop s)) → oddsPollingActive (stop s) = true)) ∧
  oddsPollingActive (stop s) = oddsPollingActive s.
Proof.
  unfold stop. destruct (started s); cbn [negb]; [|done].
  by destruct (oddsTimer s).
Qed.

Lemma prefetch_guarded_step s te :
  Worker.counted (worker s) ∧ (Worker.busy (worker s) → oddsPollingActive s = true) →
  (Worker.counted (worker (step s te)) ∧
   (Worker.busy (worker (step s te)) → oddsPollingActive (step s te) = true)) ∧
  (oddsPollingActive s = true → oddsPollingActive (step s te) = false →
   Worker.TICK_COMPLETE ∈ (step_out s te).2).
Proof.
  intros Hs. destruct te as [now ev]. unfold step, step_out. cbn [fst snd].
  destruct ev as [reply| | |i reply|m]; cbn [fst snd].
  - destruct (prefetch_start_pool reply now s) as [-> ->]. split; [done|]. congruence.
  - destruct (prefetch_stop_pool s Hs) as [H Hflag]. split; [done|].
    rewrite Hflag. congruence.
  - destruct (armed s); [|split; [done|cbn [fst snd]; congruence]].
    pose proof (prefetch_guarded_poll s Hs) as H.
    destruct (pollHotMatchOdds s) as [s' out]. destruct H as (H1 & -> & H3).
    split; [done|]. cbn [fst snd]. intros Ht Hf. rewrite (H3 Ht) in Hf. done.
  - pose proof (prefetch_guarded_fetchDone i reply now s Hs) as H.
    by destruct (fetchDone i reply now s) as [s' out].
  - split; [done|]. cbn. congruence.
Qed.

Lemma prefetch_guarded_run trace : ∀ s,
  Worker.counted (worker s) ∧ (Worker.busy (worker s) → oddsPollingActive s = true) →
  Worker.counted (worker (run s trace)) ∧
  (Worker.busy (worker (run s trace)) → oddsPollingActive (run s trace) = true).
Proof.
  induction trace as [|te trace IH]; intros s Hs; [done|].
  cbn [run foldl]. apply IH. by apply prefetch_guarded_step.
Qed.

Lemma prefetch_guarded_create names c :
  Worker.counted (worker (create names c)) ∧
  (Worker.busy (worker (create names c)) → oddsPollingActive (create names c) = true).
Proof.
  split; [apply counted_idle|]. intros [H|H]; by destruct H.
Qed.

Lemma prefetch_tick_dispatches s :
  Worker.counted (worker s) ∧ (Worker.busy (worker s) → oddsPollingActive s = true) →
  oddsPollingActive s = false →
  getHotMatchIds (cache s) ≠ [] →
  let s' := (pollHotMatchOdds s).1 in
  oddsPollingActive s' = true ∧
  (Worker.listening (worker s) = true →
   (Worker.fetching (worker s')).*1 ++ Worker.queue (worker s')
     = getHotMatchIds (cache s)).
Proof.
  intros [Hc Hg] Hflag Hhot s'.
  assert (Worker.queue (worker s) = [] ∧ Worker.fetching (worker s) = []) as [Hq Hf].
  { split.
    - destruct (Worker.queue (worker s)) eqn:E; [done|].
      rewrite Hg in Hflag; [done|]. left. by rewrite E.
    - destruct (Worker.fetching (worker s)) eqn:E; [done|].
      rewrite Hg in Hflag; [done|]. right. by rewrite E. }
  unfold s', pollHotMatchOdds. rewrite Hflag.
  rewrite bool_decide_eq_false_2 by (by destruct (getHotMatchIds (cache s))).
  cbn [worker fetches with_oddsPollingActive].
  unfold Worker.emit_FETCH_ODDS.
  destruct (Worker.listening (worker s)).
  - pose proof (enqueue_nonempty launch (getHotMatchIds (cache s))
                  (worker s) (fetches s) Hc Hhot) as He.
    pose proof (enqueue_partition launch (getHotMatchIds (cache s))
                  (worker s) (fetches s) Hhot) as Hp.
    destruct (Worker.enqueue launch (getHotMatchIds (cache s))
                (worker s) (fetches s)) as [[w' n'] out].
    destruct He as [-> _]. cbn [fst foldl].
    split; [done|]. intros _.
    cbn [worker with_pool fst]. rewrite Hp, Hq, Hf. done.
  - cbn [fst foldl]. split; [done|]. done.
Qed.

(** The tick of the in-memory scheduler is the guard followed by the
    resumption with what the in-memory [getHotMatchIds] returns. *)
Lemma pollHotMatchOdds_split s :
  pollHotMatchOdds s
  = if pollHotMatchOdds_enter s
    then pollHotMatchOdds_resume (getHotMatchIds (cache s)) s
    else (s, []).
Proof.
  unfold pollHotMatchOdds, pollHotMatchOdds_enter, pollHotMatchOdds_resume.
  by destruct (oddsPollingActive s).
Qed.

(** A resumed tick does not look at the flag again. *)
Lemma prefetch_resume_enqueues hotIds s :
  Worker.counted (worker s) → Worker.listening (worker s) = true → hotIds ≠ [] →
  let r := pollHotMatchOdds_resume hotIds s in
  r.2 = [] ∧ oddsPollingActive r.1 = true ∧
  (Worker.fetching (worker r.1)).*1 ++ Worker.queue (worker r.1)
  = ((Worker.fetching (worker s)).*1 ++ Worker.queue (worker s)) ++ hotIds.
Proof.
  intros Hc Hl Hne. unfold pollHotMatchOdds_resume.
  rewrite bool_decide_eq_false_2 by (by destruct hotIds).
  cbn [worker fetches with_oddsPollingActive].
  pose proof (emit_order launch hotIds (worker s) (fetches s) Hl) as Ho.
  unfold Worker.emit_FETCH_ODDS in *. rewrite Hl in *.
  pose proof (enqueue_nonempty launch hotIds (worker s) (fetches s) Hc Hne) as He.
  destruct (Worker.enqueue launch hotIds (worker s) (fetches s)) as [[w' n'] out].
  cbn [fst] in Ho. destruct He as [-> _]. cbn [fst snd foldl worker with_pool].
  split; [done|]. split; [done|].
  destruct Ho as (extra & Hf & Hq).
  by rewrite Hf, fmap_app, <- !app_assoc, Hq.
Qed.

End PrefetchTickFacts.

(** X19.  With the in-memory cache, where [getHotMatchIds] resumes within
    the tick's own turn of the event loop, the odds tier of the prefetch
    scheduler never has two ticks enqueuing at once.  In every state it can
    reach there: a tick that finds [oddsPollingActive] set, or entries of an
    earlier tick still queued or being fetched, returns at once and changes
    nothing; a tick that finds no hot match changes nothing either; a tick
    that finds the flag clear and hot matches raises the flag and hands
    exactly those ids to the worker; and the flag falls only in a step in
    which the worker emitted [TICK_COMPLETE].
    The guard covers that case only.  The tick is the guard followed by
    the resumption from [await this.getHotMatchIds()], and the resumption
    does not read the flag again: resumed in a later turn, as on a cache
    service that answers from outside the process, a tick hands its ids to
    the worker behind whatever the worker holds by then. *)
Theorem prefetch_odds_tick_non_overlap (names : list string)
  (c0 : InMemory.InMemoryCacheService) (trace : list (Z * Prefetch.Event)) :
  let s := Prefetch.run (Prefetch.create names c0) trace in
  (Prefetch.oddsPollingActive s = true → Prefetch.pollHotMatchOdds s = (s, [])) ∧
  (Worker.busy (Prefetch.worker s) → Prefetch.pollHotMatchOdds s = (s, [])) ∧
  (Prefetch.getHotMatchIds (Prefetch.cache s) = [] →
   Prefetch.pollHotMatchOdds s = (s, [])) ∧
  (Prefetch.oddsPollingActive s = false →
   Prefetch.getHotMatchIds (Prefetch.cache s) ≠ [] →
   let s' := (Prefetch.pollHotMatchOdds s).1 in
   Prefetch.oddsPollingActive s' = true ∧
   (Worker.listening (Prefetch.worker s) = true →
    (Worker.fetching (Prefetch.worker s')).*1 ++ Worker.queue (Prefetch.worker s')
      = Prefetch.getHotMatchIds (Prefetch.cache s))) ∧
  (∀ te, Prefetch.oddsPollingActive s = true →
         Prefetch.oddsPollingActive (Prefetch.step s te) = false →
         Worker.TICK_COMPLETE ∈ (Prefetch.step_out s te).2) ∧
  Prefetch.pollHotMatchOdds s
    = (if Prefetch.pollHotMatchOdds_enter s
       then Prefetch.pollHotMatchOdds_resume
              (Prefetch.getHotMatchIds (Prefetch.cache s)) s
       else (s, [])) ∧
  (∀ hotIds, hotIds ≠ [] → Worker.listening (Prefetch.worker s) = true →
     let resumed := Prefetch.pollHotMatchOdds_resume hotIds s in
     resumed.2 = [] ∧ Prefetch.oddsPollingActive resumed.1 = true ∧
     (Worker.fetching (Prefetch.worker resumed.1)).*1
       ++ Worker.queue (Prefetch.worker resumed.1)
     = ((Worker.fetching (Prefetch.worker s)).*1 ++ Worker.queue (Prefetch.worker s))
         ++ hotIds).
Proof.
  intros s.
  pose proof (prefetch_guarded_run trace _ (prefetch_guarded_create names c0)) as Hs.
  fold s in Hs.
  assert (Prefetch.oddsPollingActive s = true → Prefetch.pollHotMatchOdds s = (s, []))
    as Hskip.
  { intros Hflag. unfold Prefetch.pollHotMatchOdds. by rewrite Hflag. }
  split; [exact Hskip|]. split; [|split; [|split; [|split; [|split]]]].
  - intros Hbusy. apply Hskip. by apply Hs.
  - intros Hhot. unfold Prefetch.pollHotMatchOdds.
    destruct (Prefetch.oddsPollingActive s); [done|]. by rewrite Hhot.
  - intros Hflag Hhot. by apply prefetch_tick_dispatches.
  - intros te. by apply prefetch_guarded_step.
  - apply pollHotMatchOdds_split.
  - intros hotIds Hne Hl. apply prefetch_resume_enqueues; [apply Hs|done|done].
Qed.

Lemma prefetch_odds_tick_non_overlap_witness :
  let s := Prefetch.run (Prefetch.create ["exchange"] InMemory.empty)
             [(0, Prefetch.Start (fun _ _ => Returned []));
              (100, Prefetch.MarkMatchHot "M1");
              (1000, Prefetch.OddsTick)] in
  Prefetch.pollHotMatchOdds s = (s, []).
Proof.
  intros s.
  apply (proj1 (prefetch_odds_tick_non_overlap ["exchange"] InMemory.empty
                  [(0, Prefetch.Start (fun _ _ => Returned []));
                   (100, Prefetch.MarkMatchHot "M1");
                   (1000, Prefetch.OddsTick)])).
  reflexivity.
Defined.

Section PrefetchHotFacts.
Import Prefetch.
Implicit Types s : DataPrefetchScheduler.

Lemma set_keeps_keys k' v ttl now c k :
  is_Some (InMemory.store c !! k) →
  is_Some (InMemory.store (InMemory.set k' v ttl now c) !! k).
Proof. intros Hk. rewrite set_lookup. by case_bool_decide. Qed.

Lemma fetchOdds_result_keeps_keys names reply m now c k :
  is_Some (InMemory.store c !! k) →
  is_Some (InMemory.store (fetchOdds_result names reply m now c).2 !! k).
Proof.
  intros Hk. induction names as [|name names IH]; cbn [fetchOdds_result]; [done|].
  destruct (reply name) as [markets|?]; [|done].
  case_bool_decide; [|done]. by apply set_keeps_keys.
Qed.

Lemma prefetchAllMatchLists_keeps_keys reply now s k :
  is_Some (InMemory.store (cache s) !! k) →
  is_Some (InMemory.store (cache (prefetchAllMatchLists reply now s)) !! k).
Proof.
  unfold prefetchAllMatchLists. generalize PREFETCH_SPORTS as sports.
  intros sports. revert s.
  induction sports as [|sp sports IH]; intros s Hk; [done|].
  cbn [foldl]. apply IH. unfold prefetchMatchList. cbn [cache with_cache].
  by apply set_keeps_keys.
Qed.

(** The prefetch scheduler only ever adds keys to the cache. *)
Lemma prefetch_step_keeps_keys s te k :
  is_Some (InMemory.store (cache s) !! k) →
  is_Some (InMemory.store (cache (step s te)) !! k).
Proof.
  intros Hk. destruct te as [now ev]. unfold step, step_out. cbn [fst snd].
  destruct ev as [reply| | |i reply|m]; cbn [fst snd].
  - unfold start. destruct (started s); [done|]. cbn [cache].
    by apply prefetchAllMatchLists_keeps_keys.
  - unfold stop. destruct (started s); cbn [negb]; [|done]. by destruct (oddsTimer s).
  - destruct (armed s); [|done]. unfold pollHotMatchOdds.
    destruct (oddsPollingActive s); [done|]. case_bool_decide; [done|].
    destruct (Worker.emit_FETCH_ODDS launch _ _ _) as [[w' n'] out]. cbn [fst].
    by destruct (prefetch_deliver_fields out
                   (with_pool (w', n') (with_oddsPollingActive true s))) as (_ & -> & _).
  - unfold fetchDone. destruct (Worker.fetching (worker s) !! i) as [[m q]|]; [|done].
    pose proof (fetchOdds_result_keeps_keys (providers s) reply m now (cache s) k Hk) as H.
    destruct (fetchOdds_result (providers s) reply m now (cache s)) as [success c'].
    destruct (Worker.finish launch i success (worker s) (fetches s)) as [[w' n'] out].
    cbn [fst]. by destruct (prefetch_deliver_fields out
                              (with_pool (w', n') (with_cache c' s))) as (_ & -> & _).
  - unfold markMatchHot. cbn [cache with_cache]. by apply set_keeps_keys.
Qed.

Lemma prefetch_run_keeps_keys trace k : ∀ s,
  is_Some (InMemory.store (cache s) !! k) →
  is_Some (InMemory.store (cache (run s trace)) !! k).
Proof.
  induction trace as [|te trace IH]; intros s Hk; [done|].
  cbn [run foldl]. apply IH. by apply prefetch_step_keeps_keys.
Qed.

Lemma getHotMatchIds_lists m c :
  single_line m = true →
  is_Some (InMemory.store c !! PREFETCH_KEYS.hotMatch m) →
  m ∈ getHotMatchIds c.
Proof.
  intros Hm Hk. unfold getHotMatchIds.
  destruct hot_match_pattern_compiles as (regex & Hre & Hmatch).
  destruct (InMemory.keys PREFETCH_KEYS.hotMatchPattern c) as [ks|] eqn:Hks;
    [|unfold InMemory.keys in Hks; by rewrite Hre in Hks].
  cbn [default]. rewrite <- (strip_hot_match_prefix m) at 1.
  apply list_elem_of_In, in_map, list_elem_of_In.
  apply (elem_of_keys _ _ _ _ _ Hre Hks). split; [done|]. by rewrite Hmatch.
Qed.

End PrefetchHotFacts.

(** X20.  With the in-memory cache a match, once marked hot, is never
    dropped by the prefetch scheduler: [getHotMatchIds] enumerates keys
    without reading them, [keys] does not look at expiry, and nothing the
    scheduler does removes a key.  Whatever the scheduler does after
    [markMatchHot(m)], and however late, [m] is listed, and a tick that is
    not skipped raises the flag to fetch it. *)
Theorem prefetch_hot_set_never_shrinks (names : list string)
  (c0 : InMemory.InMemoryCacheService) (before after : list (Z * Prefetch.Event))
  (t0 : Z) (m : string) :
  single_line m = true →
  let s := Prefetch.run (Prefetch.create names c0)
             (before ++ (t0, Prefetch.MarkMatchHot m) :: after) in
  m ∈ Prefetch.getHotMatchIds (Prefetch.cache s) ∧
  (Prefetch.oddsPollingActive s = false →
   Prefetch.oddsPollingActive (Prefetch.pollHotMatchOdds s).1 = true).
Proof.
  intros Hm s.
  assert (m ∈ Prefetch.getHotMatchIds (Prefetch.cache s)) as Hin.
  { apply getHotMatchIds_lists; [done|].
    unfold s, Prefetch.run. rewrite foldl_app. cbn [foldl].
    apply (prefetch_run_keeps_keys after).
    unfold Prefetch.step, Prefetch.step_out, Prefetch.markMatchHot.
    cbn [fst snd Prefetch.cache Prefetch.with_cache].
    rewrite set_lookup. rewrite bool_decide_eq_true_2 by done. by eexists. }
  split; [done|]. intros Hflag.
  apply prefetch_tick_dispatches; [|done|].
  - apply prefetch_guarded_run, prefetch_guarded_create.
  - intros Hnil. rewrite Hnil in Hin. by apply elem_of_nil in Hin.
Qed.

Lemma prefetch_hot_set_never_shrinks_witness :
  let s := Prefetch.run (Prefetch.create ["exchange"] InMemory.empty)
             ([(0, Prefetch.Start (fun _ _ => Returned []))]
              ++ (100, Prefetch.MarkMatchHot "M1")
              :: [(1000, Prefetch.OddsTick);
                  (1200, Prefetch.FetchDone 0 (fun _ => Returned []));
                  (86400000, Prefetch.MarkMatchHot "M2")]) in
  "M1" ∈ Prefetch.getHotMatchIds (Prefetch.cache s) ∧
  (Prefetch.oddsPollingActive s = false →
   Prefetch.oddsPollingActive (Prefetch.pollHotMatchOdds s).1 = true).
Proof.
  intros s.
  apply (prefetch_hot_set_never_shrinks ["exchange"] InMemory.empty
           [(0, Prefetch.Start (fun _ _ => Returned []))]
           [(1000, Prefetch.OddsTick);
            (1200, Prefetch.FetchDone 0 (fun _ => Returned []));
            (86400000, Prefetch.MarkMatchHot "M2")] 100 "M1").
  reflexivity.
Defined.

(** ** The Redis cache service *)

Section RedisFacts.
Import Redis.
Implicit Types c : RedisCacheService.

Lemma replace_first_unfold pat rep s :
  replace_first pat rep s =
  if starts_with pat s then rep +:+ drop_chars (String.length pat) s
  else match s with
       | EmptyString => EmptyString
       | String ch s' => String ch (replace_first pat rep s')
       end.
Proof. by destruct s. Qed.

Lemma starts_with_append p k : starts_with p (p +:+ k) = true.
Proof.
  induction p as [|a p IH]; [done|].
  change (String a p +:+ k) with (String a (p +:+ k)).
  cbn [starts_with]. by rewrite Ascii.eqb_refl, IH.
Qed.

Lemma drop_chars_append p k : drop_chars (String.length p) (p +:+ k) = k.
Proof. induction p as [|a p IH]; [done|]. exact IH. Qed.

Lemma strip_prefix p k : replace_first p EmptyString (p +:+ k) = k.
Proof.
  rewrite replace_first_unfold, starts_with_append, drop_chars_append. done.
Qed.

Lemma append_inj p k k' : p +:+ k = p +:+ k' → k = k'.
Proof.
  induction p as [|a p IH]; [done|].
  change (String a (p +:+ k) = String a (p +:+ k') → k = k').
  intros [= H]. by apply IH.
Qed.

Lemma redis_set_lookup k v ttl now c k' :
  0 < ttl →
  db (set k v (Some ttl) true now c) !! key c k' =
  if bool_decide (k' = k) then Some (v, now + ttl * 1000) else db c !! key c k'.
Proof.
  intros Httl. unfold set.
  change (default InMemory.CACHE_TTL_DEFAULT (Some ttl)) with ttl.
  cbn [andb]. rewrite (proj2 (Z.ltb_lt 0 ttl) Httl). cbn [db].
  case_bool_decide as Hk.
  - subst. apply lookup_insert_eq.
  - apply lookup_insert_ne. unfold key. intros H. by apply append_inj in H.
Qed.

End RedisFacts.

(** X21.  With the Redis service a value lives exactly its ttl: after a
    [set(k, v, ttl)] that succeeded at [t0], [get(k)] returns [v] and
    [exists(k)] is true before [t0 + ttl × 1000] and [get(k)] returns [null]
    from then on (there is no stale window); other keys read as before,
    the prefix keeping apart what different keys store; and after a
    [del(k)] that succeeded, [get(k)] returns [null]. *)
Theorem redis_round_trip (c : Redis.RedisCacheService) (k : string) (v : Json)
  (ttl t0 : Z) :
  0 < ttl →
  let written := Redis.set k v (Some ttl) true t0 c in
  (∀ t, t < t0 + ttl * 1000 →
        Redis.get k true t written = v ∧ Redis.exists_ k true t written = true) ∧
  (∀ t, t0 + ttl * 1000 ≤ t →
        Redis.get k true t written = JNull ∧ Redis.exists_ k true t written = false) ∧
  (∀ k' t, k' ≠ k →
        Redis.get k' true t written = Redis.get k' true t c ∧
        Redis.exists_ k' true t written = Redis.exists_ k' true t c) ∧
  (∀ t, Redis.get k true t (Redis.del k true written) = JNull).
Proof.
  intros Httl written.
  assert (∀ k', Redis.key written k' = Redis.key c k') as Hkey.
  { intros k'. unfold written, Redis.set, Redis.key.
    change (default InMemory.CACHE_TTL_DEFAULT (Some ttl)) with ttl.
    cbn [andb]. by rewrite (proj2 (Z.ltb_lt 0 ttl) Httl). }
  assert (∀ k', Redis.db written !! Redis.key written k' =
                if bool_decide (k' = k) then Some (v, t0 + ttl * 1000)
                else Redis.db c !! Redis.key c k') as Hlook.
  { intros k'. rewrite Hkey. by apply redis_set_lookup. }
  split; [|split; [|split]].
  - intros t Ht. unfold Redis.get, Redis.exists_. rewrite Hlook.
    rewrite bool_decide_eq_true_2 by done.
    by replace (t <? t0 + ttl * 1000) with true by lia.
  - intros t Ht. unfold Redis.get, Redis.exists_. rewrite Hlook.
    rewrite bool_decide_eq_true_2 by done.
    by replace (t <? t0 + ttl * 1000) with false by lia.
  - intros k' t Hne. unfold Redis.get, Redis.exists_. rewrite Hlook.
    by rewrite bool_decide_eq_false_2.
  - intros t. unfold Redis.get, Redis.del. cbn [Redis.db Redis.key Redis.prefix].
    fold (Redis.key written k). by rewrite lookup_delete_eq.
Qed.

Lemma redis_round_trip_witness :
  let written := Redis.set "exchange:odds:7" (JArr [JNum 1]) (Some 2) true 0
                   (Redis.connect "sn:") in
  Redis.get "exchange:odds:7" true 1999 written = JArr [JNum 1] ∧
  Redis.exists_ "exchange:odds:7" true 1999 written = true.
Proof.
  intros written.
  apply (proj1 (redis_round_trip (Redis.connect "sn:") "exchange:odds:7"
                  (JArr [JNum 1]) 2 0 ltac:(lia)) 1999).
  lia.
Defined.

(** X22.  While the Redis commands fail, the service degrades to a
    pass-through and never throws: [get] answers [null], [exists] answers
    [false], [set] and [del] change nothing, [keys] lists nothing; and
    [getOrSet] calls its factory and hands the factory's value, or its
    rejection, to the caller, leaving the keyspace as it was. *)
Theorem redis_outage_is_a_pass_through (c : Redis.RedisCacheService) (k : string) :
  (∀ now, Redis.get k false now c = JNull ∧ Redis.exists_ k false now c = false) ∧
  (∀ v ttl now, Redis.set k v ttl false now c = c) ∧
  Redis.del k false c = c ∧
  (∀ reason, Redis.keys_result (Threw reason) c = []) ∧
  (∀ factory ttl now,
     let entered := Redis.getOrSet_enter k factory ttl false now c in
     entered.1 = Redis.Suspended (Redis.nextCall c) ∧
     Redis.factoryCalls entered.2 = Redis.factoryCalls c ++ [(k, factory)] ∧
     ∀ r later,
       let resumed := Redis.getOrSet_resume (Redis.nextCall c) r false later entered.2 in
       resumed.1 = Some r ∧ Redis.db resumed.2 = Redis.db c).
Proof.
  split; [done|]. split; [done|]. split; [done|]. split; [done|].
  intros factory ttl now entered.
  unfold entered, Redis.getOrSet_enter. cbn [Redis.get fst snd Redis.factoryCalls].
  split; [done|]. split; [done|].
  intros r later. unfold Redis.getOrSet_resume.
  cbn [Redis.awaiting]. rewrite lookup_insert_eq.
  destruct r; cbn [fst snd andb Redis.set Redis.db]; done.
Qed.

(** X23.  [keys] of the Redis service hands back the names the callers
    use: when the server lists the keys stored for [names], each under
    the prefix, the method returns [names] themselves, so that every name
    returned reads, through [key], the key that was listed. *)
Theorem redis_keys_strips_the_prefix (c : Redis.RedisCacheService) (names : list string) :
  Redis.keys_result (Returned (Redis.key c <$> names)) c = names ∧
  Redis.key c <$> Redis.keys_result (Returned (Redis.key c <$> names)) c
    = Redis.key c <$> names.
Proof.
  assert (Redis.keys_result (Returned (Redis.key c <$> names)) c = names) as H.
  { unfold Redis.keys_result, Redis.key.
    induction names as [|n names IH]; [done|].
    cbn [fmap list_fmap List.map]. rewrite strip_prefix. f_equal. exact IH. }
  by rewrite H.
Qed.

(** ** The exchange routes *)

Section RouteFacts.
Import Exchange ExchangeRoutes.

Lemma serve_cached_hit key t c e :
  InMemory.store c !! key = Some e →
  t ≤ InMemory.staleUntil e →
  truthy (InMemory.value e) = true →
  serve_cached key t c = (Answered (Success (InMemory.value e)), c).
Proof.
  intros He Ht Hv. unfold serve_cached, InMemory.get. rewrite He.
  replace (_ <? t) with false by lia. by rewrite Hv.
Qed.

Lemma serve_cached_miss key t c :
  (InMemory.get key t c).1 = JNull →
  (serve_cached key t c).1 = Waiting tt.
Proof.
  intros Hmiss. unfold serve_cached.
  destruct (InMemory.get key t c) as [cached c']. cbn [fst] in Hmiss. by subst.
Qed.

(** A truthy answer stored by a handler is what the same route serves,
    without asking the provider, until the entry leaves its stale
    window. *)
Lemma served_after_store key ttl fallback error data t0 t c between :
  truthy data = true →
  let written := (store_truthy key ttl fallback error (Returned data) t0 c).2 in
  InMemory.untouched key t written between →
  t ≤ t0 + ttl * 1000 * InMemory.STALE_MULTIPLIER →
  (serve_cached key t (foldl InMemory.apply written between)).1
  = Answered (Success data).
Proof.
  intros Hd written Hu Ht. unfold written, store_truthy in *. rewrite Hd in *.
  cbn [snd] in *.
  clear written.
  assert (InMemory.store (foldl InMemory.apply (InMemory.set key data (Some ttl) t0 c)
                            between) !! key
          = Some (InMemory.mkEntry data (t0 + ttl * 1000)
                    (t0 + ttl * 1000 * InMemory.STALE_MULTIPLIER))) as Hkept.
  { apply (untouched_keeps key _ t); [|exact Ht|exact Hu].
    rewrite set_lookup. by rewrite bool_decide_eq_true_2. }
  by rewrite (serve_cached_hit _ t _ _ Hkept Ht Hd).
Qed.

Lemma nullish_or_truthy fallback data : truthy data = true → nullish_or fallback data = data.
Proof. by destruct data. Qed.

End RouteFacts.



(** X25.  An upstream failure on [GET /odds/:gmid] is answered as an
    empty success.  [getMatchOdds] turns a throwing HTTP call, a body
    whose [success] is falsy and a body without [data] into [null].  In
    every state the scheduler can reach, for a request that missed the
    cache and waits on a promise: when the call behind the promise yields
    such an answer, the promise is fulfilled with [null], nothing is
    written to the cache, and the route answers [{ success: true, data: [] }]
    and marks the gmid hot all the same. *)
Theorem upstream_failure_is_answered_as_empty_success
  (cfg : Exchange.ExchangePollConfig) (c0 : InMemory.InMemoryCacheService)
  (trace : list (Z * Exchange.Event)) (g : string) (sport now later : Z)
  (response : Reply Json) (p : nat) (s1 : Exchange.ExchangePollingScheduler) :
  let s := Exchange.run (Exchange.create cfg c0) trace in
  single_line g = true →
  ExchangeRoutes.odds g sport now s = (ExchangeRoutes.Waiting p, s1) →
  ExchangeProvider.getMatchOdds response = None →
  let s2 := (Exchange.oddsReply p (Returned (ExchangeProvider.getMatchOdds response))
               later s1).1 in
  let answered := ExchangeRoutes.odds_settled g sport (Fulfilled JNull) later s2 in
  Coalescer.settled (Exchange.coalescer s2) !! p = Some (Fulfilled JNull) ∧
  Exchange.cache s2 = Exchange.cache s1 ∧
  answered.1 = ExchangeRoutes.Success (JArr []) ∧
  (∀ t, t ≤ later + Exchange.oddsHotTtl (Exchange.config s2) * 1000
                    * InMemory.STALE_MULTIPLIER →
        Exchange.mkHot g (JNum sport)
          ∈ (Exchange.getHotGmids t (Exchange.cache answered.2)).1) ∧
  (∀ reason, ExchangeProvider.getMatchOdds (Threw reason) = None) ∧
  (∀ body, truthy (property "success" body) = false ∨ truthy (property "data" body) = false →
           ExchangeProvider.getMatchOdds (Returned body) = None).
Proof.
  intros s Hg Hodds Hnone s2 answered.
  assert (∃ key f, Coalescer.running (Exchange.coalescer s1) !! p = Some (key, f))
    as (key & f & Hp).
  { pose proof (coalescer_consistent_run trace cfg c0) as Hc. fold s in Hc.
    unfold ExchangeRoutes.odds in Hodds.
    destruct (InMemory.get (Exchange.EXCHANGE_CACHE_KEYS.matchOdds g) now (Exchange.cache s))
      as [v c'].
    destruct (truthy v); [done|].
    unfold Exchange.getCoalescedOdds in Hodds.
    cbn [Exchange.coalescer Exchange.with_cache] in Hodds.
    pose proof (consistent_coalesce ("odds:" +:+ g) (Exchange.CachingOdds g (JNum sport))
                  (Exchange.coalescer s) Hc) as Hc'.
    pose proof (coalesce_live ("odds:" +:+ g) (Exchange.CachingOdds g (JNum sport))
                  (Exchange.coalescer s) Hc) as Hlive.
    destruct (Coalescer.coalesce ("odds:" +:+ g) (Exchange.CachingOdds g (JNum sport))
                (Exchange.coalescer s)) as [q co]. cbn [fst snd] in *.
    injection Hodds as -> <-. cbn [Exchange.coalescer Exchange.with_coalescer].
    destruct Hlive as [[key f] Hq]. by exists key, f. }
  split; [|split; [|split; [|split; [|split]]]].
  - unfold s2. rewrite (oddsReply_settles p key f _ later s1 Hp). rewrite Hnone.
    by destruct f.
  - unfold s2. rewrite Hnone. by apply oddsReply_cache.
  - done.
  - intros t Ht. unfold answered, ExchangeRoutes.odds_settled. cbn [snd].
    by apply hot_through_stale_window.
  - done.
  - intros body [H|H]; unfold ExchangeProvider.getMatchOdds; rewrite H; cbn [negb orb];
      [done|by rewrite orb_true_r].
Qed.

Lemma upstream_failure_is_answered_as_empty_success_witness :
  let s := Exchange.run (Exchange.create Exchange.DEFAULT_POLL_CONFIG InMemory.empty) [] in
  let s1 := (ExchangeRoutes.odds "G1" 4 0 s).2 in
  let s2 := (Exchange.oddsReply 0%nat
               (Returned (ExchangeProvider.getMatchOdds (Threw "timeout"))) 300 s1).1 in
  Coalescer.settled (Exchange.coalescer s2) !! 0%nat = Some (Fulfilled JNull) ∧
  Exchange.cache s2 = Exchange.cache s1 ∧
  (ExchangeRoutes.odds_settled "G1" 4 (Fulfilled JNull) 300 s2).1
    = ExchangeRoutes.Success (JArr []).
Proof.
  intros s s1 s2.
  destruct (upstream_failure_is_answered_as_empty_success
              Exchange.DEFAULT_POLL_CONFIG InMemory.empty [] "G1" 4 0 300
              (Threw "timeout") 0%nat s1) as (H1 & H2 & H3 & _).
  - reflexivity.
  - reflexivity.
  - reflexivity.
  - split; [exact H1|]. split; [exact H2|exact H3].
Defined.




(** ** The use cases over the prefetched cache *)

Section UseCaseFacts.
Import Prefetch UseCases.

Lemma prefetchAllMatchLists_lookup reply now s sport :
  sport ∈ PREFETCH_SPORTS →
  InMemory.store (cache (prefetchAllMatchLists reply now s))
    !! PREFETCH_KEYS.liveMatches sport
  = Some (InMemory.mkEntry
            (JArr (flat_map (λ name, match reply name sport with
                                      | Returned found => found
                                      | Threw _ => []
                                      end) (providers s)))
            (now + 100 * 1000) (now + 100 * 1000 * InMemory.STALE_MULTIPLIER)).
Proof.
  intros Hin. unfold prefetchAllMatchLists, PREFETCH_SPORTS in *. cbn [foldl].
  rewrite !elem_of_cons, elem_of_nil in Hin.
  rewrite !prefetchMatchList_lookup, !prefetchMatchList_providers.
  rewrite !collect_matches_flat. cbn [app].
  destruct Hin as [->|[->|[->|[]]]]; repeat case_bool_decide; done.
Qed.

Lemma prefetchAllMatchLists_promises reply now s :
  InMemory.inflight (cache (prefetchAllMatchLists reply now s))
    = InMemory.inflight (cache s) ∧
  InMemory.factoryCalls (cache (prefetchAllMatchLists reply now s))
    = InMemory.factoryCalls (cache s).
Proof. done. Qed.

Lemma prefetchAllMatchLists_spares reply now s key :
  (∀ sport, sport ∈ PREFETCH_SPORTS → key ≠ PREFETCH_KEYS.liveMatches sport) →
  InMemory.store (cache (prefetchAllMatchLists reply now s)) !! key
  = InMemory.store (cache s) !! key.
Proof.
  intros Hne. unfold prefetchAllMatchLists, PREFETCH_SPORTS in *. cbn [foldl].
  rewrite !prefetchMatchList_lookup.
  rewrite !bool_decide_eq_false_2; [done|apply Hne..];
    rewrite !elem_of_cons; tauto.
Qed.

End UseCaseFacts.

(** X28.  With the in-memory cache, [GetLiveMatchesUseCase] for one of the
    prefetched sports answers what the prefetch scheduler stored: the
    providers' lists as [prefetchAllMatchLists] concatenated them, not a
    list mapped by its own factory.  For 100 s after the prefetch the use
    case answers that array and calls no factory; for the next 100 s it
    answers the same array and starts a background refresh with its own
    factory, unless one is in flight for the key; after that it waits for a
    promise.  The key of a request without a sport, [live_matches:all], is
    not among those the prefetch writes: such a request on a cache without
    that key waits for a promise, whenever it comes. *)
Theorem live_matches_are_served_from_the_prefetched_list
  (reply : string → string → Reply (list Json)) (t0 t : Z)
  (s : Prefetch.DataPrefetchScheduler) (sport : string) (factory : nat) :
  sport ∈ Prefetch.PREFETCH_SPORTS →
  let c := Prefetch.cache (Prefetch.prefetchAllMatchLists reply t0 s) in
  let answered name := match reply name sport with
                       | Returned found => found
                       | Threw _ => []
                       end in
  let stored := JArr (flat_map answered (Prefetch.providers s)) in
  let request := UseCases.live_enter (Some sport) factory t c in
  (t ≤ t0 + 100 * 1000 → request = (InMemory.Now stored, c)) ∧
  (t0 + 100 * 1000 < t ≤ t0 + 100 * 1000 * InMemory.STALE_MULTIPLIER →
     request.1 = InMemory.Now stored ∧
     InMemory.store request.2 = InMemory.store c ∧
     InMemory.factoryCalls request.2
     = match InMemory.inflight (Prefetch.cache s) !! UseCases.liveKey (Some sport) with
       | Some _ => InMemory.factoryCalls (Prefetch.cache s)
       | None => InMemory.factoryCalls (Prefetch.cache s)
                   ++ [(UseCases.liveKey (Some sport), factory)]
       end) ∧
  (t0 + 100 * 1000 * InMemory.STALE_MULTIPLIER < t → ∃ p, request.1 = InMemory.Later p) ∧
  (InMemory.store (Prefetch.cache s) !! UseCases.liveKey None = None →
   ∃ p, (UseCases.live_enter None factory t c).1 = InMemory.Later p).
Proof.
  intros Hin c answered stored request.
  assert (InMemory.store (Prefetch.cache s) !! UseCases.liveKey None = None →
          ∃ p, (UseCases.live_enter None factory t c).1 = InMemory.Later p) as Hall.
  { intros Hcold. unfold UseCases.live_enter, InMemory.getOrSet, c.
    rewrite prefetchAllMatchLists_spares, Hcold.
    - destruct (InMemory.coalesce _ _ _ _) as [p c']. by exists p.
    - intros sp Hsp. unfold Prefetch.PREFETCH_SPORTS in Hsp.
      rewrite !elem_of_cons, elem_of_nil in Hsp.
      destruct Hsp as [->|[->|[->|[]]]]; discriminate. }
  pose proof (prefetchAllMatchLists_lookup reply t0 s sport Hin) as Hstored.
  destruct (prefetchAllMatchLists_promises reply t0 s) as [Hinfl Hcalls].
  fold c in Hstored, Hinfl, Hcalls. fold answered in Hstored. fold stored in Hstored.
  unfold request, UseCases.live_enter, InMemory.getOrSet.
  change (UseCases.liveKey (Some sport)) with (Prefetch.PREFETCH_KEYS.liveMatches sport).
  rewrite Hstored. cbn [InMemory.freshUntil InMemory.staleUntil InMemory.value].
  split; [|split; [|split; [|exact Hall]]].
  - intros Ht. by rewrite (proj2 (Z.leb_le _ _) Ht).
  - intros [Hlo Hhi].
    rewrite (proj2 (Z.leb_gt _ _) Hlo), (proj2 (Z.leb_le _ _) Hhi). cbn [fst snd].
    split; [done|].
    unfold InMemory.refreshInBackground, InMemory.coalesce. rewrite Hinfl.
    destruct (InMemory.inflight (Prefetch.cache s) !! _); cbn [snd]; [done|].
    cbn [InMemory.store InMemory.factoryCalls]. by rewrite Hcalls.
  - intros Hlate.
    rewrite (proj2 (Z.leb_gt _ _) Hlate).
    replace (t <=? t0 + 100 * 1000) with false
      by (unfold InMemory.STALE_MULTIPLIER in *; lia).
    destruct (InMemory.coalesce _ _ _ _) as [p c']. by exists p.
Qed.

Lemma live_matches_are_served_from_the_prefetched_list_witness :
  let s := Prefetch.create ["exchange"] InMemory.empty in
  let c := Prefetch.cache
             (Prefetch.prefetchAllMatchLists (λ _ _, Returned [JStr "m1"]) 0 s) in
  UseCases.live_enter (Some "cricket") 7%nat 50000 c
  = (InMemory.Now (JArr [JStr "m1"]), c).
Proof.
  intros s c.
  assert ("cricket" ∈ Prefetch.PREFETCH_SPORTS) as Hin by (by left).
  destruct (live_matches_are_served_from_the_prefetched_list
              (λ _ _, Returned [JStr "m1"]) 0 50000 s "cricket" 7%nat Hin) as [H _].
  apply H. lia.
Defined.


(** ** The odds tick on a cache that answers in a later turn *)

Section SuspendedTickFacts.
Import Exchange.
Implicit Types s : ExchangePollingScheduler.

(** The tick of the in-memory scheduler is the guard followed by the
    resumption with what the in-memory [getHotGmids] returns. *)
Lemma pollHotGmidOdds_split now s :
  pollHotGmidOdds now s
  = if pollHotGmidOdds_enter s
    then let '(hotEntries, c') := getHotGmids now (cache s) in
         pollHotGmidOdds_resume hotEntries (with_cache c' s)
    else (s, []).
Proof.
  unfold pollHotGmidOdds, pollHotGmidOdds_enter, pollHotGmidOdds_resume.
  destruct (oddsPollingActive s); cbn [negb]; [done|].
  by destruct (getHotGmids now (cache s)) as [hot c'].
Qed.

(** A resumed tick does not look at the flag again: it raises it and
    hands its entries to the worker, behind whatever the worker holds. *)
Lemma resume_enqueues hot s :
  tick_guarded s → Worker.listening (worker s) = true → hot ≠ [] →
  let '(s', out) := pollHotGmidOdds_resume hot s in
  out = [] ∧ oddsPollingActive s' = true ∧ tick_guarded s' ∧
  Worker.listening (worker s') = true ∧ Worker.busy (worker s') ∧
  held (worker s') = held (worker s) ++ hot.
Proof.
  intros [Hc Hg] Hl Hne. unfold pollHotGmidOdds_resume.
  rewrite bool_decide_eq_false_2 by (by destruct hot).
  cbn [worker coalescer with_oddsPollingActive].
  pose proof (emit_order launch hot (worker s) (coalescer s) Hl) as Ho.
  unfold Worker.emit_FETCH_ODDS in *. rewrite Hl in *.
  pose proof (enqueue_nonempty launch hot (worker s) (coalescer s) Hc Hne) as He.
  pose proof (enqueue_spec launch hot (worker s) (coalescer s) Hc) as Hs.
  destruct (Worker.enqueue launch hot (worker s) (coalescer s)) as [[w' co'] out].
  cbn [fst] in Ho. destruct He as [-> Hbusy]. destruct Hs as (Hc' & Hl' & _).
  cbn [deliver foldl worker oddsPollingActive with_worker with_coalescer].
  split; [done|]. split; [done|]. split; [by split|].
  split; [by rewrite Hl'|]. split; [done|].
  destruct Ho as (extra & Hf & Hq). unfold held.
  by rewrite Hf, fmap_app, <- !app_assoc, Hq.
Qed.

Lemma tick_guarded_resume hot s :
  tick_guarded s → tick_guarded (pollHotGmidOdds_resume hot s).1.
Proof.
  intros Hs. unfold pollHotGmidOdds_resume. case_bool_decide as Hlen; [done|].
  destruct (Worker.listening (worker s)) eqn:Hl.
  - pose proof (resume_enqueues hot s Hs Hl) as H.
    unfold pollHotGmidOdds_resume in H. rewrite bool_decide_eq_false_2 in H by done.
    destruct (Worker.emit_FETCH_ODDS launch hot _ _) as [[w' co'] out].
    cbn [fst]. apply H. by destruct hot.
  - cbn [worker coalescer with_oddsPollingActive]. unfold Worker.emit_FETCH_ODDS.
    rewrite Hl. cbn [deliver foldl fst]. destruct Hs as [Hc Hg]. by split.
Qed.

Lemma tick_guarded_turn st te :
  tick_guarded st.1 → tick_guarded (turn st te).1.
Proof.
  intros Hs. destruct st as [s n], te as [now [e| |hot]];
    unfold turn, turn_out; cbn [fst snd].
  - pose proof (tick_guarded_step s (now, e) Hs) as [H _].
    unfold step in H. by destruct (step_out s (now, e)).
  - by destruct (_ && _).
  - destruct n as [|n]; [done|].
    pose proof (tick_guarded_resume hot s Hs) as H.
    by destruct (pollHotGmidOdds_resume hot s).
Qed.

Lemma tick_guarded_turns trace : ∀ st,
  tick_guarded st.1 → tick_guarded (turns st trace).1.
Proof.
  induction trace as [|te trace IH]; intros st Hs; [done|].
  cbn [turns foldl]. apply IH. by apply tick_guarded_turn.
Qed.

End SuspendedTickFacts.

(** C5.  The odds tier can have two ticks enqueuing at once.
    [pollHotGmidOdds] raises [oddsPollingActive] only after
    [await this.getHotGmids()].  On a cache service that answers in a later
    turn of the event loop, a tick that fires while an earlier tick is
    waiting for the cache finds the flag clear and passes the guard as
    well.  In every state the scheduler can reach there, with the odds
    interval armed, the flag clear and the worker listening: two ticks in a
    row both go on to the cache; the first to resume raises the flag and
    hands its entries to the worker; the second resumes with the flag up
    and those entries queued or being fetched, and hands its entries to the
    worker all the same, so that the worker holds both batches.  (The tick
    of the in-memory scheduler is the same guard and the same resumption,
    within one turn.) *)
Theorem odds_ticks_overlap_when_the_cache_answers_late
  (cfg : Exchange.ExchangePollConfig) (c0 : InMemory.InMemoryCacheService)
  (trace : list (Z * Exchange.Turn)) (t1 t2 t3 t4 : Z)
  (hot1 hot2 : list Exchange.HotGmidEntry) :
  let st := Exchange.turns (Exchange.create cfg c0, 0%nat) trace in
  Exchange.fires Exchange.PollHotGmidOdds st.1 = true →
  Exchange.oddsPollingActive st.1 = false →
  Worker.listening (Exchange.worker st.1) = true →
  hot1 ≠ [] → hot2 ≠ [] →
  let entered := Exchange.turns st [(t1, Exchange.OddsTickEnter);
                                    (t2, Exchange.OddsTickEnter)] in
  let first := Exchange.turn_out entered (t3, Exchange.OddsTickResume hot1) in
  let second := Exchange.turn_out first.1 (t4, Exchange.OddsTickResume hot2) in
  entered = (st.1, S (S st.2)) ∧
  (Exchange.oddsPollingActive first.1.1 = true ∧
   Worker.busy (Exchange.worker first.1.1) ∧
   Exchange.held (Exchange.worker first.1.1) = hot1) ∧
  (Exchange.oddsPollingActive second.1.1 = true ∧
   Exchange.held (Exchange.worker second.1.1) = hot1 ++ hot2 ∧
   second.2 = []) ∧
  (∀ now, Exchange.pollHotGmidOdds now st.1
          = let '(hotEntries, c') := Exchange.getHotGmids now (Exchange.cache st.1) in
            Exchange.pollHotGmidOdds_resume hotEntries (Exchange.with_cache c' st.1)).
Proof.
  intros st Hfires Hflag Hl Hne1 Hne2 entered first second.
  assert (Exchange.tick_guarded st.1) as Hs.
  { apply tick_guarded_turns, tick_guarded_create. }
  assert (Exchange.held (Exchange.worker st.1) = []) as Hidle.
  { destruct Hs as [_ Hg]. unfold Exchange.held.
    destruct (Worker.fetching (Exchange.worker st.1)) eqn:Ef.
    - destruct (Worker.queue (Exchange.worker st.1)) eqn:Eq; [done|].
      rewrite Hg in Hflag; [done|]. left. by rewrite Eq.
    - rewrite Hg in Hflag; [done|]. right. by rewrite Ef. }
  assert (entered = (st.1, S (S st.2))) as Hentered.
  { unfold entered, Exchange.turns. cbn [foldl].
    unfold Exchange.turn, Exchange.turn_out, Exchange.pollHotGmidOdds_enter.
    cbn [fst snd]. rewrite Hfires, Hflag. cbn [andb negb fst snd].
    by rewrite Hfires, Hflag. }
  split; [done|].
  assert (second = Exchange.turn_out first.1 (t4, Exchange.OddsTickResume hot2))
    as Hsecond by reflexivity.
  assert (first = Exchange.turn_out entered (t3, Exchange.OddsTickResume hot1))
    as Hfirst by reflexivity.
  clearbody second first. rewrite Hentered in Hfirst.
  unfold Exchange.turn_out in Hfirst. cbn [fst snd] in Hfirst.
  pose proof (resume_enqueues hot1 st.1 Hs Hl Hne1) as H1.
  destruct (Exchange.pollHotGmidOdds_resume hot1 st.1) as [s1 out1].
  destruct H1 as (-> & Hflag1 & Hs1 & Hl1 & Hbusy1 & Hheld1).
  rewrite Hidle in Hheld1. cbn [app] in Hheld1.
  subst first. cbn [fst snd] in *.
  split; [done|].
  unfold Exchange.turn_out in Hsecond. cbn [fst snd] in Hsecond.
  pose proof (resume_enqueues hot2 s1 Hs1 Hl1 Hne2) as H2.
  destruct (Exchange.pollHotGmidOdds_resume hot2 s1) as [s2 out2].
  destruct H2 as (-> & Hflag2 & _ & _ & _ & Hheld2).
  subst second. cbn [fst snd].
  split; [by rewrite Hheld2, Hheld1|].
  intros now. rewrite pollHotGmidOdds_split.
  unfold Exchange.pollHotGmidOdds_enter. by rewrite Hflag.
Qed.

Lemma odds_ticks_overlap_when_the_cache_answers_late_witness :
  let replies := Exchange.mkReplies (Returned [JStr "cricket"]) (fun _ => Returned JNull)
                                    (Returned []) (Returned JNull) (Returned JNull) in
  let G1 := [Exchange.mkHot "G1" (JNum 4)] in
  let st := Exchange.turns
              (Exchange.create Exchange.DEFAULT_POLL_CONFIG InMemory.empty, 0%nat)
              [(0, Exchange.Sync (Exchange.Start replies));
               (1000, Exchange.OddsTickEnter); (2000, Exchange.OddsTickEnter)] in
  let first := Exchange.turn_out st (2100, Exchange.OddsTickResume G1) in
  let second := Exchange.turn_out first.1 (2150, Exchange.OddsTickResume G1) in
  Exchange.oddsPollingActive first.1.1 = true ∧
  Exchange.held (Exchange.worker first.1.1) = G1 ∧
  Exchange.held (Exchange.worker second.1.1) = G1 ++ G1.
Proof.
  intros replies G1 st first second.
  destruct (odds_ticks_overlap_when_the_cache_answers_late
              Exchange.DEFAULT_POLL_CONFIG InMemory.empty
              [(0, Exchange.Sync (Exchange.Start replies))] 1000 2000 2100 2150 G1 G1)
    as (_ & (H1 & _ & H2) & (_ & H3 & _) & _);
    [reflexivity|reflexivity|reflexivity|discriminate|discriminate|].
  split; [exact H1|]. split; [exact H2|exact H3].
Defined.
